(** * calibre fuzzy matcher ([src/calibre/utils/matcher.py]): model and proofs

    A shallow embedding of the matcher module: the partitioner [split], the
    reference scorer ([calc_score_for_char], [process_item], [PyScorer]), the
    worker loop body, the orchestration done by [Matcher.__init__] and
    [Matcher.__call__], and the display loop of [main].  Python floats are IEEE binary64 numbers and are
    modelled by Rocq's primitive floats; dictionaries are [gmap]s or, where
    insertion order matters ([OrderedDict]), association lists. *)

From Stdlib Require Import ZArith Floats Uint63 Ascii String.
From stdpp Require Import gmap list strings sorting.

#[local] Set Warnings "-inexact-float".
#[local] Open Scope Z_scope.

(** ** Python values *)

(** A Python [str] is a sequence of Unicode code points. *)
Abbreviation char := N.
Abbreviation pystr := (list char).

(** The code point of an ASCII character and the string of an ASCII literal. *)
Definition ch (c : ascii) : char := N_of_ascii c.
Arguments ch c%_char.

Definition s (x : string) : pystr := ch <$> list_ascii_of_string x.

(** The exceptions the module can raise. *)
Inductive exn : Type :=
| ZeroDivisionError
| IndexError
| KeyError
| AttributeError
| Exception (msg : pystr).

(** Result of running a piece of Python code: a value, a raised exception, or
    a loop that was cut by the step budget of the model. *)
Inductive outcome (A : Type) : Type :=
| Done (a : A)
| Raised (e : exn)
| NoFuel.
Arguments Done {A} a.
Arguments Raised {A} e.
Arguments NoFuel {A}.

#[global] Instance outcome_ret : MRet outcome := λ A a, Done a.
#[global] Instance outcome_bind : MBind outcome := λ A B k m,
  match m with
  | Done a => k a
  | Raised e => Raised e
  | NoFuel => NoFuel
  end.

(** ** The partitioner: [split] *)

(** [ceil(len(tasks) / pool_size)].  The source divides as floats and rounds
    up; on list lengths (far below 2^53) that is the integer ceiling. *)
Definition ceil_div (n w : nat) : nat := ((n + (w - 1)) / w)%nat.

(** The [while tasks:] loop of [split]; [fuel] bounds the iterations. *)
Fixpoint split_loop {A} (fuel delta : nat) (tasks : list A) (count : nat)
    (ans : list (list (nat * A))) : outcome (list (list (nat * A))) :=
  match tasks with
  | [] => Done ans
  | _ :: _ =>
    match fuel with
    | O => NoFuel
    | S fuel' =>
      let section := imap (λ i task, ((count + i)%nat, task)) (take delta tasks) in
      split_loop fuel' delta (drop delta tasks) (count + length section)%nat
                 (ans ++ [section])
    end
  end.

Definition split {A} (tasks : list A) (pool_size : nat)
    : outcome (list (list (nat * A))) :=
  if decide (pool_size = 0%nat) then Raised ZeroDivisionError
  else split_loop (length tasks) (ceil_div (length tasks) pool_size) tasks 0 [].

(** [{j: i for j, (i, _) in enumerate(task)}] *)
Definition task_map_of {A} (task : list (nat * A)) : gmap nat nat :=
  list_to_map (imap (λ j '(i, _), (j, i)) task).

(** ** Python primitives used by the scorer *)

Definition len {A} (l : list A) : Z := Z.of_nat (length l).

(** [l[i]] with Python's negative indices. *)
Definition py_index {A} (l : list A) (i : Z) : outcome A :=
  let j := if 0 <=? i then i else len l + i in
  if (0 <=? j) && (j <? len l) then
    match l !! Z.to_nat j with
    | Some x => Done x
    | None => Raised IndexError
    end
  else Raised IndexError.

(** [l[i:]] with Python's clamping of the start. *)
Definition py_slice_from {A} (l : list A) (i : Z) : list A :=
  let j := if 0 <=? i then i else Z.max 0 (len l + i) in
  drop (Z.to_nat j) l.

(** [del l[i:]] *)
Definition py_del_from {A} (l : list A) (i : Z) : list A :=
  let j := if 0 <=? i then i else Z.max 0 (len l + i) in
  take (Z.to_nat j) l.

(** [l[i] = x] for a non-negative index. *)
Definition py_setitem {A} (l : list A) (i : nat) (x : A) : outcome (list A) :=
  if decide (i < length l)%nat then Done (<[i:=x]> l) else Raised IndexError.

(** An [int] used in float arithmetic. *)
Definition float_of_Z (z : Z) : float :=
  if 0 <=? z then PrimFloat.of_uint63 (Uint63.of_Z z)
  else (- PrimFloat.of_uint63 (Uint63.of_Z (- z)))%float.

(** [x / n] for a float [x] and an int [n]: Python raises on a zero divisor
    instead of returning an infinity. *)
Definition py_div (x : float) (n : Z) : outcome float :=
  if n =? 0 then Raised ZeroDivisionError else Done (x / float_of_Z n)%float.

(** Truth value of a float: false exactly for [0.0] and [-0.0]. *)
Definition truthy (x : float) : bool := negb (PrimFloat.eqb x 0%float).

(** Membership of a character in a string ([prev in ctx.level1]). *)
Definition str_in (c : char) (l : pystr) : bool := bool_decide (c ∈ l).

(** ** Collaborators that live outside the module

    [calibre.utils.icu], [unicodedata.normalize] and [calibre.as_unicode] are
    imported by the module; they are taken as an interface. *)
Class Externals := {
  (** primary-strength (accent- and case-insensitive) equality of a query
      character with a haystack character: the collator behind
      [primary_find] *)
  primary_eq : char → char → bool;
  icu_lower : pystr → pystr;
  icu_upper : pystr → pystr;
  primary_sort_key : pystr → pystr;
  normalize_nfc : pystr → pystr;
  as_unicode : exn → pystr;
  (** canonical composition neither empties a string nor fills an empty one *)
  normalize_nfc_nil : ∀ x, normalize_nfc x = [] ↔ x = [];
}.

Section scorer.
Context `{Externals}.

(** Modelled from the spec: [primary_find] of [calibre.utils.icu], whose source
    is not part of the module.  Given one query character and a haystack
    suffix it returns the offset of the first primary-strength match, or -1;
    the second component is the length of the match. *)
Fixpoint find_from (n : char) (hay : pystr) (i : Z) : Z :=
  match hay with
  | [] => -1
  | c :: hay' => if primary_eq n c then i else find_from n hay' (i + 1)
  end.

Definition primary_find (n : char) (hay : pystr) : Z * Z :=
  let pos := find_from n hay 0 in
  (pos, if pos =? -1 then -1 else 1).

(** *** The reference scorer's state: [PyScorer]

    The [memory] slot is declared in [__slots__] but only assigned by
    [__call__]; [None] stands for the unassigned slot. *)
Record PyScorer := {
  items : list pystr;
  level1 : pystr;
  level2 : pystr;
  level3 : pystr;
  max_score_per_char : float;
  memory : option (gmap (Z * nat * Z) (float * list Z));
}.

Definition DEFAULT_LEVEL1 : pystr := s "/".
Definition DEFAULT_LEVEL2 : pystr := s "-_ 0123456789".
Definition DEFAULT_LEVEL3 : pystr := s ".".

(** [PyScorer.__init__] with the default levels, as [Matcher.__init__] calls
    the scorer factory. *)
Definition PyScorer_init (its : list pystr) : PyScorer :=
  {| items := its; level1 := DEFAULT_LEVEL1; level2 := DEFAULT_LEVEL2;
     level3 := DEFAULT_LEVEL3; max_score_per_char := 0; memory := None |}.

(** The test of the second branch of [calc_score_for_char]:
    [icu_lower(prev) == prev and icu_upper(current) == current]. *)
Definition case_boundary (prev current : char) : bool :=
  bool_decide (icu_lower [prev] = [prev]) &&
  bool_decide (icu_upper [current] = [current]).

Definition calc_score_for_char (ctx : PyScorer) (prev current : char)
    (distance : Z) : outcome float :=
  let ans := max_score_per_char ctx in
  factor ←
    (if str_in prev (level1 ctx) then Done 0.9%float
     else if str_in prev (level2 ctx) || case_boundary prev current
          then Done 0.8%float
     else if str_in prev (level3 ctx) then Done 0.7%float
     else q ← py_div 1 distance; Done (q * 0.75)%float);
  Done (ans * factor)%float.

(** [score_for_char] as [process_item] computes it for a match at [pos] whose
    predecessor matched at [last_idx]. *)
Definition score_for_char (ctx : PyScorer) (haystack : pystr)
    (pos last_idx : Z) : outcome float :=
  let distance := pos - last_idx in
  if distance <=? 1 then Done (max_score_per_char ctx)
  else
    prev ← py_index haystack (pos - 1);
    current ← py_index haystack pos;
    calc_score_for_char ctx prev current distance.

(** A stack entry: [(hidx, nidx, last_idx, score, positions)]. *)
Definition frame : Type := Z * nat * Z * float * list Z.

(** The [for i in range(nidx, len(needle))] loop of [process_item], run on the
    characters [ns = needle[i:]].  It returns the values of [score] and
    [positions] when the loop ends and the stack with the entries pushed;
    the head of the list is the top of the stack. *)
Fixpoint for_loop (ctx : PyScorer) (haystack : pystr) (nlen : Z)
    (ns : pystr) (i : nat) (hidx last_idx : Z) (score : float)
    (positions : list Z) (stack : list frame)
    : outcome (float * list Z * list frame) :=
  match ns with
  | [] => Done (score, positions, stack)
  | n :: ns' =>
    if len haystack - hidx <? nlen - Z.of_nat i then Done (0%float, positions, stack)
    else
      let pos := (primary_find n (py_slice_from haystack hidx)).1 in
      if pos =? -1 then Done (0%float, positions, stack)
      else
        let pos := pos + hidx in
        sc ← score_for_char ctx haystack pos last_idx;
        let hidx' := pos + 1 in
        let stack' := (hidx', i, last_idx, score, positions) :: stack in
        positions' ← py_setitem positions i pos;
        for_loop ctx haystack nlen ns' (S i) hidx' pos (score + sc)%float
                 positions' stack'
  end.

(** The [while stack:] loop of [process_item].  [memo] is [true] in the
    source; with [memo = false] the table is neither read nor written, which
    is the exhaustive search.  [alias] records that [final_positions] is
    still the very list object of the first stack entry, which the first
    iteration mutates in place. *)
Fixpoint while_loop (memo : bool) (fuel : nat) (ctx : PyScorer)
    (haystack needle : pystr) (stack : list frame)
    (mem : gmap (Z * nat * Z) (float * list Z))
    (final_score : float) (final_positions : list Z) (alias : bool)
    : outcome (float * list Z * gmap (Z * nat * Z) (float * list Z)) :=
  match stack with
  | [] => Done (final_score, final_positions, mem)
  | (hidx, nidx, last_idx, score, positions) :: stack =>
    match fuel with
    | O => NoFuel
    | S fuel =>
      let key := (hidx, nidx, last_idx) in
      '(score, positions', object, stack, mem) ←
        match (if memo then mem !! key else None) with
        | None =>
          '(score, positions', stack) ←
            for_loop ctx haystack (len needle) (drop nidx needle) nidx
                     hidx last_idx score positions stack;
          Done (score, positions', positions', stack,
                if memo then <[key := (score, positions')]> mem else mem)
        | Some (score, positions') =>
          Done (score, positions', positions, stack, mem)
        end;
      if (final_score <? score)%float
      then while_loop memo fuel ctx haystack needle stack mem score positions' false
      else while_loop memo fuel ctx haystack needle stack mem final_score
                      (if alias then object else final_positions) false
    end
  end.

(** Number of iterations that always suffices (see [while_loop_total]). *)
Definition budget (haystack : pystr) : nat := 2 ^ length haystack.

Definition process_item_with (memo : bool) (ctx : PyScorer)
    (haystack needle : pystr) : outcome (float * list Z * PyScorer) :=
  match memory ctx with
  | None => Raised AttributeError
  | Some mem =>
    let positions := replicate (length needle) (-1) in
    '(final_score, final_positions, mem) ←
      while_loop memo (budget haystack) ctx haystack needle
                 [(0, 0%nat, 0, 0%float, positions)] mem 0%float positions true;
    Done (final_score, final_positions,
          {| items := items ctx; level1 := level1 ctx; level2 := level2 ctx;
             level3 := level3 ctx;
             max_score_per_char := max_score_per_char ctx;
             memory := Some mem |})
  end.

(** [process_item] of the source. *)
Definition process_item := process_item_with true.

(** The same search with the memo table switched off. *)
Definition process_item_exhaustive := process_item_with false.

End scorer.

(** ** Generators

    A generator object is modelled by the sequence of its steps: each value
    it yields, with the state of the object that owns it at that moment, and
    how it ends ([Done ()] for exhaustion, or the exception it raises).
    Nothing of it has run when it is created: the steps happen when it is
    iterated. *)
Inductive gen (S A : Type) : Type :=
| GEnd (r : outcome ()) (st : S)
| GYield (a : A) (st : S) (rest : gen S A).
Arguments GEnd {S A} r st.
Arguments GYield {S A} a st rest.

Section pyscorer_call.
Context `{Externals}.

Definition with_memory (self : PyScorer) (m : float)
    (mem : option (gmap (Z * nat * Z) (float * list Z))) : PyScorer :=
  {| items := items self; level1 := level1 self; level2 := level2 self;
     level3 := level3 self; max_score_per_char := m; memory := mem |}.

(** [(1.0 / len(item) + 1.0 / len(needle)) / 2.0] *)
Definition item_max_score (item needle : pystr) : outcome float :=
  a ← py_div 1 (len item);
  b ← py_div 1 (len needle);
  Done ((a + b) / 2)%float.

(** The body of [PyScorer.__call__], a generator function, over the items
    still to visit. *)
Fixpoint PyScorer_iter (self : PyScorer) (its : list pystr) (needle : pystr)
    : gen PyScorer (float * list Z) :=
  match its with
  | [] => GEnd (Done ()) self
  | item :: its' =>
    match item_max_score item needle with
    | Done m =>
      let self := with_memory self m (Some ∅) in
      match process_item self item needle with
      | Done (score, positions, self') =>
        GYield (score, positions) self' (PyScorer_iter self' its' needle)
      | Raised e => GEnd (Raised e) self
      | NoFuel => GEnd NoFuel self
      end
    | Raised e => GEnd (Raised e) self
    | NoFuel => GEnd NoFuel self
    end
  end.

Definition PyScorer_call (self : PyScorer) (needle : pystr)
    : gen PyScorer (float * list Z) :=
  PyScorer_iter self (items self) needle.

End pyscorer_call.

(** ** Scorers, workers and the matcher *)

(** What [Matcher] needs of a scorer: a factory applied to the strings of one
    partition, and a call with the query.  The call runs in a worker thread:
    it either raises there or returns an iterable, which is iterated later by
    the thread that collects the results. *)
Class Scorer (S : Type) := {
  scorer_new : list pystr → S;
  scorer_call : S → pystr → exn + gen S (float * list Z);
}.

#[global] Instance PyScorer_Scorer `{Externals} : Scorer PyScorer := {|
  scorer_new := PyScorer_init;
  scorer_call self query := inr (PyScorer_call self query);
|}.

(** An entry of the result queue: [(True, (i, vals))] or [(False, message)]. *)
Inductive wresult (S : Type) : Type :=
| Success (i : nat) (vals : gen S (float * list Z))
| Failure (x : pystr).
Arguments Success {S} i vals.
Arguments Failure {S} x.

(** [OrderedDict(pairs)]: an association list in insertion order; a key that
    comes again keeps its place and takes the new value. *)
Fixpoint od_set {K V} `{EqDecision K} (k : K) (v : V) (d : list (K * V))
    : list (K * V) :=
  match d with
  | [] => [(k, v)]
  | (k', v') :: d' =>
    if decide (k = k') then (k, v) :: d' else (k', v') :: od_set k v d'
  end.

Definition OrderedDict {K V} `{EqDecision K} (pairs : list (K * V))
    : list (K * V) :=
  foldl (λ d kv, od_set kv.1 kv.2 d) [] pairs.

(** Python's [sorted(l, key=...)] is a stable sort that compares keys with
    [<] only; [lt x y] stands for [key(x) < key(y)]. *)
Fixpoint insert_by {A} (lt : A → A → bool) (x : A) (l : list A) : list A :=
  match l with
  | [] => [x]
  | y :: l' => if lt y x then y :: insert_by lt x l' else x :: y :: l'
  end.

Definition sorted {A} (lt : A → A → bool) (l : list A) : list A :=
  foldr (insert_by lt) [] l.

Fixpoint traverse {A B} (f : A → outcome B) (l : list A) : outcome (list B) :=
  match l with
  | [] => Done []
  | x :: l' => y ← f x; ys ← traverse f l'; Done (y :: ys)
  end.

(** [d[k]] on a dictionary. *)
Definition py_getitem {K V} `{Countable K} (d : gmap K V) (k : K) : outcome V :=
  match d !! k with
  | Some v => Done v
  | None => Raised KeyError
  end.

(** An entry of the list that is sorted: [(-scores[i], item, positions[i])]. *)
Definition entry : Type := float * pystr * list Z.

Definition key_lt (x y : entry) : bool := (x.1.1 <? y.1.1)%float.

(** The end of [Matcher.__call__]: sort by the first component, cut at
    [limit], drop the entries whose first component is falsy and build the
    ordered mapping from the rest. *)
Definition sorted_entries (its : list pystr) (scores : gmap nat float)
    (positions : gmap nat (list Z)) : outcome (list entry) :=
  entries ← traverse (λ '(i, item),
      sc ← py_getitem scores i;
      ps ← py_getitem positions i;
      Done ((- sc)%float, item, ps))
    (imap (λ i item, (i, item)) its);
  Done (sorted key_lt entries).

Definition truncate (limit : option Z) (l : list entry) : list entry :=
  match limit with
  | Some k => py_del_from l k
  | None => l
  end.

Definition to_mapping (l : list entry) : list (pystr * list Z) :=
  OrderedDict (map (λ x : entry, (x.1.2, x.2))
                   (filter (λ x : entry, truthy x.1.1 = true) l)).

Definition rank (its : list pystr) (scores : gmap nat float)
    (positions : gmap nat (list Z)) (limit : option Z)
    : outcome (list (pystr * list Z)) :=
  l ← sorted_entries its scores positions;
  Done (to_mapping (truncate limit l)).

(** The state of a [Matcher] object. *)
Record Matcher (S : Type) := {
  m_items : list pystr;
  task_maps : list (gmap nat nat);
  scorers : list S;
  sort_keys : option (gmap nat pystr);
}.
Arguments m_items {S} _.
Arguments task_maps {S} _.
Arguments scorers {S} _.
Arguments sort_keys {S} _.

(** The module-level pool: the number of worker threads in [workers] (0 before
    the first [Matcher] is built) and the content of the result queue that
    all workers share. *)
Record Pool (S : Type) := {
  workers : nat;
  results : list (wresult S);
}.
Arguments workers {S} _.
Arguments results {S} _.

Section matcher.
Context `{Externals} {Sc : Type} `{Scorer Sc}.

(** The body of [Worker.run] for one request. *)
Definition Worker_run (x : nat * Sc * pystr) : wresult Sc :=
  let '(i, scorer, query) := x in
  match scorer_call scorer query with
  | inr vals => Success i vals
  | inl e => Failure (as_unicode e)
  end.

(** [max(1, cpu_count())] workers are created by the first [Matcher]. *)
Definition start_workers (cpu_count : nat) (pool : Pool Sc) : Pool Sc :=
  if decide (workers pool = 0%nat)
  then {| workers := Nat.max 1 cpu_count; results := results pool |}
  else pool.

(** [Matcher.__init__] *)
Definition Matcher_init (cpu_count : nat) (pool : Pool Sc) (its : list pystr)
    : outcome (Matcher Sc) * Pool Sc :=
  let pool := start_workers cpu_count pool in
  let its := map normalize_nfc (filter (λ x, x ≠ []) its) in
  (tasks ← split its (workers pool);
   Done {| m_items := its;
           task_maps := map task_map_of tasks;
           scorers := map (λ task_items, scorer_new (map snd task_items)) tasks;
           sort_keys := None |},
   pool).

(** [for i, (score, pos) in enumerate(vals): ...]: iterating the generator
    runs the scorer, here, in the collecting thread. *)
Fixpoint consume (task_map : gmap nat nat) (i : nat)
    (vals : gen Sc (float * list Z)) (scores : gmap nat float)
    (positions : gmap nat (list Z))
    : outcome (gmap nat float * gmap nat (list Z)) * Sc :=
  match vals with
  | GEnd r st => (_ ← r; Done (scores, positions), st)
  | GYield (score, pos) st rest =>
    match task_map !! i with
    | None => (Raised KeyError, st)
    | Some item =>
      consume task_map (S i) rest (<[item := score]> scores)
              (<[item := pos]> positions)
    end
  end.

(** The [while num > 0:] loop of [Matcher.__call__].  [queue] is the result
    queue, oldest entry first; an empty queue means [results.get()] never
    returns. *)
Fixpoint collect (num : nat) (queue : list (wresult Sc))
    (maps : list (gmap nat nat)) (scs : list Sc)
    (scores : gmap nat float) (positions : gmap nat (list Z))
    (error : option pystr)
    : outcome (gmap nat float * gmap nat (list Z) * option pystr)
      * list Sc * list (wresult Sc) :=
  match num with
  | O => (Done (scores, positions, error), scs, queue)
  | S num =>
    match queue with
    | [] => (NoFuel, scs, queue)
    | Failure x :: queue =>
      collect num queue maps scs scores positions (Some x)
    | Success task_num vals :: queue =>
      match maps !! task_num with
      | None => (Raised IndexError, scs, queue)
      | Some task_map =>
        match consume task_map 0 vals scores positions with
        | (Done (scores, positions), st) =>
          collect num queue maps (<[task_num := st]> scs)
                  scores positions error
        | (Raised e, st) => (Raised e, <[task_num := st]> scs, queue)
        | (NoFuel, st) => (NoFuel, <[task_num := st]> scs, queue)
        end
      end
    end
  end.

Definition failed_message (error : pystr) : pystr :=
  s "Failed to score items: " ++ error.

(** [Matcher.__call__].  [arrival] is the order in which the workers put the
    results of this call's requests on the result queue. *)
Definition Matcher_call (self : Matcher Sc) (pool : Pool Sc)
    (arrival : list nat) (query : pystr) (limit : option Z)
    : outcome (list (pystr * list Z)) * Matcher Sc * Pool Sc :=
  let query := normalize_nfc query in
  let requests := imap (λ i scorer, (i, scorer, query)) (scorers self) in
  let queue :=
    results pool ++ omap (λ t, Worker_run <$> requests !! t) arrival in
  let keys :=
    match sort_keys self with
    | None =>
      Some (list_to_map (imap (λ i x, (i, primary_sort_key x)) (m_items self)))
    | Some keys => Some keys
    end in
  let num := length (task_maps self) in
  let '(r, scs, queue) :=
    collect num queue (task_maps self) (scorers self) ∅ ∅ None in
  let self' := {| m_items := m_items self; task_maps := task_maps self;
                  scorers := scs; sort_keys := keys |} in
  let pool' := {| workers := workers pool; results := queue |} in
  ('(scores, positions, error) ← r;
   match error with
   | Some x => Raised (Exception (failed_message x))
   | None => rank (m_items self) scores positions limit
   end,
   self', pool').

End matcher.

(** ** An instance of the collaborators on ASCII text

    Used to run the model on concrete inputs: case folding of the letters
    A-Z, primary-strength equality as equality up to case, and the identity
    as normalisation (ASCII text is already in NFC). *)

Definition ascii_lower (c : char) : char :=
  if (65 <=? c)%N && (c <=? 90)%N then (c + 32)%N else c.

Definition ascii_upper (c : char) : char :=
  if (97 <=? c)%N && (c <=? 122)%N then (c - 32)%N else c.

Definition ascii_as_unicode (e : exn) : pystr :=
  match e with
  | ZeroDivisionError => s "float division by zero"
  | IndexError => s "list index out of range"
  | KeyError => s "KeyError"
  | AttributeError => s "memory"
  | Exception msg => msg
  end.

Definition ascii_externals : Externals := {|
  primary_eq a b := bool_decide (ascii_lower a = ascii_lower b);
  icu_lower := map ascii_lower;
  icu_upper := map ascii_upper;
  primary_sort_key := map ascii_lower;
  normalize_nfc x := x;
  as_unicode := ascii_as_unicode;
  normalize_nfc_nil x := conj (λ e, e) (λ e, e);
|}.

(** ** Measures and invariants used by the proofs *)

(** A stack entry whose search starts at [hidx] can cause at most
    [2 ^ (len(haystack) - hidx)] iterations of the [while] loop. *)
Definition weight (haystack : pystr) (f : frame) : nat :=
  2 ^ Z.to_nat (len haystack - f.1.1.1.1).

Definition stack_weight (haystack : pystr) (stack : list frame) : nat :=
  sum_list_with (weight haystack) stack.

Definition frame_ok (haystack needle : pystr) (f : frame) : Prop :=
  0 ≤ f.1.1.1.1 ≤ len haystack ∧ 0 ≤ f.1.1.2 ∧ length f.2 = length needle.

(** ** Placements: the search space of §4.2, stated apart from the loops *)

Section placements.
Context `{Externals}.

(** A placement gives one haystack offset per needle character, in strictly
    increasing order, each on a character that matches at primary strength. *)
Fixpoint valid_placement (haystack needle : pystr) (from : Z) (ps : list Z)
    : bool :=
  match needle, ps with
  | [], [] => true
  | n :: needle', p :: ps' =>
    (from <=? p) && (p <? len haystack)
    && match haystack !! Z.to_nat p with
       | Some c => primary_eq n c
       | None => false
       end
    && valid_placement haystack needle' (p + 1) ps'
  | _, _ => false
  end.

(** Its score: the per-character scores added from left to right, the first
    distance being measured from offset 0 as the loop does. *)
Fixpoint placement_score (ctx : PyScorer) (haystack : pystr) (last_idx : Z)
    (ps : list Z) (score : float) : outcome float :=
  match ps with
  | [] => Done score
  | p :: ps' =>
    sc ← score_for_char ctx haystack p last_idx;
    placement_score ctx haystack p ps' (score + sc)%float
  end.

End placements.

(** ** The per-character factor, as the code computes it and as it is told *)

Section factors.
Context `{Externals}.

(** The factor chosen by [calc_score_for_char], in the order of its tests. *)
Definition boundary_factor (ctx : PyScorer) (prev current : char)
    (distance : Z) : float :=
  if str_in prev (level1 ctx) then 0.9%float
  else if str_in prev (level2 ctx) || case_boundary prev current then 0.8%float
  else if str_in prev (level3 ctx) then 0.7%float
  else (1 / float_of_Z distance * 0.75)%float.

End factors.

Definition ascii_is_lowercase (c : char) : bool :=
  (97 <=? c)%N && (c <=? 122)%N.

Definition ascii_is_uppercase (c : char) : bool :=
  (65 <=? c)%N && (c <=? 90)%N.

(** The factor in the words of the specification, on ASCII text: the 0.8 of
    the second case needs a lowercase letter followed by an uppercase one. *)
Definition claimed_factor (ctx : PyScorer) (prev current : char)
    (distance : Z) : float :=
  if str_in prev (level1 ctx) then 0.9%float
  else if str_in prev (level2 ctx)
          || (ascii_is_lowercase prev && ascii_is_uppercase current)
       then 0.8%float
  else if str_in prev (level3 ctx) then 0.7%float
  else (1 / float_of_Z distance * 0.75)%float.

(** ** Subsequence matches *)

Section subsequence.
Context `{Externals}.

(** [needle] can be placed in [hay]: its characters occur in [hay] in the same
    order, not necessarily next to each other, each compared at primary
    strength. *)
Fixpoint is_subsequence (needle hay : pystr) : bool :=
  match hay with
  | [] => match needle with [] => true | _ :: _ => false end
  | c :: hay' =>
    match needle with
    | [] => true
    | n :: needle' =>
      (primary_eq n c && is_subsequence needle' hay')
      || is_subsequence needle hay'
    end
  end.

(** The part of the needle a stack entry still has to place does not fit in
    the part of the haystack it may use. *)
Definition frame_unplaceable (haystack needle : pystr) (f : frame) : Prop :=
  is_subsequence (drop f.1.1.1.2 needle)
                 (drop (Z.to_nat f.1.1.1.1) haystack) = false.

End subsequence.

(** ** What the reference scorer yields *)

Fixpoint gen_values {St A} (g : gen St A) : list A :=
  match g with
  | GEnd _ _ => []
  | GYield a _ rest => a :: gen_values rest
  end.

Fixpoint gen_end {St A} (g : gen St A) : outcome () :=
  match g with
  | GEnd r _ => r
  | GYield _ _ rest => gen_end rest
  end.

Fixpoint gen_final {St A} (g : gen St A) : St :=
  match g with
  | GEnd _ st => st
  | GYield _ _ rest => gen_final rest
  end.

(** Two scorer states that differ at most in the slots [__call__] overwrites. *)
Definition same_config (a b : PyScorer) : Prop :=
  items a = items b ∧ level1 a = level1 b ∧ level2 a = level2 b
  ∧ level3 a = level3 b.

Section score_item.
Context `{Externals}.

(** The pair [PyScorer.__call__] yields for [item]: the result of
    [process_item] in a scorer with the default levels, a fresh memo table
    and the item's [max_score_per_char]. *)
Definition score_item (item needle : pystr) : outcome (float * list Z) :=
  m ← item_max_score item needle;
  '(score, positions, _) ←
    process_item (with_memory (PyScorer_init []) m (Some ∅)) item needle;
  Done (score, positions).

End score_item.

(** ** Invariants of a matcher built on the reference scorer *)

Section matcher_invariants.
Context `{Externals}.

(** A scorer bound to the strings of the partition [task]. *)
Definition scorer_of (sc : PyScorer) (task : list (nat * pystr)) : Prop :=
  items sc = task.*2 ∧ level1 sc = DEFAULT_LEVEL1
  ∧ level2 sc = DEFAULT_LEVEL2 ∧ level3 sc = DEFAULT_LEVEL3.

(** What [Matcher.__init__] establishes and [Matcher.__call__] keeps, for a
    pool of [W] workers. *)
Definition matcher_ok (W : nat) (m : Matcher PyScorer) : Prop :=
  (1 ≤ W)%nat
  ∧ Forall (λ x, x ≠ []) (m_items m)
  ∧ ∃ tasks, split (m_items m) W = Done tasks
             ∧ task_maps m = task_map_of <$> tasks
             ∧ Forall2 scorer_of (scorers m) tasks.

(** The tables filled by the collecting loop hold, at each index they know,
    the score and positions of the candidate at that index. *)
Definition tables_ok (its : list pystr) (needle : pystr)
    (scores : gmap nat float) (positions : gmap nat (list Z)) : Prop :=
  ∀ g, match scores !! g, positions !! g with
       | None, None => True
       | Some sc, Some ps =>
         ∃ item, its !! g = Some item ∧ score_item item needle = Done (sc, ps)
       | _, _ => False
       end.

(** A queue entry put by a worker for partition [t] of [tasks]. *)
Definition entry_ok (tasks : list (list (nat * pystr))) (needle : pystr)
    (r : wresult PyScorer) : Prop :=
  ∃ t p g, r = Success t g ∧ tasks !! t = Some p
    ∧ gen_end g = Done ()
    ∧ Forall2 (λ v item, score_item item needle = Done v) (gen_values g) p.*2
    ∧ scorer_of (gen_final g) p.

(** The entries of a ranking computed straight from the candidates. *)
Definition reference_entries (its : list pystr) (needle : pystr)
    : outcome (list entry) :=
  l ← traverse (λ item,
        '(sc, ps) ← score_item item needle;
        Done ((- sc)%float, item, ps)) its;
  Done (sorted key_lt l).

Definition reference_call (its : list pystr) (needle : pystr)
    (limit : option Z) : outcome (list (pystr * list Z)) :=
  l ← reference_entries its needle;
  Done (to_mapping (truncate limit l)).

End matcher_invariants.

(** ** A small matcher to run the model on *)

Definition demo_items : list pystr :=
  [s "im/one.gif"; s "im/two.gif"; s "text/one.html"].

Definition empty_pool : Pool PyScorer := {| workers := 0; results := [] |}.

Definition demo_pool : Pool PyScorer := {| workers := 2; results := [] |}.

(** The matcher [Matcher(demo_items, scorer=PyScorer)] on a machine with two
    processors: two partitions, of two candidates and of one. *)
Definition demo_matcher : Matcher PyScorer :=
  let E := ascii_externals in
  {| m_items := demo_items;
     task_maps := [task_map_of [(0%nat, s "im/one.gif"); (1%nat, s "im/two.gif")];
                   task_map_of [(2%nat, s "text/one.html")]];
     scorers := [PyScorer_init [s "im/one.gif"; s "im/two.gif"];
                 PyScorer_init [s "text/one.html"]];
     sort_keys := None |}.

(** ** Order of binary64 numbers *)

(** Position of a number that is not a NaN in the order of [<]: its class
    (the infinities, the negative and positive finite numbers, the zeros),
    then exponent and mantissa, both negated for a negative number. *)
Definition sf_rank (f : spec_float) : Z * Z * Z :=
  match f with
  | S754_nan => (0, 0, 0)
  | S754_zero _ => (0, 0, 0)
  | S754_infinity true => (-2, 0, 0)
  | S754_infinity false => (2, 0, 0)
  | S754_finite true m e => (-1, - e, - Z.pos m)
  | S754_finite false m e => (1, e, Z.pos m)
  end.

Definition rank_lt (a b : Z * Z * Z) : Prop :=
  a.1.1 < b.1.1
  ∨ (a.1.1 = b.1.1 ∧ (a.1.2 < b.1.2 ∨ (a.1.2 = b.1.2 ∧ a.2 < b.2))).

(** [x] is not a NaN. *)
Definition ordered (x : float) : Prop := (x =? x)%float = true.

(** ** Order of first occurrence *)

(** The keys of [OrderedDict(pairs)]: each key once, in the order in which
    the keys first occur. *)
Definition first_occurrences {K} `{EqDecision K} (l : list K) : list K :=
  foldl (λ acc k, if decide (k ∈ acc) then acc else acc ++ [k]) [] l.

(** ** The same collaborators with another sort key *)

Definition with_sort_key (E : Externals) (f : pystr → pystr) : Externals :=
  {| primary_eq := @primary_eq E;
     icu_lower := @icu_lower E;
     icu_upper := @icu_upper E;
     primary_sort_key := f;
     normalize_nfc := @normalize_nfc E;
     as_unicode := @as_unicode E;
     normalize_nfc_nil := @normalize_nfc_nil E |}.

(** The candidate strings of a list of entries, and its entries with a
    non-zero first component. *)
Definition entry_item (e : entry) : pystr := e.1.2.

Definition nonzero (l : list entry) : list entry :=
  filter (λ x : entry, truthy x.1.1 = true) l.

(** ** Collecting from any scorer *)

(** The generator can be iterated to its end by the collecting loop: it stops
    without an exception and yields no more values than the partition map
    has indices. *)
Fixpoint consumable {St A} (task_map : gmap nat nat) (i : nat) (g : gen St A)
    : Prop :=
  match g with
  | GEnd r _ => r = Done ()
  | GYield _ _ rest => is_Some (task_map !! i) ∧ consumable task_map (S i) rest
  end.

(** The value the tables must hold at the global index [g] once the partition
    of [g] has reported, [entries] being the queue entries by partition and
    [delta] the size of a full partition. *)
Definition expected {Sc} (delta : nat) (entries : list (wresult Sc)) (g : nat)
    : option (float * list Z) :=
  match entries !! (g / delta)%nat with
  | Some (Success _ vals) => gen_values vals !! (g mod delta)%nat
  | _ => None
  end.

(** The tables hold exactly what the partitions in [T] have yielded. *)
Definition collected {Sc} (delta : nat) (entries : list (wresult Sc))
    (T : list nat) (scores : gmap nat float) (positions : gmap nat (list Z))
    : Prop :=
  ∀ g,
    scores !! g = (if decide ((g / delta)%nat ∈ T)
                   then fst <$> expected delta entries g else None)
    ∧ positions !! g = (if decide ((g / delta)%nat ∈ T)
                        then snd <$> expected delta entries g else None).

(** The entry of partition [t], holding a generator that can be iterated. *)
Definition entry_good {Sc} (tasks : list (list (nat * pystr)))
    (entries : list (wresult Sc)) (r : wresult Sc) : Prop :=
  ∃ t vals p, r = Success t vals ∧ entries !! t = Some r
    ∧ tasks !! t = Some p ∧ consumable (task_map_of p) 0 vals.

Definition entry_task {Sc} (r : wresult Sc) : option nat :=
  match r with
  | Success t _ => Some t
  | Failure _ => None
  end.

(** ** The placements a stack entry stands for *)

Section frame_placements.
Context `{Externals}.

(** [full] is a placement of the whole needle, of score [v], that keeps the
    offsets the entry has fixed for the first [nidx] characters and places
    the others at or after [hidx]. *)
Definition completes (ctx : PyScorer) (haystack needle : pystr) (f : frame)
    (full : list Z) (v : float) : Prop :=
  ∃ rest,
    full = take f.1.1.1.2 f.2 ++ rest
    ∧ valid_placement haystack (drop f.1.1.1.2 needle) f.1.1.1.1 rest = true
    ∧ placement_score ctx haystack f.1.1.2 rest f.1.2 = Done v.

End frame_placements.

(** The larger of two scores, as [if score > final_score] keeps it. *)
Definition keep_larger (final_score score : float) : float :=
  if (final_score <? score)%float then score else final_score.

(** [a] may stand before [b] in the output of [sorted]: [b] is not smaller
    and, when neither is smaller, [a] came first in the input. *)
Definition may_precede {A : Type} (lt : A → A → bool) (pos : A → nat)
    (a b : A) : Prop :=
  lt b a = false ∧ (lt a b = false → (pos a < pos b)%nat).

(** ** What a result of [process_item] stands for *)

Section result_placements.
Context `{Externals}.

(** [ps] places the whole needle in the haystack and [v] is its score. *)
Definition is_placement (ctx : PyScorer) (haystack needle : pystr)
    (ps : list Z) (v : float) : Prop :=
  valid_placement haystack needle 0 ps = true
  ∧ placement_score ctx haystack 0 ps 0%float = Done v.

(** A score with its list of offsets, as [process_item] returns them and
    keeps them in [ctx.memory]: one offset per needle character, and a score
    that is 0 or the score of the placement the offsets give. *)
Definition result_sound (ctx : PyScorer) (haystack needle : pystr)
    (v : float) (ps : list Z) : Prop :=
  length ps = length needle
  ∧ (v = 0%float ∨ is_placement ctx haystack needle ps v).

(** Every completion of the stack entry is a placement of the needle. *)
Definition frame_sound (ctx : PyScorer) (haystack needle : pystr) (f : frame)
    : Prop :=
  ∀ full v, completes ctx haystack needle f full v →
            is_placement ctx haystack needle full v.

End result_placements.

(** ** The command-line front end: the display loop of [main] *)

(** [l[i:j]] with Python's clamping of both bounds. *)
Definition py_slice {A} (l : list A) (i j : Z) : list A :=
  let clamp k := Z.min (len l) (if 0 <=? k then k else Z.max 0 (len l + k)) in
  drop (Z.to_nat (clamp i)) (take (Z.to_nat (clamp j)) l).

(** [get_char]: the one-character string [string[pos]]. *)
Definition get_char (string : pystr) (pos : Z) : outcome pystr :=
  c ← py_index string pos; Done [c].

(** What [main] writes to the terminal: text as it is, or text written while
    the emphasising stream is active; each with the [end] it is printed
    with. *)
Inductive piece : Type :=
| Plain (text : pystr)
| Emphasised (text : pystr).

Definition piece_text (x : piece) : pystr :=
  match x with Plain t => t | Emphasised t => t end.

Definition emphasised_text (x : piece) : pystr :=
  match x with Plain _ => [] | Emphasised t => t end.

Definition newline : pystr := [10%N].

(** The [while positions:] loop of [main]: the pieces written, and the value
    of [p] when the loop ends or the exception that leaves it. *)
Fixpoint emphasise (path : pystr) (positions : list Z) (p : Z)
    : list piece * outcome Z :=
  match positions with
  | [] => ([], Done p)
  | pos :: positions =>
    if pos =? -1 then emphasise path positions p
    else
      match get_char path pos with
      | Done c =>
        let '(out, r) := emphasise path positions (pos + len c) in
        (Plain (py_slice path p pos) :: Emphasised c :: out, r)
      | Raised e => ([Plain (py_slice path p pos)], Raised e)
      | NoFuel => ([Plain (py_slice path p pos)], NoFuel)
      end
  end.

(** The body of the [for path, positions in ...] loop of [main]. *)
Definition show_entry (path : pystr) (positions : list Z)
    : list piece * outcome () :=
  let '(out, r) := emphasise path positions 0 in
  match r with
  | Done p => (out ++ [Plain (py_slice_from path p ++ newline)], Done ())
  | Raised e => (out, Raised e)
  | NoFuel => (out, NoFuel)
  end.

(** [for path, positions in islice(iteritems(m(query)), 0, 10): ...] *)
Fixpoint show_entries (entries : list (pystr * list Z))
    : list piece * outcome () :=
  match entries with
  | [] => ([], Done ())
  | (path, positions) :: rest =>
    match show_entry path positions with
    | (out, Done _) => let '(out', r) := show_entries rest in (out ++ out', r)
    | (out, r) => (out, r)
    end
  end.

Definition show_results (m : list (pystr * list Z)) : list piece * outcome () :=
  show_entries (take 10 m).

(** ** Results that are already on the queue, and reported failures *)

(** The matcher and the pool left by two calls on [demo_matcher] whose
    scoring error escaped: the empty query, then the query "one", which
    meets the result the first call left behind. *)
Definition demo_after_failures : Matcher PyScorer * Pool PyScorer :=
  let E := ascii_externals in
  let '(_, self1, pool1) := Matcher_call demo_matcher demo_pool [0; 1]%nat [] None in
  let '(_, self2, pool2) := Matcher_call self1 pool1 [0; 1]%nat (s "one") None in
  (self2, pool2).

(** The message [error] holds when the collecting loop has read [queue]. *)
Definition last_failure {Sc} (error : option pystr) (queue : list (wresult Sc))
    : option pystr :=
  foldl (λ err r, match r with Failure x => Some x | Success _ _ => err end)
        error queue.

(** A queue entry the collecting loop can read to its end: a failure, or a
    partition number the matcher has with values that can be iterated. *)
Definition entry_readable {Sc} (maps : list (gmap nat nat)) (r : wresult Sc)
    : Prop :=
  match r with
  | Failure _ => True
  | Success t vals => ∃ tm, maps !! t = Some tm ∧ consumable tm 0 vals
  end.

(** A scorer that returns a list: [lambda query: list(PyScorer(items)(query))]
    run by the worker, so that the scoring and its errors happen in the
    worker's call. *)
Fixpoint list_gen {St A} (l : list A) (st : St) : gen St A :=
  match l with
  | [] => GEnd (Done ()) st
  | x :: l' => GYield x st (list_gen l' st)
  end.

Definition ListScorer_call `{Externals} (self : PyScorer) (query : pystr)
    : exn + gen PyScorer (float * list Z) :=
  let g := PyScorer_call self query in
  match gen_end g with
  | Raised e => inl e
  | Done _ => inr (list_gen (gen_values g) (gen_final g))
  | NoFuel => inr (GEnd NoFuel (gen_final g))
  end.

Definition ListScorer `{Externals} : Scorer PyScorer := {|
  scorer_new := PyScorer_init;
  scorer_call := ListScorer_call;
|}.

(** The matcher [Matcher(demo_items, scorer=PyScorer)] on a machine with one
    processor: one partition of three candidates. *)
Definition demo_matcher_one_worker : Matcher PyScorer :=
  let E := ascii_externals in
  {| m_items := demo_items;
     task_maps := [task_map_of [(0%nat, s "im/one.gif"); (1%nat, s "im/two.gif");
                                (2%nat, s "text/one.html")]];
     scorers := [PyScorer_init demo_items];
     sort_keys := None |}.

(** A stack entry that has more needle characters to place than the haystack
    has characters left. *)
Definition frame_short (haystack : pystr) (f : frame) : Prop :=
  Z.of_nat f.1.1.1.2 < f.1.1.1.1 ∧ (f.1.1.1.2 < length haystack)%nat
  ∧ length f.2 = length haystack.

(** ** What a scorer yields for one item *)

Section fresh_score.
Context `{Externals}.

(** The pair that scoring [item] alone gives, in a scorer with the levels of
    [self]: [max_score_per_char] set for the item and an empty memo table. *)
Definition fresh_score (self : PyScorer) (item needle : pystr)
    : outcome (float * list Z) :=
  m ← item_max_score item needle;
  '(score, positions, _) ←
    process_item (with_memory self m (Some ∅)) item needle;
  Done (score, positions).

End fresh_score.

(** Iterating the generator raises [e], after values that all have a place
    in the partition map. *)
Fixpoint raises_at {St A} (task_map : gmap nat nat) (i : nat) (g : gen St A)
    (e : exn) : Prop :=
  match g with
  | GEnd r _ => r = Raised e
  | GYield _ _ rest => is_Some (task_map !! i) ∧ raises_at task_map (S i) rest e
  end.

(** ** The value a matcher ranks a candidate with *)

Section partition_values.
Context `{Externals} {Sc : Type} `{Scorer Sc}.

(** The pair the scorers yield for the candidate at the global index [g],
    partitions being [delta] long: value number [g mod delta] of the scorer
    of partition [g / delta]. *)
Definition partition_value (scs : list Sc) (query : pystr) (delta g : nat)
    : option (float * list Z) :=
  sc ← scs !! (g / delta)%nat;
  match scorer_call sc query with
  | inr vals => gen_values vals !! (g mod delta)%nat
  | inl _ => None
  end.

End partition_values.

(** ** Proofs: the partitioner *)

Lemma ceil_div_pos n w : (1 ≤ n)%nat → (1 ≤ w)%nat → (1 ≤ ceil_div n w)%nat.
Proof.
  intros Hn Hw. unfold ceil_div.
  apply (Nat.div_le_lower_bound _ _ 1); lia.
Qed.

Lemma ceil_div_le n w : (1 ≤ w)%nat → (n ≤ w * ceil_div n w)%nat.
Proof.
  intros Hw. unfold ceil_div.
  pose proof (Nat.div_mod (n + (w - 1)) w ltac:(lia)) as Hdm.
  pose proof (Nat.mod_upper_bound (n + (w - 1)) w ltac:(lia)) as Hub.
  lia.
Qed.

Lemma ceil_div_step n d :
  (1 ≤ d)%nat → (d < n)%nat → ceil_div n d = S (ceil_div (n - d) d).
Proof.
  intros Hd Hn. unfold ceil_div.
  replace (n + (d - 1))%nat with ((n - d + (d - 1)) + 1 * d)%nat by lia.
  rewrite Nat.div_add by lia. lia.
Qed.

Lemma ceil_div_small n d : (1 ≤ n)%nat → (n ≤ d)%nat → ceil_div n d = 1%nat.
Proof.
  intros Hn Hd. unfold ceil_div.
  replace (n + (d - 1))%nat with ((n - 1) + 1 * d)%nat by lia.
  rewrite Nat.div_add by lia. rewrite Nat.div_small by lia. lia.
Qed.

Lemma ceil_div_0 d : (1 ≤ d)%nat → ceil_div 0 d = 0%nat.
Proof. intros Hd. unfold ceil_div. apply Nat.div_small. lia. Qed.

Lemma imap_shift_app {A} (c : nat) (l1 l2 : list A) :
  imap (λ i x, ((c + i)%nat, x)) (l1 ++ l2) =
  imap (λ i x, ((c + i)%nat, x)) l1 ++
  imap (λ i x, ((c + length l1 + i)%nat, x)) l2.
Proof.
  rewrite imap_app. f_equal. apply imap_ext. intros i x _. simpl.
  f_equal. lia.
Qed.

Lemma split_loop_cons {A} fuel delta (x : A) tasks count ans :
  split_loop (S fuel) delta (x :: tasks) count ans =
  split_loop fuel delta (drop delta (x :: tasks))
    (count + length (imap (λ i task, ((count + i)%nat, task))
                          (take delta (x :: tasks))))
    (ans ++ [imap (λ i task, ((count + i)%nat, task)) (take delta (x :: tasks))]).
Proof. reflexivity. Qed.

(** One run of the loop appends, to [ans], the chunks of [tasks] taken
    [delta] at a time, each element paired with its index counted from
    [count]. *)
Lemma split_loop_spec {A} (delta : nat) :
  (1 ≤ delta)%nat →
  ∀ (fuel : nat) (tasks : list A) (count : nat) (ans : list (list (nat * A))),
    (length tasks ≤ fuel)%nat →
    ∃ parts,
      split_loop fuel delta tasks count ans = Done (ans ++ parts)
      ∧ concat parts = imap (λ i x, ((count + i)%nat, x)) tasks
      ∧ Forall (λ p, (1 ≤ length p ≤ delta)%nat) parts
      ∧ length parts = ceil_div (length tasks) delta
      ∧ (∀ t p, parts !! t = Some p →
           p = imap (λ j x, ((count + t * delta + j)%nat, x))
                    (take delta (drop (t * delta) tasks))
           ∧ ((S t < length parts)%nat → length p = delta)).
Proof.
  intros Hd. induction fuel as [|fuel IH]; intros tasks count ans Hlen.
  - destruct tasks; [|simpl in Hlen; lia].
    exists []. simpl. rewrite app_nil_r, ceil_div_0 by done.
    repeat split; auto; intros; done.
  - destruct tasks as [|x tasks].
    { exists []. simpl. rewrite app_nil_r, ceil_div_0 by done.
      repeat split; auto; intros; done. }
    rewrite split_loop_cons.
    assert (Hl : (1 ≤ length (x :: tasks))%nat) by (simpl; lia).
    remember (x :: tasks) as l eqn:El. clear El.
    rewrite length_imap, length_take.
    destruct (IH (drop delta l) (count + delta `min` length l)%nat
                 (ans ++ [imap (λ i task, ((count + i)%nat, task)) (take delta l)]))
      as (parts & Hrun & Hcat & Hsz & Hnum & Hchunk).
    { rewrite length_drop. lia. }
    rewrite length_drop in Hnum.
    exists (imap (λ i task, ((count + i)%nat, task)) (take delta l) :: parts).
    split; [|split; [|split; [|split]]].
    + rewrite Hrun, <- app_assoc. done.
    + simpl. rewrite Hcat.
      pose proof (imap_shift_app count (take delta l) (drop delta l)) as E.
      rewrite take_drop, length_take in E. by rewrite E.
    + constructor; [|done]. rewrite length_imap, length_take. lia.
    + simpl. rewrite Hnum.
      destruct (decide (length l ≤ delta)%nat) as [Hle|Hgt].
      * replace (length l - delta)%nat with 0%nat by lia.
        rewrite ceil_div_0, ceil_div_small by lia. done.
      * rewrite (ceil_div_step (length l) delta) by lia. done.
    + intros t p Hp. destruct t as [|t]; simpl in Hp.
      * injection Hp as <-. split.
        { rewrite drop_0. apply imap_ext. intros j y _. simpl. f_equal. lia. }
        rewrite length_imap, length_take. simpl. intros Hlt.
        destruct (decide (length l ≤ delta)%nat) as [Hle|Hgt]; [|lia].
        exfalso.
        replace (length l - delta)%nat with 0%nat in Hnum by lia.
        rewrite ceil_div_0 in Hnum by lia. lia.
      * destruct (Hchunk t p Hp) as [-> Hfull]. split.
        { assert (delta < length l)%nat as Hgt.
          { destruct (decide (delta < length l)%nat) as [|Hle]; [done|].
            exfalso. apply lookup_lt_Some in Hp.
            replace (length l - delta)%nat with 0%nat in Hnum by lia.
            rewrite ceil_div_0 in Hnum by lia. lia. }
          rewrite drop_drop.
          replace (delta + t * delta)%nat with (S t * delta)%nat by lia.
          apply imap_ext. intros j y _. simpl. f_equal. lia. }
        simpl. intros Hlt. apply Hfull. lia.
Qed.

Lemma ceil_div_chunks n w :
  (1 ≤ w)%nat → (1 ≤ n)%nat → (ceil_div n (ceil_div n w) ≤ w)%nat.
Proof.
  intros Hw Hn.
  pose proof (ceil_div_pos n w Hn Hw) as Hd.
  pose proof (ceil_div_le n w Hw) as Hle.
  unfold ceil_div at 1.
  apply Nat.lt_succ_r, Nat.Div0.div_lt_upper_bound.
  nia.
Qed.

Lemma task_map_of_lookup_gen {A} (task : list (nat * A)) (c j : nat) :
  (list_to_map (imap (λ j '(i, _), ((c + j)%nat, i)) task) : gmap nat nat)
    !! (c + j)%nat = fst <$> task !! j.
Proof.
  revert c j. induction task as [|[i x] task IH]; intros c j.
  - simpl. by rewrite lookup_empty.
  - rewrite imap_cons. simpl. destruct j as [|j].
    + rewrite Nat.add_0_r. by rewrite lookup_insert_eq.
    + rewrite lookup_insert_ne by lia. simpl.
      replace (c + S j)%nat with (S c + j)%nat by lia.
      rewrite <- (IH (S c) j). f_equal. f_equal.
      apply imap_ext. intros k [i' x'] _. simpl. f_equal. lia.
Qed.

Lemma task_map_of_lookup {A} (task : list (nat * A)) (j : nat) :
  task_map_of task !! j = fst <$> task !! j.
Proof.
  unfold task_map_of.
  rewrite <- (task_map_of_lookup_gen task 0 j). done.
Qed.

Lemma imap_pair_fst {A} (c : nat) (l : list A) :
  (imap (λ j x, ((c + j)%nat, x)) l).*1 = seq c (length l).
Proof.
  revert c. induction l as [|x l IH]; intros c; [done|].
  rewrite imap_cons. simpl. rewrite Nat.add_0_r. f_equal.
  rewrite <- IH. f_equal. apply imap_ext. intros; simpl. f_equal. lia.
Qed.

Lemma imap_pair_snd {A} (f : nat → nat) (l : list A) :
  (imap (λ j x, (f j, x)) l).*2 = l.
Proof.
  revert f. induction l as [|x l IH]; intros f; [done|].
  rewrite imap_cons. simpl. f_equal. apply (IH (f ∘ S)).
Qed.

(** C7 (amended): for [W >= 1] workers, [split] cuts the candidates into
    consecutive batches of [delta = ceil(N/W)] elements (the last one may be
    shorter), none of them empty; there are [ceil(N/delta)] batches, which is
    at most [W] and can be fewer; and the map built from a batch sends the
    local index [j] of batch [t] to the global index [t * delta + j] of the
    same element in the candidate list. *)
Theorem split_partitions {A} (tasks : list A) (W : nat) :
  (1 ≤ W)%nat →
  ∃ parts, split tasks W = Done parts
    ∧ (length parts ≤ W)%nat
    ∧ length parts = ceil_div (length tasks) (ceil_div (length tasks) W)
    ∧ concat parts = imap (λ i x, (i, x)) tasks
    ∧ ∀ t p, parts !! t = Some p →
        (1 ≤ length p ≤ ceil_div (length tasks) W)%nat
        ∧ ((S t < length parts)%nat → length p = ceil_div (length tasks) W)
        ∧ p.*2 = take (ceil_div (length tasks) W)
                      (drop (t * ceil_div (length tasks) W) tasks)
        ∧ p.*1 = seq (t * ceil_div (length tasks) W) (length p)
        ∧ ∀ j g, task_map_of p !! j = Some g ↔
                 (j < length p)%nat
                 ∧ g = (t * ceil_div (length tasks) W + j)%nat
                 ∧ tasks !! g = p.*2 !! j.
Proof.
  intros HW. unfold split. destruct (decide (W = 0%nat)) as [|_]; [lia|].
  destruct tasks as [|x0 tasks0].
  { exists []. simpl. rewrite (ceil_div_0 W) by lia. repeat split; try done; lia. }
  remember (x0 :: tasks0) as tasks eqn:Et.
  assert (1 ≤ length tasks)%nat as HN by (subst; simpl; lia). clear Et.
  set (delta := ceil_div (length tasks) W).
  assert (1 ≤ delta)%nat as Hd by (apply ceil_div_pos; done).
  destruct (split_loop_spec delta Hd (length tasks) tasks 0%nat [] (le_n _))
    as (parts & Hrun & Hcat & Hsz & Hnum & Hchunk).
  exists parts. split; [done|]. split; [|split; [done|split]].
  - rewrite Hnum. apply ceil_div_chunks; done.
  - rewrite Hcat. apply imap_ext. done.
  - intros t p Hp. destruct (Hchunk t p Hp) as [Ep Hfull].
    assert (Hlen : (1 ≤ length p ≤ delta)%nat).
    { rewrite Forall_forall in Hsz. apply Hsz. eapply list_elem_of_lookup_2. done. }
    assert (E2 : p.*2 = take delta (drop (t * delta) tasks)).
    { rewrite Ep. apply imap_pair_snd. }
    assert (E1 : p.*1 = seq (t * delta) (length p)).
    { rewrite Ep at 1. simpl.
      rewrite (imap_pair_fst (t * delta)).
      f_equal. rewrite Ep, length_imap. done. }
    split; [done|]. split; [done|]. split; [done|]. split; [done|].
    intros j g. rewrite task_map_of_lookup. split.
    + intros Hg. destruct (p !! j) as [[g' x]|] eqn:Hj; [|done].
      simpl in Hg. injection Hg as ->.
      pose proof (lookup_lt_Some _ _ _ Hj) as Hlt.
      assert (p.*1 !! j = Some g) as H1 by (rewrite list_lookup_fmap, Hj; done).
      rewrite E1 in H1. apply lookup_seq in H1 as [-> _].
      split; [done|]. split; [done|].
      rewrite E2, lookup_take_lt, lookup_drop by lia. done.
    + intros (Hlt & -> & _).
      assert (p.*1 !! j = Some (t * delta + j)%nat) as H1.
      { rewrite E1. apply lookup_seq. done. }
      rewrite list_lookup_fmap in H1. done.
Qed.

(** C7, the claim as stated fails: five candidates and four workers give
    three partitions, not four. *)
Lemma split_count_counterexample :
  (4 ≤ length (s "abcde"))%nat
  ∧ ∃ parts, split (s "abcde") 4 = Done parts ∧ length parts ≠ 4%nat.
Proof.
  split; [simpl; lia|]. eexists. split; [reflexivity|]. simpl. lia.
Qed.

Lemma split_partitions_witness :
  ∃ parts, split (s "abcde") 4 = Done parts ∧ (length parts ≤ 4)%nat.
Proof.
  destruct (split_partitions (s "abcde") 4 ltac:(lia)) as (parts & H1 & H2 & _).
  exists parts. split; assumption.
Defined.
(** ** Proofs: the scoring search always returns *)

Section scorer_total.
Context `{Externals}.

Lemma find_from_range n hay i :
  find_from n hay i = -1 ∨ i ≤ find_from n hay i < i + len hay.
Proof.
  revert i. induction hay as [|c hay IH]; intros i; simpl; [by left|].
  unfold len in *. destruct (primary_eq n c).
  - right. simpl. lia.
  - destruct (IH (i + 1)) as [->|Hr]; [by left|]. right. simpl. lia.
Qed.

Lemma len_slice_from (haystack : pystr) hidx :
  0 ≤ hidx ≤ len haystack →
  py_slice_from haystack hidx = drop (Z.to_nat hidx) haystack
  ∧ len (py_slice_from haystack hidx) = len haystack - hidx.
Proof.
  intros Hh. unfold py_slice_from.
  destruct (Z.leb_spec 0 hidx); [|lia]. split; [done|].
  unfold len. rewrite length_drop. unfold len in Hh. lia.
Qed.

Lemma py_index_Done {A} (l : list A) i :
  0 ≤ i < len l → ∃ x, py_index l i = Done x ∧ l !! Z.to_nat i = Some x.
Proof.
  intros Hi. unfold py_index.
  assert (E0 : (0 <=? i) = true) by (apply Z.leb_le; lia).
  assert (E1 : (i <? len l) = true) by (apply Z.ltb_lt; lia).
  rewrite E0. cbv zeta. rewrite E0, E1. simpl.
  destruct (l !! Z.to_nat i) as [x|] eqn:E; [by exists x|].
  apply lookup_ge_None in E. unfold len in *. lia.
Qed.

Lemma calc_score_for_char_Done ctx prev current distance :
  distance ≠ 0 → ∃ sc, calc_score_for_char ctx prev current distance = Done sc.
Proof.
  intros Hd. unfold calc_score_for_char, py_div.
  destruct (Z.eqb_spec distance 0); [done|].
  destruct (str_in prev (level1 ctx)); [simpl; eauto|].
  destruct (str_in prev (level2 ctx) || case_boundary prev current); [simpl; eauto|].
  destruct (str_in prev (level3 ctx)); simpl; eauto.
Qed.

Lemma score_for_char_Done ctx haystack pos last_idx :
  0 ≤ last_idx → 0 ≤ pos < len haystack →
  ∃ sc, score_for_char ctx haystack pos last_idx = Done sc.
Proof.
  intros Hl Hp. unfold score_for_char.
  destruct (Z.leb_spec (pos - last_idx) 1); [eauto|].
  destruct (py_index_Done haystack (pos - 1)) as (prev & -> & _); [lia|].
  destruct (py_index_Done haystack pos) as (cur & -> & _); [lia|].
  simpl. apply calc_score_for_char_Done. lia.
Qed.

Lemma stack_weight_app haystack l1 l2 :
  stack_weight haystack (l1 ++ l2)
  = (stack_weight haystack l1 + stack_weight haystack l2)%nat.
Proof. apply sum_list_with_app. Qed.

Lemma pow2_pos k : (1 ≤ 2 ^ k)%nat.
Proof. induction k; simpl; lia. Qed.

(** The [for] loop ends; the entries it pushes start strictly further in the
    haystack, and together they weigh less than the entry being run. *)
Lemma for_loop_total ctx haystack needle :
  ∀ ns i hidx last_idx score positions stack,
    ns = drop i needle →
    0 ≤ hidx ≤ len haystack → 0 ≤ last_idx →
    length positions = length needle →
    ∃ score' positions' new,
      for_loop ctx haystack (len needle) ns i hidx last_idx score positions stack
        = Done (score', positions', new ++ stack)
      ∧ length positions' = length needle
      ∧ Forall (frame_ok haystack needle) new
      ∧ (stack_weight haystack new + 1 ≤ 2 ^ Z.to_nat (len haystack - hidx))%nat.
Proof.
  induction ns as [|n ns IH]; intros i hidx last_idx score positions stack
    Hns Hh Hl Hp.
  - exists score, positions, []. simpl. split; [done|]. split; [done|].
    split; [constructor|]. pose proof (pow2_pos (Z.to_nat (len haystack - hidx))).
    unfold stack_weight. simpl. lia.
  - assert (Hi : (i < length needle)%nat).
    { destruct (decide (i < length needle)%nat) as [|Hge]; [done|].
      rewrite drop_ge in Hns by lia. done. }
    assert (Hns' : ns = drop (S i) needle).
    { replace (S i) with (i + 1)%nat by lia. rewrite <- drop_drop, <- Hns. done. }
    simpl.
    pose proof (pow2_pos (Z.to_nat (len haystack - hidx))) as Hpow.
    destruct (Z.ltb_spec (len haystack - hidx) (len needle - Z.of_nat i)).
    { exists 0%float, positions, []. simpl. repeat split; [done|constructor|].
      unfold stack_weight. simpl. lia. }
    destruct (len_slice_from haystack hidx Hh) as [Esl Elen].
    destruct (find_from_range n (py_slice_from haystack hidx) 0) as [Hnf|Hr].
    { rewrite Hnf. simpl.
      exists 0%float, positions, []. simpl. repeat split; [done|constructor|].
      unfold stack_weight. simpl. lia. }
    set (p := find_from n (py_slice_from haystack hidx) 0) in *.
    rewrite Elen in Hr.
    destruct (Z.eqb_spec p (-1)); [lia|].
    destruct (score_for_char_Done ctx haystack (p + hidx) last_idx)
      as [sc ->]; [lia|lia|].
    simpl. unfold py_setitem.
    destruct (decide (i < length positions)%nat) as [_|Hge]; [|lia]. simpl.
    destruct (IH (S i) (p + hidx + 1) (p + hidx) (score + sc)%float
                 (<[i:=p + hidx]> positions)
                 ((p + hidx + 1, i, last_idx, score, positions) :: stack))
      as (score' & positions' & new & Hrun & Hlen & Hok & Hw);
      [done|lia|lia|by rewrite length_insert|].
    exists score', positions', (new ++ [(p + hidx + 1, i, last_idx, score, positions)]).
    split; [by rewrite Hrun, <- app_assoc|]. split; [done|]. split.
    + apply Forall_app. split; [done|]. constructor; [|constructor].
      unfold frame_ok. simpl. repeat split; lia.
    + rewrite stack_weight_app. unfold stack_weight at 2. simpl.
      unfold weight. simpl.
      replace (Z.to_nat (len haystack - hidx))
        with (S (Z.to_nat (len haystack - (p + hidx + 1))) + Z.to_nat p)%nat by lia.
      rewrite Nat.pow_add_r. simpl.
      pose proof (pow2_pos (Z.to_nat p)).
      set (a := (2 ^ Z.to_nat (len haystack - (p + hidx + 1)))%nat) in *.
      nia.
Qed.

(** The [while] loop needs no more iterations than the weight of its stack. *)
Lemma while_loop_total memo ctx haystack needle :
  ∀ fuel stack mem final_score final_positions alias,
    Forall (frame_ok haystack needle) stack →
    (stack_weight haystack stack ≤ fuel)%nat →
    ∃ r, while_loop memo fuel ctx haystack needle stack mem
                    final_score final_positions alias = Done r.
Proof.
  induction fuel as [|fuel IH];
    intros stack mem final_score final_positions alias Hok Hw.
  - destruct stack as [|f stack]; [simpl; eauto|].
    exfalso. unfold stack_weight in Hw. simpl in Hw.
    pose proof (pow2_pos (Z.to_nat (len haystack - f.1.1.1.1))).
    unfold weight in Hw. lia.
  - destruct stack as [|[[[[hidx nidx] last_idx] score] positions] stack];
      [simpl; eauto|].
    apply Forall_cons in Hok as [(Hh & Hl & Hp) Hok]. simpl in Hh, Hl, Hp.
    assert (Hw' : (weight haystack (hidx, nidx, last_idx, score, positions)
                   + stack_weight haystack stack ≤ S fuel)%nat) by done.
    unfold weight in Hw'. simpl in Hw'.
    pose proof (pow2_pos (Z.to_nat (len haystack - hidx))) as Hpow.
    simpl.
    destruct (if memo then mem !! (hidx, nidx, last_idx) else None)
      as [[score' positions']|] eqn:Hmem.
    + simpl. destruct (final_score <? score')%float; apply IH; auto; lia.
    + destruct (for_loop_total ctx haystack needle (drop nidx needle) nidx hidx
                  last_idx score positions stack eq_refl Hh Hl Hp)
        as (score' & positions' & new & -> & Hlen & Hnew & Hwn).
      simpl.
      assert (Forall (frame_ok haystack needle) (new ++ stack))
        by (apply Forall_app; done).
      assert (stack_weight haystack (new ++ stack) ≤ fuel)%nat
        by (rewrite stack_weight_app; lia).
      destruct (final_score <? score')%float; apply IH; auto.
Qed.

(** [process_item], with or without the memo table, returns a result on every
    haystack and needle once [ctx.memory] has been assigned. *)
Lemma process_item_with_total memo ctx haystack needle mem :
  memory ctx = Some mem →
  ∃ score positions ctx',
    process_item_with memo ctx haystack needle = Done (score, positions, ctx').
Proof.
  intros Hmem. unfold process_item_with. rewrite Hmem.
  destruct (while_loop_total memo ctx haystack needle (budget haystack)
              [(0, 0%nat, 0, 0%float, replicate (length needle) (-1))] mem
              0%float (replicate (length needle) (-1)) true)
    as [[[sc ps] mem'] ->].
  - constructor; [|constructor]. unfold frame_ok. simpl.
    rewrite length_replicate. unfold len. lia.
  - unfold stack_weight, weight, budget. simpl.
    replace (Z.to_nat (len haystack - 0)) with (length haystack)
      by (unfold len; lia). lia.
  - simpl. eauto.
Qed.

End scorer_total.
(** ** The memo table of [process_item] is keyed too coarsely *)

(** C1 (the code departs from the claim): on haystack "aabxc/c" and needle
    "abc" the search with the memo table returns the placement [1; 2; 4],
    while the same search without the table returns [1; 2; 6], a valid
    placement with a strictly higher score.  The entry stored under the key
    (5, 2, 2) carries the score accumulated along the first path that reached
    it and is reused for the second, better, path. *)
Theorem memo_misses_best_placement :
  let E := ascii_externals in
  let haystack := s "aabxc/c" in
  let needle := s "abc" in
  ∃ m sc_memo sc_full ctx1 ctx2,
    item_max_score haystack needle = Done m
    ∧ process_item (with_memory (PyScorer_init [haystack]) m (Some ∅))
                   haystack needle = Done (sc_memo, [1; 2; 4], ctx1)
    ∧ process_item_exhaustive (with_memory (PyScorer_init [haystack]) m (Some ∅))
                   haystack needle = Done (sc_full, [1; 2; 6], ctx2)
    ∧ valid_placement haystack needle 0 [1; 2; 6] = true
    ∧ placement_score (with_memory (PyScorer_init [haystack]) m (Some ∅))
                      haystack 0 [1; 2; 6] 0 = Done sc_full
    ∧ (sc_memo <? sc_full)%float = true.
Proof.
  intros E haystack needle.
  eexists _, _, _, _, _.
  split; [vm_compute; reflexivity|].
  split; [vm_compute; reflexivity|].
  split; [vm_compute; reflexivity|].
  split; [vm_compute; reflexivity|].
  split; vm_compute; reflexivity.
Qed.
(** ** Proofs: the score of one matched character *)

Section char_score.
Context `{Externals}.

Lemma item_max_score_Done item needle m :
  item_max_score item needle = Done m →
  item ≠ [] ∧ needle ≠ []
  ∧ m = ((1 / float_of_Z (len item) + 1 / float_of_Z (len needle)) / 2)%float.
Proof.
  unfold item_max_score, py_div.
  destruct (Z.eqb_spec (len item) 0) as [|Hi]; [done|].
  destruct (Z.eqb_spec (len needle) 0) as [|Hn]; [done|].
  simpl. intros [= <-].
  split; [intros ->; done|]. split; [intros ->; done|]. done.
Qed.

Lemma calc_score_for_char_factor ctx prev current distance :
  distance ≠ 0 →
  calc_score_for_char ctx prev current distance
  = Done (max_score_per_char ctx * boundary_factor ctx prev current distance)%float.
Proof.
  intros Hd. unfold calc_score_for_char, boundary_factor, py_div.
  destruct (Z.eqb_spec distance 0); [done|].
  destruct (str_in prev (level1 ctx)); [done|].
  destruct (str_in prev (level2 ctx) || case_boundary prev current); [done|].
  destruct (str_in prev (level3 ctx)); done.
Qed.


End char_score.

(** C5 (the code departs from the claim): the second test of
    [calc_score_for_char], [icu_lower(prev) == prev and
    icu_upper(current) == current], stands for a lowercase letter followed by
    an uppercase one, but every character without case is unchanged by
    lowercasing and passes its first half.  The test comes before the
    level-3 test, so a level-3 separator followed by a character that is
    unchanged by uppercasing gets the factor 0.8 and not 0.7.  In "a.B" the
    query "b" matches the "B" at offset 2; the character before it is the
    level-3 separator ".", which is no lowercase letter, and the score is 0.8
    times [max_score_per_char]; the same holds in "a.1" for the query "1".
    The factor 0.7 is given only when the matched character is a lowercase
    letter, as in "a.b". *)
Theorem case_test_shadows_level3 :
  (∀ (E : Externals) (ctx : PyScorer) (prev current : char) (distance : Z),
     str_in prev (level1 ctx) = false → str_in prev (level3 ctx) = true →
     icu_lower [prev] = [prev] → icu_upper [current] = [current] →
     calc_score_for_char ctx prev current distance
     = Done (max_score_per_char ctx * 0.8)%float)
  ∧ (let E := ascii_externals in
     let item := s "a.B" in
     let needle := s "b" in
     ∃ m sc ctx',
       item_max_score item needle = Done m
       ∧ (primary_find (ch "b") item).1 = 2
       ∧ score_for_char (with_memory (PyScorer_init [item]) m (Some ∅)) item 2 0
         = Done sc
       ∧ process_item (with_memory (PyScorer_init [item]) m (Some ∅)) item
                      needle
         = Done (sc, [2], ctx')
       ∧ ascii_is_lowercase (ch ".") = false
       ∧ claimed_factor (PyScorer_init [item]) (ch ".") (ch "B") 2 = 0.7%float
       ∧ sc = (m * 0.8)%float
       ∧ sc ≠ (m * claimed_factor (PyScorer_init [item]) (ch ".") (ch "B") 2)%float
       ∧ score_for_char (with_memory (PyScorer_init [s "a.1"]) m (Some ∅))
                        (s "a.1") 2 0
         = Done (m * 0.8)%float
       ∧ score_for_char (with_memory (PyScorer_init [s "a.b"]) m (Some ∅))
                        (s "a.b") 2 0
         = Done (m * 0.7)%float).
Proof.
  split.
  - intros E ctx prev current distance H1 H3 Hlow Hup.
    unfold calc_score_for_char, case_boundary. rewrite H1.
    rewrite (bool_decide_eq_true_2 _ Hlow), (bool_decide_eq_true_2 _ Hup).
    rewrite orb_true_r. done.
  - intros E item needle. eexists _, _, _.
    split; [vm_compute; reflexivity|].
    split; [vm_compute; reflexivity|].
    split; [vm_compute; reflexivity|].
    split; [vm_compute; reflexivity|].
    split; [vm_compute; reflexivity|].
    split; [vm_compute; reflexivity|].
    split; [vm_compute; reflexivity|].
    split.
    { intros Heq.
      apply (f_equal (λ x, (x <? 0.5)%float)) in Heq.
      vm_compute in Heq. discriminate. }
    split; vm_compute; reflexivity.
Qed.

(** ** Proofs: a needle that cannot be placed scores 0 *)

Section unplaceable.
Context `{Externals}.

Lemma is_subsequence_nil hay : is_subsequence [] hay = true.
Proof. by destruct hay. Qed.

Lemma is_subsequence_tail needle c hay :
  is_subsequence needle hay = true → is_subsequence needle (c :: hay) = true.
Proof.
  intros Hs. destruct needle as [|n needle]; [done|].
  simpl. rewrite Hs. apply orb_true_r.
Qed.

Lemma is_subsequence_drop needle hay k :
  is_subsequence needle (drop k hay) = true → is_subsequence needle hay = true.
Proof.
  revert hay. induction k as [|k IH]; intros hay; [by rewrite drop_0|].
  destruct hay as [|c hay]; [done|]. simpl. intros Hs.
  apply is_subsequence_tail, IH, Hs.
Qed.

Lemma is_subsequence_match n needle hay p c :
  hay !! p = Some c → primary_eq n c = true →
  is_subsequence needle (drop (S p) hay) = true →
  is_subsequence (n :: needle) hay = true.
Proof.
  revert hay. induction p as [|p IH]; intros hay Hc Hn Hs.
  - destruct hay as [|c' hay]; [done|]. simpl in Hc. injection Hc as ->.
    simpl in *. rewrite drop_0 in Hs. by rewrite Hn, Hs.
  - destruct hay as [|c' hay]; [done|]. simpl in Hc.
    apply is_subsequence_tail. eapply IH; eauto.
Qed.

Lemma find_from_match n hay i :
  find_from n hay i ≠ -1 → 0 ≤ i →
  ∃ c, hay !! Z.to_nat (find_from n hay i - i) = Some c ∧ primary_eq n c = true.
Proof.
  revert i. induction hay as [|c hay IH]; intros i Hf Hi; simpl in *; [done|].
  destruct (primary_eq n c) eqn:Hn.
  - exists c. rewrite Z.sub_diag. done.
  - destruct (IH (i + 1) Hf ltac:(lia)) as (c' & Hc' & Hn').
    exists c'. split; [|done].
    destruct (find_from_range n hay (i + 1)) as [|Hr]; [done|].
    replace (Z.to_nat (find_from n hay (i + 1) - i))
      with (S (Z.to_nat (find_from n hay (i + 1) - (i + 1)))) by lia.
    done.
Qed.

(** When the rest of the needle does not fit, the [for] loop leaves by one of
    its two [break]s, with score 0, and what it pushed does not fit either. *)
Lemma for_loop_unplaceable ctx haystack needle :
  ∀ ns i hidx last_idx score positions stack score' positions' stack',
    ns = drop i needle → 0 ≤ hidx ≤ len haystack →
    is_subsequence ns (drop (Z.to_nat hidx) haystack) = false →
    for_loop ctx haystack (len needle) ns i hidx last_idx score positions stack
      = Done (score', positions', stack') →
    score' = 0%float
    ∧ ∃ new, stack' = new ++ stack
             ∧ Forall (frame_unplaceable haystack needle) new.
Proof.
  induction ns as [|n ns IH];
    intros i hidx last_idx score positions stack score' positions' stack'
           Hns Hh Hsub Hrun.
  - by rewrite is_subsequence_nil in Hsub.
  - assert (Hns' : ns = drop (S i) needle).
    { replace (S i) with (i + 1)%nat by lia. rewrite <- drop_drop, <- Hns. done. }
    simpl in Hrun.
    destruct (Z.ltb_spec (len haystack - hidx) (len needle - Z.of_nat i)).
    { injection Hrun as <- <- <-. split; [done|]. exists []. done. }
    destruct (len_slice_from haystack hidx Hh) as [Esl Elen].
    destruct (Z.eqb_spec (find_from n (py_slice_from haystack hidx) 0) (-1))
      as [|Hfound].
    { injection Hrun as <- <- <-. split; [done|]. exists []. done. }
    destruct (find_from_match n _ 0 Hfound ltac:(lia)) as (c & Hc & Hn).
    destruct (find_from_range n (py_slice_from haystack hidx) 0) as [|Hr];
      [done|].
    set (p := find_from n (py_slice_from haystack hidx) 0) in *.
    rewrite Elen in Hr. rewrite Z.sub_0_r, Esl in Hc.
    destruct (score_for_char ctx haystack (p + hidx) last_idx) as [sc| |];
      simpl in Hrun; try done.
    destruct (py_setitem positions i (p + hidx)) as [positions1| |];
      simpl in Hrun; try done.
    assert (Hrest : is_subsequence ns (drop (Z.to_nat (p + hidx + 1)) haystack)
                    = false).
    { destruct (is_subsequence ns (drop (Z.to_nat (p + hidx + 1)) haystack))
        eqn:Hs; [|done].
      rewrite <- Hsub. symmetry.
      apply (is_subsequence_match n ns _ (Z.to_nat p) c Hc Hn).
      rewrite drop_drop.
      replace (Z.to_nat hidx + S (Z.to_nat p))%nat
        with (Z.to_nat (p + hidx + 1)) by lia. done. }
    assert (Hh' : 0 ≤ p + hidx + 1 ≤ len haystack) by lia.
    destruct (IH (S i) (p + hidx + 1) _ _ _ _ _ _ _ Hns' Hh' Hrest Hrun)
      as (-> & new & -> & Hnew).
    split; [done|].
    exists (new ++ [(p + hidx + 1, i, last_idx, score, positions)]).
    split; [by rewrite <- app_assoc|].
    apply Forall_app. split; [done|]. constructor; [|constructor].
    unfold frame_unplaceable. simpl. rewrite <- Hns.
    destruct (is_subsequence (n :: ns) (drop (Z.to_nat (p + hidx + 1)) haystack))
      eqn:Hs; [|done].
    rewrite <- Hsub. symmetry.
    replace (Z.to_nat (p + hidx + 1))
      with (Z.to_nat hidx + S (Z.to_nat p))%nat in Hs by lia.
    rewrite <- drop_drop in Hs. eapply is_subsequence_drop, Hs.
Qed.

Lemma while_loop_unplaceable memo ctx haystack needle :
  ∀ fuel stack mem final_positions alias score positions mem',
    Forall (frame_ok haystack needle) stack →
    Forall (frame_unplaceable haystack needle) stack →
    map_Forall (λ _ v, v.1 = 0%float) mem →
    while_loop memo fuel ctx haystack needle stack mem 0 final_positions alias
      = Done (score, positions, mem') →
    score = 0%float ∧ map_Forall (λ _ v, v.1 = 0%float) mem'.
Proof.
  induction fuel as [|fuel IH];
    intros stack mem final_positions alias score positions mem' Hok Hun Hmem Hrun.
  - destruct stack as [|[[[[??]?]?]?] ?]; simpl in Hrun; [|done].
    by injection Hrun as <- <- <-.
  - destruct stack as [|[[[[hidx nidx] last_idx] sc0] ps0] stack];
      simpl in Hrun; [by injection Hrun as <- <- <-|].
    apply Forall_cons in Hok as [(Hh & Hl & Hp) Hok]. simpl in Hh, Hl, Hp.
    apply Forall_cons in Hun as [Hun0 Hun].
    unfold frame_unplaceable in Hun0. simpl in Hun0.
    destruct (if memo then mem !! (hidx, nidx, last_idx) else None)
      as [[sc1 ps1]|] eqn:Hlook.
    + assert (sc1 = 0%float) as ->.
      { destruct memo; [|done]. apply (Hmem _ _ Hlook). }
      simpl in Hrun. eapply IH; eauto.
    + destruct (for_loop_total ctx haystack needle (drop nidx needle) nidx hidx
                  last_idx sc0 ps0 stack eq_refl Hh Hl Hp)
        as (sc1 & ps1 & new & Hfor & _ & Hnew & _).
      destruct (for_loop_unplaceable ctx haystack needle _ _ _ _ _ _ _ _ _ _
                  eq_refl Hh Hun0 Hfor) as (-> & new' & Enew & Hnew').
      apply app_inv_tail in Enew as <-.
      rewrite Hfor in Hrun. simpl in Hrun.
      eapply IH; [| |
        |exact Hrun].
      * apply Forall_app; done.
      * apply Forall_app; done.
      * destruct memo; [|done]. apply map_Forall_insert_2; done.
Qed.

(** A needle that is not a subsequence of the haystack scores exactly 0:
    nothing is kept of the characters that could be placed. *)
Lemma process_item_unplaceable memo ctx haystack needle :
  memory ctx = Some ∅ →
  is_subsequence needle haystack = false →
  ∃ positions ctx',
    process_item_with memo ctx haystack needle = Done (0%float, positions, ctx').
Proof.
  intros Hmem Hsub.
  destruct (process_item_with_total memo ctx haystack needle ∅ Hmem)
    as (score & positions & ctx' & Hrun).
  exists positions, ctx'. rewrite Hrun. do 3 f_equal.
  unfold process_item_with in Hrun. rewrite Hmem in Hrun.
  destruct (while_loop memo (budget haystack) ctx haystack needle _ ∅ 0 _ true)
    as [[[sc ps] mem']| |] eqn:Hloop; simpl in Hrun; try done.
  injection Hrun as <- <- <-.
  eapply while_loop_unplaceable in Hloop as [-> _]; [done| | |].
  - constructor; [|constructor]. unfold frame_ok. simpl.
    rewrite length_replicate. unfold len. lia.
  - constructor; [|constructor]. unfold frame_unplaceable. simpl.
    by rewrite drop_0.
  - apply map_Forall_empty.
Qed.

End unplaceable.
(** ** Proofs: the reference scorer as a function of the candidate *)

Section pyscorer_facts.
Context `{Externals}.

Lemma calc_score_for_char_config ctx ctx' prev current distance :
  level1 ctx = level1 ctx' → level2 ctx = level2 ctx' →
  level3 ctx = level3 ctx' →
  max_score_per_char ctx = max_score_per_char ctx' →
  calc_score_for_char ctx prev current distance
  = calc_score_for_char ctx' prev current distance.
Proof. unfold calc_score_for_char. by intros -> -> -> ->. Qed.

Lemma score_for_char_config ctx ctx' haystack pos last_idx :
  level1 ctx = level1 ctx' → level2 ctx = level2 ctx' →
  level3 ctx = level3 ctx' →
  max_score_per_char ctx = max_score_per_char ctx' →
  score_for_char ctx haystack pos last_idx
  = score_for_char ctx' haystack pos last_idx.
Proof.
  intros H1 H2 H3 Hm. unfold score_for_char. rewrite Hm.
  destruct (pos - last_idx <=? 1); [done|].
  destruct (py_index haystack (pos - 1)); simpl; try done.
  destruct (py_index haystack pos); simpl; try done.
  by apply calc_score_for_char_config.
Qed.

Lemma for_loop_config ctx ctx' haystack nlen :
  level1 ctx = level1 ctx' → level2 ctx = level2 ctx' →
  level3 ctx = level3 ctx' →
  max_score_per_char ctx = max_score_per_char ctx' →
  ∀ ns i hidx last_idx score positions stack,
    for_loop ctx haystack nlen ns i hidx last_idx score positions stack
    = for_loop ctx' haystack nlen ns i hidx last_idx score positions stack.
Proof.
  intros H1 H2 H3 Hm. induction ns as [|n ns IH]; intros; simpl; [done|].
  destruct (len haystack - hidx <? nlen - Z.of_nat i); [done|].
  destruct (_ =? -1); [done|].
  rewrite (score_for_char_config ctx ctx') by done.
  destruct (score_for_char ctx' haystack _ last_idx); simpl; try done.
  destruct (py_setitem positions i _); simpl; try done.
Qed.

Lemma while_loop_config memo ctx ctx' haystack needle :
  level1 ctx = level1 ctx' → level2 ctx = level2 ctx' →
  level3 ctx = level3 ctx' →
  max_score_per_char ctx = max_score_per_char ctx' →
  ∀ fuel stack mem final_score final_positions alias,
    while_loop memo fuel ctx haystack needle stack mem final_score
               final_positions alias
    = while_loop memo fuel ctx' haystack needle stack mem final_score
                 final_positions alias.
Proof.
  intros H1 H2 H3 Hm. induction fuel as [|fuel IH]; intros; simpl.
  - destruct stack as [|[[[[??]?]?]?] ?]; done.
  - destruct stack as [|[[[[hidx nidx] last_idx] score] positions] stack];
      [done|].
    rewrite (for_loop_config ctx ctx') by done.
    destruct (if memo then mem !! (hidx, nidx, last_idx) else None)
      as [[??]|]; simpl.
    + destruct (_ <? _)%float; apply IH.
    + destruct (for_loop ctx' haystack (len needle) (drop nidx needle) nidx hidx
                         last_idx score positions stack) as [[[??]?]| |];
        simpl; try done.
      destruct (_ <? _)%float; apply IH.
Qed.

(** A candidate is scored the same way in whichever partition it sits and
    whatever the scorer did before: [__call__] resets what it reads. *)
Lemma process_item_score_item (self : PyScorer) item needle m :
  level1 self = DEFAULT_LEVEL1 → level2 self = DEFAULT_LEVEL2 →
  level3 self = DEFAULT_LEVEL3 →
  item_max_score item needle = Done m →
  ∃ score positions self',
    process_item (with_memory self m (Some ∅)) item needle
      = Done (score, positions, self')
    ∧ score_item item needle = Done (score, positions)
    ∧ same_config self self'.
Proof.
  intros H1 H2 H3 Hm.
  destruct (process_item_with_total true (with_memory self m (Some ∅)) item
              needle ∅ eq_refl) as (score & positions & self' & Hrun).
  exists score, positions, self'. split; [done|].
  unfold score_item. rewrite Hm. simpl.
  unfold process_item, process_item_with in *. simpl in *.
  rewrite (while_loop_config true (with_memory (PyScorer_init []) m (Some ∅))
             (with_memory self m (Some ∅))) by done.
  destruct (while_loop true _ (with_memory self m (Some ∅)) item needle _ ∅ 0 _ true)
    as [[[sc ps] mem']| |]; simpl in *; try done.
  injection Hrun as <- <- <-. done.
Qed.

Lemma same_config_with_memory a b m mem :
  same_config a b → with_memory a m mem = with_memory b m mem.
Proof.
  destruct a, b. unfold same_config, with_memory. simpl.
  by intros (-> & -> & -> & ->).
Qed.

Lemma item_max_score_nonempty item needle :
  item ≠ [] → needle ≠ [] → ∃ m, item_max_score item needle = Done m.
Proof.
  intros Hi Hn. unfold item_max_score, py_div.
  destruct (Z.eqb_spec (len item) 0) as [E|_].
  { destruct item; [done|]. unfold len in E. simpl in E. lia. }
  destruct (Z.eqb_spec (len needle) 0) as [E|_].
  { destruct needle; [done|]. unfold len in E. simpl in E. lia. }
  simpl. eauto.
Qed.

Lemma item_max_score_empty_needle item :
  item_max_score item [] = Raised ZeroDivisionError.
Proof.
  unfold item_max_score, py_div.
  destruct (len item =? 0); [done|]. simpl. done.
Qed.

(** On a non-empty needle the generator yields one pair per item, that of
    [score_item], then stops; it leaves the scorer with the same items and
    levels. *)
Lemma PyScorer_iter_spec needle :
  needle ≠ [] →
  ∀ its (self : PyScorer),
    Forall (λ x, x ≠ []) its →
    level1 self = DEFAULT_LEVEL1 → level2 self = DEFAULT_LEVEL2 →
    level3 self = DEFAULT_LEVEL3 →
    gen_end (PyScorer_iter self its needle) = Done ()
    ∧ Forall2 (λ v item, score_item item needle = Done v)
              (gen_values (PyScorer_iter self its needle)) its
    ∧ same_config self (gen_final (PyScorer_iter self its needle)).
Proof.
  intros Hn. induction its as [|item its IH]; intros self Hits H1 H2 H3.
  - simpl. repeat split; done.
  - apply Forall_cons in Hits as [Hi Hits]. simpl.
    destruct (item_max_score_nonempty item needle Hi Hn) as [m Hm].
    rewrite Hm.
    destruct (process_item_score_item self item needle m H1 H2 H3 Hm)
      as (score & positions & self' & -> & Hsc & Hcfg).
    destruct Hcfg as (Ci & C1 & C2 & C3).
    destruct (IH self' Hits) as (Hend & Hvals & Hfin); [congruence..|].
    simpl. split; [done|]. split; [by constructor|].
    destruct Hfin as (Fi & F1 & F2 & F3).
    repeat split; congruence.
Qed.

(** On an empty needle the first step of the generator raises. *)
Lemma PyScorer_iter_empty_needle (self : PyScorer) item its :
  PyScorer_iter self (item :: its) [] = GEnd (Raised ZeroDivisionError) self.
Proof. simpl. by rewrite item_max_score_empty_needle. Qed.

End pyscorer_facts.
(** ** Proofs: collecting the results of the reference scorer *)

Section collect_facts.
Context `{Externals}.

Lemma tables_ok_insert its needle scores positions g item sc ps :
  tables_ok its needle scores positions →
  its !! g = Some item → score_item item needle = Done (sc, ps) →
  tables_ok its needle (<[g := sc]> scores) (<[g := ps]> positions).
Proof.
  intros Hok Hi Hs g'. destruct (decide (g = g')) as [<-|Hne].
  - rewrite !lookup_insert_eq. eauto.
  - rewrite !lookup_insert_ne by done. apply Hok.
Qed.

Lemma tables_ok_some its needle scores positions g :
  tables_ok its needle scores positions → is_Some (scores !! g) →
  ∃ item sc ps, its !! g = Some item ∧ scores !! g = Some sc
    ∧ positions !! g = Some ps ∧ score_item item needle = Done (sc, ps).
Proof.
  intros Hok [sc Hsc]. specialize (Hok g). rewrite Hsc in Hok.
  destruct (positions !! g) as [ps|]; [|done].
  destruct Hok as (item & Hi & Hs). eauto 10.
Qed.

(** Iterating a generator that yields the right pairs for the indices
    [base + i], [base + i + 1], ... fills the tables for those indices. *)
Lemma consume_ok its needle (task_map : gmap nat nat) base :
  ∀ (g : gen PyScorer (float * list Z)) i scores positions,
    gen_end g = Done () →
    (∀ j v, gen_values g !! j = Some v →
       ∃ item, task_map !! (i + j)%nat = Some (base + i + j)%nat
               ∧ its !! (base + i + j)%nat = Some item
               ∧ score_item item needle = Done v) →
    tables_ok its needle scores positions →
    ∃ scores' positions',
      consume task_map i g scores positions
        = (Done (scores', positions'), gen_final g)
      ∧ tables_ok its needle scores' positions'
      ∧ (∀ k, is_Some (scores !! k) → is_Some (scores' !! k))
      ∧ (∀ j, (j < length (gen_values g))%nat →
              is_Some (scores' !! (base + i + j)%nat)).
Proof.
  induction g as [r st|[sc ps] st rest IH]; intros i scores positions Hend Hv Hok.
  - simpl in *. subst r. exists scores, positions. simpl.
    repeat split; try done. intros j Hj. lia.
  - simpl in Hend.
    destruct (Hv 0%nat (sc, ps) eq_refl) as (item & Hm & Hi & Hs).
    rewrite ?Nat.add_0_r in Hm. rewrite ?Nat.add_0_r in Hi. simpl. rewrite Hm.
    destruct (IH (S i) (<[(base + i)%nat := sc]> scores)
                 (<[(base + i)%nat := ps]> positions) Hend)
      as (scores' & positions' & Hrun & Hok' & Hmono & Hcov).
    { intros j v Hj. destruct (Hv (S j) v Hj) as (item' & ? & ? & ?).
      exists item'. replace (S i + j)%nat with (i + S j)%nat by lia.
      replace (base + S i + j)%nat with (base + i + S j)%nat by lia. done. }
    { by eapply tables_ok_insert. }
    exists scores', positions'. split; [exact Hrun|]. split; [done|]. split.
    + intros k Hk. apply Hmono.
      destruct (decide (k = (base + i)%nat)) as [->|Hne].
      * rewrite lookup_insert_eq. eauto.
      * by rewrite lookup_insert_ne.
    + intros j Hj. destruct j as [|j].
      * apply Hmono. rewrite Nat.add_0_r, lookup_insert_eq. eauto.
      * replace (base + i + S j)%nat with (base + S i + j)%nat by lia.
        apply Hcov. simpl in Hj. lia.
Qed.

End collect_facts.

Section collect_all.
Context `{Externals}.

Lemma split_task_lookup (its : list pystr) W tasks t p j :
  (1 ≤ W)%nat → split its W = Done tasks → tasks !! t = Some p →
  (j < length p)%nat →
  task_map_of p !! j = Some (t * ceil_div (length its) W + j)%nat
  ∧ its !! (t * ceil_div (length its) W + j)%nat = p.*2 !! j.
Proof.
  intros HW Hs Hp Hj.
  destruct (split_partitions its W HW) as (parts & Hs' & _ & _ & _ & Hparts).
  rewrite Hs in Hs'. injection Hs' as <-.
  destruct (Hparts t p Hp) as (Hlen & _ & E2 & _ & Hmap).
  assert (its !! (t * ceil_div (length its) W + j)%nat = p.*2 !! j) as Hi.
  { rewrite E2, lookup_take_lt, lookup_drop by lia. done. }
  split; [|done]. apply Hmap. done.
Qed.

Lemma split_index_cover (its : list pystr) W tasks g :
  (1 ≤ W)%nat → split its W = Done tasks → (g < length its)%nat →
  ∃ t p j, tasks !! t = Some p ∧ (j < length p)%nat
           ∧ g = (t * ceil_div (length its) W + j)%nat.
Proof.
  intros HW Hs Hg.
  destruct (split_partitions its W HW) as (parts & Hs' & _ & Hnum & _ & Hparts).
  rewrite Hs in Hs'. injection Hs' as <-.
  set (delta := ceil_div (length its) W) in *.
  assert (1 ≤ delta)%nat as Hd by (apply ceil_div_pos; lia).
  pose proof (Nat.div_mod g delta ltac:(lia)) as Hdm.
  pose proof (Nat.mod_upper_bound g delta ltac:(lia)) as Hmod.
  assert (g / delta < length tasks)%nat as Ht.
  { rewrite Hnum. unfold ceil_div.
    replace (length its + (delta - 1))%nat
      with ((length its - 1) + 1 * delta)%nat by lia.
    rewrite Nat.div_add by lia.
    pose proof (Nat.Div0.div_le_mono g (length its - 1) delta ltac:(lia)). lia. }
  destruct (lookup_lt_is_Some_2 tasks (g / delta) Ht) as [p Hp].
  exists (g / delta)%nat, p, (g mod delta)%nat. split; [done|].
  split; [|lia].
  destruct (Hparts _ p Hp) as (_ & _ & E2 & _).
  rewrite <- (length_fmap snd p), E2, length_take, length_drop. lia.
Qed.

Lemma entry_ok_consume its needle W tasks t p
    (g : gen PyScorer (float * list Z)) scores positions :
  (1 ≤ W)%nat → split its W = Done tasks → tasks !! t = Some p →
  gen_end g = Done () →
  Forall2 (λ v item, score_item item needle = Done v) (gen_values g) p.*2 →
  tables_ok its needle scores positions →
  ∃ scores' positions',
    consume (task_map_of p) 0 g scores positions
      = (Done (scores', positions'), gen_final g)
    ∧ tables_ok its needle scores' positions'
    ∧ (∀ k, is_Some (scores !! k) → is_Some (scores' !! k))
    ∧ (∀ j, (j < length p)%nat →
         is_Some (scores' !! (t * ceil_div (length its) W + j)%nat)).
Proof.
  intros HW Hs Hp Hend Hvals Hok.
  pose proof (Forall2_length _ _ _ Hvals) as Hlen.
  rewrite length_fmap in Hlen.
  destruct (consume_ok its needle (task_map_of p)
              (t * ceil_div (length its) W)%nat g 0%nat scores positions Hend)
    as (scores' & positions' & Hrun & Hok' & Hmono & Hcov); [|done|].
  - intros j v Hj.
    destruct (Forall2_lookup_l _ _ _ _ _ Hvals Hj) as (item & Hitem & Hsc).
    pose proof (lookup_lt_Some _ _ _ Hj) as Hlt. rewrite Hlen in Hlt.
    destruct (split_task_lookup its W tasks t p j HW Hs Hp Hlt) as [Hm Hi].
    exists item. rewrite Nat.add_0_r. simpl. rewrite Hi. done.
  - exists scores', positions'. split; [done|]. split; [done|].
    split; [done|]. intros j Hj.
    specialize (Hcov j). rewrite Nat.add_0_r in Hcov. apply Hcov. lia.
Qed.

(** A queue of well-formed entries is drained to the end, without an error,
    and every partition that reported is in the tables. *)
Lemma collect_ok its needle W tasks :
  (1 ≤ W)%nat → split its W = Done tasks →
  ∀ queue scs scores positions,
    Forall (entry_ok tasks needle) queue →
    Forall2 scorer_of scs tasks →
    tables_ok its needle scores positions →
    ∃ scores' positions' scs',
      collect (length queue) queue (task_map_of <$> tasks) scs scores positions
              None
        = (Done (scores', positions', None), scs', [])
      ∧ tables_ok its needle scores' positions'
      ∧ Forall2 scorer_of scs' tasks
      ∧ (∀ k, is_Some (scores !! k) → is_Some (scores' !! k))
      ∧ (∀ t g p j, Success t g ∈ queue → tasks !! t = Some p →
           (j < length p)%nat →
           is_Some (scores' !! (t * ceil_div (length its) W + j)%nat)).
Proof.
  intros HW Hs. induction queue as [|r queue IH];
    intros scs scores positions Hq Hscs Hok.
  - exists scores, positions, scs. simpl. repeat split; try done.
    intros t g p j Hin. by apply elem_of_nil in Hin.
  - apply Forall_cons in Hq as [(t & p & g & -> & Hp & Hend & Hvals & Hfin) Hq].
    simpl. rewrite list_lookup_fmap, Hp. simpl.
    destruct (entry_ok_consume its needle W tasks t p g scores positions
                HW Hs Hp Hend Hvals Hok)
      as (scores1 & positions1 & -> & Hok1 & Hmono1 & Hcov1).
    destruct (IH (<[t := gen_final g]> scs) scores1 positions1 Hq)
      as (scores' & positions' & scs' & Hrun & Hok' & Hscs' & Hmono & Hcov);
      [|done|].
    { rewrite <- (list_insert_id tasks t p Hp). by apply Forall2_insert. }
    exists scores', positions', scs'. split; [done|]. split; [done|].
    split; [done|]. split; [by auto|].
    intros t' g' p' j Hin Hp' Hj.
    apply elem_of_cons in Hin as [Heq|Hin]; [|by eapply Hcov].
    injection Heq as -> ->. rewrite Hp in Hp'. injection Hp' as <-.
    apply Hmono, Hcov1, Hj.
Qed.

End collect_all.

Section call_reference.
Context `{Externals}.

Lemma py_getitem_Some {K V} `{Countable K} (d : gmap K V) k v :
  d !! k = Some v → py_getitem d k = Done v.
Proof. unfold py_getitem. by intros ->. Qed.

Lemma traverse_entries its needle scores positions :
  tables_ok its needle scores positions →
  ∀ l c,
    (∀ j item, l !! j = Some item → its !! (c + j)%nat = Some item) →
    (∀ j, (j < length l)%nat → is_Some (scores !! (c + j)%nat)) →
    traverse (λ '(i, item),
        sc ← py_getitem scores i;
        ps ← py_getitem positions i;
        Done ((- sc)%float, item, ps))
      (imap (λ i item, ((c + i)%nat, item)) l)
    = traverse (λ item,
        '(sc, ps) ← score_item item needle;
        Done ((- sc)%float, item, ps)) l.
Proof.
  intros Hok. induction l as [|item l IH]; intros c Hl Hcov; [done|].
  rewrite imap_cons. simpl.
  destruct (tables_ok_some its needle scores positions (c + 0)%nat Hok)
    as (item' & sc & ps & Hi & Hsc & Hps & Hitem).
  { apply (Hcov 0%nat). simpl. lia. }
  rewrite (Hl 0%nat item eq_refl) in Hi. injection Hi as <-.
  rewrite (py_getitem_Some _ _ _ Hsc). simpl.
  rewrite (py_getitem_Some _ _ _ Hps), Hitem. simpl.
  rewrite <- (IH (S c)).
  - do 2 f_equal. apply imap_ext. intros j x _. simpl. f_equal. lia.
  - intros j x Hj. replace (S c + j)%nat with (c + S j)%nat by lia.
    by apply Hl.
  - intros j Hj. replace (S c + j)%nat with (c + S j)%nat by lia.
    apply Hcov. simpl. lia.
Qed.

Lemma sorted_entries_reference its needle scores positions :
  tables_ok its needle scores positions →
  (∀ g, (g < length its)%nat → is_Some (scores !! g)) →
  sorted_entries its scores positions = reference_entries its needle.
Proof.
  intros Hok Hcov. unfold sorted_entries, reference_entries.
  rewrite <- (traverse_entries its needle scores positions Hok its 0%nat); done.
Qed.

(** The entries the workers put for the requests of one call. *)
Lemma queue_of_arrival (scs : list PyScorer) needle arrival :
  Forall (λ t, t < length scs)%nat arrival →
  Forall2 (λ r t, ∃ sc, scs !! t = Some sc
                        ∧ r = Success t (PyScorer_call sc needle))
    (omap (λ t, Worker_run <$> imap (λ i scorer, (i, scorer, needle)) scs !! t)
          arrival)
    arrival.
Proof.
  induction arrival as [|t arrival IH]; intros Hlt; [constructor|].
  apply Forall_cons in Hlt as [Ht Hlt].
  destruct (lookup_lt_is_Some_2 scs t Ht) as [sc Hsc].
  simpl. rewrite list_lookup_imap, Hsc. simpl.
  constructor; [eauto|]. by apply IH.
Qed.

(** On a query that is not empty, a matcher built on the reference scorer
    returns the ranking computed straight from its candidates, whatever the
    order in which the partitions report; it leaves the result queue empty
    and stays well-formed. *)
Lemma Matcher_call_reference W (self : Matcher PyScorer) pool arrival query limit :
  matcher_ok W self → results pool = [] →
  arrival ≡ₚ seq 0 (length (task_maps self)) →
  normalize_nfc query ≠ [] →
  ∃ self',
    Matcher_call self pool arrival query limit
      = (reference_call (m_items self) (normalize_nfc query) limit, self', pool)
    ∧ matcher_ok W self' ∧ m_items self' = m_items self.
Proof.
  intros (HW & Hne & tasks & Hs & Hmaps & Hscs) Hq Harr Hquery.
  set (needle := normalize_nfc query) in *.
  pose proof (Forall2_length _ _ _ Hscs) as Hlen.
  assert (Hnum : length (task_maps self) = length tasks)
    by (rewrite Hmaps; apply length_fmap).
  assert (Hlt : Forall (λ t, t < length (scorers self))%nat arrival).
  { apply Forall_forall. intros t Ht. rewrite Harr in Ht.
    apply elem_of_seq in Ht. lia. }
  pose proof (queue_of_arrival (scorers self) needle arrival Hlt) as Hqueue.
  set (queue := omap _ arrival) in Hqueue.
  assert (Hentries : Forall (entry_ok tasks needle) queue).
  { apply Forall_forall. intros r Hr.
    apply list_elem_of_lookup in Hr as [k Hk].
    destruct (Forall2_lookup_l _ _ _ _ _ Hqueue Hk) as (t & Ht & sc & Hsc & ->).
    destruct (Forall2_lookup_l _ _ _ _ _ Hscs Hsc) as (p & Hp & Hcfg).
    destruct Hcfg as (Ci & C1 & C2 & C3).
    assert (Forall (λ x, x ≠ []) p.*2) as Hpne.
    { destruct (split_partitions (m_items self) W HW)
        as (parts & Hs' & _ & _ & _ & Hparts).
      rewrite Hs in Hs'. injection Hs' as <-.
      destruct (Hparts t p Hp) as (_ & _ & -> & _).
      apply Forall_take, Forall_drop, Hne. }
    destruct (PyScorer_iter_spec needle Hquery p.*2 sc Hpne C1 C2 C3)
      as (Hend & Hvals & Hfin).
    exists t, p, (PyScorer_call sc needle). unfold PyScorer_call. rewrite Ci.
    split; [done|]. split; [done|]. split; [done|]. split; [done|].
    destruct Hfin as (Fi & F1 & F2 & F3).
    unfold scorer_of. rewrite <- Fi, <- F1, <- F2, <- F3. done. }
  destruct (collect_ok (m_items self) needle W tasks HW Hs queue (scorers self)
              ∅ ∅ Hentries Hscs)
    as (scores & positions & scs' & Hrun & Hok & Hscs' & _ & Hcov).
  { intros g. by rewrite !lookup_empty. }
  assert (Hqlen : length queue = length (task_maps self)).
  { rewrite (Forall2_length _ _ _ Hqueue), Harr, length_seq. done. }
  exists {| m_items := m_items self; task_maps := task_maps self;
            scorers := scs';
            sort_keys :=
              match sort_keys self with
              | None => Some (list_to_map
                  (imap (λ i x, (i, primary_sort_key x)) (m_items self)))
              | Some keys => Some keys
              end |}.
  split; [|split; [|done]].
  - unfold Matcher_call. fold needle. rewrite Hq. simpl. fold queue.
    rewrite <- Hqlen, Hmaps, Hrun. cbv beta iota zeta. unfold mbind, outcome_bind.
    unfold rank, reference_call.
    rewrite (sorted_entries_reference _ needle) ; [| done |].
    + destruct pool as [w rs]. simpl in Hq. subst rs. done.
    + intros g Hg.
      destruct (split_index_cover (m_items self) W tasks g HW Hs Hg)
        as (t & p & j & Hp & Hj & ->).
      assert (t ∈ arrival) as Hin.
      { rewrite Harr. apply elem_of_seq. apply lookup_lt_Some in Hp. lia. }
      apply list_elem_of_lookup in Hin as [k Hk].
      destruct (Forall2_lookup_r _ _ _ _ _ Hqueue Hk) as (r & Hr & sc & _ & ->).
      eapply Hcov; [|done|done].
      eapply list_elem_of_lookup_2, Hr.
  - split; [done|]. split; [done|]. exists tasks. done.
Qed.

End call_reference.
(** ** Proofs: construction, the empty query, determinism *)

Section matcher_reference.
Context `{Externals}.

Lemma start_workers_pos cpu_count (pool : Pool PyScorer) :
  (1 ≤ workers (start_workers cpu_count pool))%nat
  ∧ results (start_workers cpu_count pool) = results pool.
Proof.
  unfold start_workers. destruct (decide (workers pool = 0%nat)); simpl.
  - split; [lia|done].
  - split; [lia|done].
Qed.

(** [Matcher.__init__] with the reference scorer always returns a
    well-formed matcher over the normalised non-empty candidates. *)
Lemma Matcher_init_ok cpu_count (pool : Pool PyScorer) its :
  ∃ self pool',
    Matcher_init cpu_count pool its = (Done self, pool')
    ∧ matcher_ok (workers pool') self
    ∧ m_items self = normalize_nfc <$> filter (λ x, x ≠ []) its
    ∧ sort_keys self = None
    ∧ results pool' = results pool.
Proof.
  unfold Matcher_init.
  destruct (start_workers_pos cpu_count pool) as [HW Hres].
  set (pool' := start_workers cpu_count pool) in *.
  set (its' := map normalize_nfc (filter (λ x, x ≠ []) its)).
  destruct (split_partitions its' (workers pool') HW) as (tasks & Hs & _).
  rewrite Hs. simpl. eexists _, pool'. split; [done|].
  split; [|done]. split; [done|]. simpl. split.
  - apply Forall_fmap, Forall_forall. intros x Hx.
    apply list_elem_of_filter in Hx as [Hx _]. simpl.
    by rewrite normalize_nfc_nil.
  - exists tasks. split; [done|]. split; [done|].
    apply Forall2_fmap_l, Forall_Forall2_diag, Forall_forall.
    intros task _. done.
Qed.

Lemma split_nonempty {A} (its : list A) W tasks :
  (1 ≤ W)%nat → split its W = Done tasks → its ≠ [] →
  (1 ≤ length tasks)%nat ∧ Forall (λ p, p ≠ []) tasks.
Proof.
  intros HW Hs Hne.
  destruct (split_partitions its W HW) as (parts & Hs' & _ & Hnum & _ & Hparts).
  rewrite Hs in Hs'. injection Hs' as <-.
  assert (1 ≤ length its)%nat by (destruct its; [done|simpl; lia]).
  split.
  - rewrite Hnum. apply ceil_div_pos; [done|]. by apply ceil_div_pos.
  - apply Forall_forall. intros p Hp.
    apply list_elem_of_lookup in Hp as [t Ht].
    destruct (Hparts t p Ht) as (Hlen & _). intros ->. simpl in Hlen. lia.
Qed.

(** The requests of a call are all answered with a success entry holding a
    generator that has not run yet. *)
Lemma workers_push_success (scs : list PyScorer) needle (arrival : list nat) r :
  r ∈ omap (λ t, Worker_run <$> imap (λ i scorer, (i, scorer, needle)) scs !! t)
           arrival →
  ∃ t sc, scs !! t = Some sc ∧ r = Success t (PyScorer_call sc needle).
Proof.
  intros Hr. apply list_elem_of_omap in Hr as (t & _ & Ht).
  rewrite list_lookup_imap in Ht.
  destruct (scs !! t) as [sc|] eqn:Hsc; [|done].
  simpl in Ht. injection Ht as <-. eauto.
Qed.

Lemma Matcher_call_empty_query W (self : Matcher PyScorer) pool arrival query
    limit :
  matcher_ok W self → m_items self ≠ [] → results pool = [] →
  arrival ≡ₚ seq 0 (length (task_maps self)) →
  normalize_nfc query = [] →
  (Matcher_call self pool arrival query limit).1.1 = Raised ZeroDivisionError.
Proof.
  intros (HW & Hne & tasks & Hs & Hmaps & Hscs) Hits Hq Harr Hquery.
  destruct (split_nonempty _ _ _ HW Hs Hits) as [Hnum Hparts].
  pose proof (Forall2_length _ _ _ Hscs) as Hlen.
  unfold Matcher_call. rewrite Hquery, Hq, Hmaps, length_fmap. simpl.
  destruct arrival as [|t arrival].
  { apply Permutation_length in Harr.
    rewrite length_seq, Hmaps, length_fmap in Harr. simpl in Harr. lia. }
  assert (t < length tasks)%nat as Ht.
  { assert (t ∈ seq 0 (length (task_maps self))) as Hin
      by (rewrite <- Harr; left).
    apply elem_of_seq in Hin. rewrite Hmaps, length_fmap in Hin. lia. }
  destruct (lookup_lt_is_Some_2 (scorers self) t ltac:(lia)) as [sc Hsc].
  destruct (Forall2_lookup_l _ _ _ _ _ Hscs Hsc) as (p & Hp & Hcfg & _).
  simpl. rewrite list_lookup_imap, Hsc. simpl.
  destruct (length tasks) as [|n] eqn:En; [lia|]. simpl.
  rewrite list_lookup_fmap, Hp. simpl.
  unfold PyScorer_call. rewrite Hcfg.
  assert (p ≠ []) as Hpne.
  { rewrite Forall_forall in Hparts. apply Hparts.
    eapply list_elem_of_lookup_2, Hp. }
  destruct p as [|[g item] p]; [done|]. simpl.
  rewrite item_max_score_empty_needle. simpl. done.
Qed.

End matcher_reference.


(** For a matcher built on the reference scorer and a result queue that
    starts empty, the outcome of a query, exception included, is the same for
    any two orders in which the partitions report, and a mapping returned
    once is returned again when the same query is put to the matcher as the
    first call left it. *)
Lemma reference_query_deterministic `{Externals} W (self : Matcher PyScorer) pool
    arrival1 arrival2 arrival3 query limit :
  matcher_ok W self → results pool = [] →
  arrival1 ≡ₚ seq 0 (length (task_maps self)) →
  arrival2 ≡ₚ seq 0 (length (task_maps self)) →
  arrival3 ≡ₚ seq 0 (length (task_maps self)) →
  (Matcher_call self pool arrival1 query limit).1.1
  = (Matcher_call self pool arrival2 query limit).1.1
  ∧ ∀ m self1 pool1,
      Matcher_call self pool arrival1 query limit = (Done m, self1, pool1) →
      (Matcher_call self1 pool1 arrival3 query limit).1.1 = Done m.
Proof.
  intros Hok Hq H1 H2 H3.
  destruct (decide (normalize_nfc query = [])) as [Hnil|Hne].
  - destruct (decide (m_items self = [])) as [Hits|Hits].
    + destruct Hok as (HW & _ & tasks & Hs & Hmaps & _).
      rewrite Hits in Hs. unfold split in Hs.
      destruct (decide (W = 0%nat)); [lia|]. simpl in Hs. injection Hs as <-.
      rewrite Hmaps in *. simpl in *.
      apply Permutation_nil_r in H1, H2, H3. subst.
      unfold Matcher_call. rewrite Hmaps, Hq. simpl. split; [done|].
      intros m self1 pool1 [= <- <- <-]. simpl. rewrite Hits. done.
    + rewrite !(Matcher_call_empty_query W) by done. split; [done|].
      intros m self1 pool1 Hcall.
      pose proof (Matcher_call_empty_query W self pool arrival1 query limit
                    Hok Hits Hq H1 Hnil) as Hr.
      rewrite Hcall in Hr. done.
  - destruct (Matcher_call_reference W self pool arrival1 query limit
                Hok Hq H1 Hne) as (self1 & E1 & Hok1 & Hi1).
    destruct (Matcher_call_reference W self pool arrival2 query limit
                Hok Hq H2 Hne) as (self2 & E2 & _).
    rewrite E1, E2. split; [done|].
    intros m self1' pool1 [= Hm <- <-].
    assert (length (task_maps self1) = length (task_maps self)) as Hlen.
    { destruct Hok1 as (_ & _ & tasks1 & Hs1 & -> & _).
      destruct Hok as (_ & _ & tasks & Hs & -> & _).
      rewrite Hi1 in Hs1. rewrite Hs in Hs1. by injection Hs1 as <-. }
    rewrite <- Hlen in H3.
    destruct (Matcher_call_reference W self1 pool arrival3 query limit
                Hok1 Hq H3 Hne) as (self3 & E3 & _).
    rewrite E3, Hi1. done.
Qed.

(** ** The model at work *)

(** Discharges [matcher_ok] on a concrete matcher. *)
Ltac demo_ok :=
  split; [lia|]; split; [repeat constructor; done|];
  eexists; split; [vm_compute; reflexivity|];
  split; [reflexivity|]; repeat constructor.

Section demo.
#[local] Existing Instance ascii_externals.

Lemma demo_matcher_init :
  Matcher_init 2 empty_pool demo_items
  = (Done demo_matcher, demo_pool).
Proof. vm_compute. reflexivity. Qed.


(** C2 (the code departs from the claim): the scorer's [__call__] is a
    generator function, so the worker's [scorer(query)] runs none of it and
    cannot fail; the worker always puts a success entry that holds the
    generator.  The scoring runs when [Matcher.__call__] iterates that entry,
    outside the worker's [try]: on [Matcher(['a'])] and the empty query the
    worker puts a success entry, and the [ZeroDivisionError] of the scoring
    leaves [Matcher.__call__] directly. *)
Theorem scoring_error_escapes_worker :
  let E := ascii_externals in
  (∀ i (scorer : PyScorer) query,
     Worker_run (i, scorer, query) = Success i (PyScorer_call scorer query))
  ∧ ∃ self pool,
      Matcher_init 1 empty_pool [s "a"] = (Done self, pool)
      ∧ omap (λ t, Worker_run <$>
                imap (λ i scorer, (i, scorer, [])) (scorers self) !! t) [0%nat]
        = [Success 0 (GEnd (Raised ZeroDivisionError) (PyScorer_init [s "a"]))]
      ∧ (Matcher_call self pool [0%nat] [] None).1.1
        = Raised ZeroDivisionError.
Proof.
  intros E. split; [done|].
  eexists _, _. split; [vm_compute; reflexivity|].
  split; vm_compute; reflexivity.
Qed.

End demo.
(** ** Proofs: the order of binary64 numbers *)

Lemma SFltb_rank f1 f2 :
  f1 ≠ S754_nan → f2 ≠ S754_nan →
  SFltb f1 f2 = true ↔ rank_lt (sf_rank f1) (sf_rank f2).
Proof.
  intros H1 H2. unfold SFltb, rank_lt.
  destruct f1 as [[]|[]| |[] m1 e1], f2 as [[]|[]| |[] m2 e2];
    try done; simpl; try (split; [intros; lia|intros; (done || lia)]).
  - change (Pos.compare_cont Eq m1 m2) with (Pos.compare m1 m2).
    destruct (Z.compare_spec e1 e2); destruct (Pos.compare_spec m1 m2);
      simpl; split; intros; (done || lia).
  - change (Pos.compare_cont Eq m1 m2) with (Pos.compare m1 m2).
    destruct (Z.compare_spec e1 e2); destruct (Pos.compare_spec m1 m2);
      simpl; split; intros; (done || lia).
Qed.

Lemma ordered_not_nan x : ordered x → Prim2SF x ≠ S754_nan.
Proof.
  unfold ordered. rewrite FloatAxioms.eqb_spec. intros Hx E.
  rewrite E in Hx. done.
Qed.

Lemma ltb_ordered x y : (x <? y)%float = true → ordered x ∧ ordered y.
Proof.
  unfold ordered. rewrite !FloatAxioms.eqb_spec, FloatAxioms.ltb_spec.
  unfold SFltb, SFeqb.
  destruct (Prim2SF x) as [[]|[]| |[] m1 e1], (Prim2SF y) as [[]|[]| |[] m2 e2];
    simpl; try done; intros _;
    rewrite ?Z.compare_refl; simpl;
    change (Pos.compare_cont Eq ?a ?b) with (Pos.compare a b);
    rewrite ?Pos.compare_refl; done.
Qed.

Lemma ltb_rank x y :
  ordered x → ordered y →
  (x <? y)%float = true ↔ rank_lt (sf_rank (Prim2SF x)) (sf_rank (Prim2SF y)).
Proof.
  intros Hx Hy. rewrite FloatAxioms.ltb_spec.
  apply SFltb_rank; by apply ordered_not_nan.
Qed.

(** [<] is asymmetric. *)
Lemma ltb_asym x y : (x <? y)%float = true → (y <? x)%float = false.
Proof.
  intros Hlt. destruct (ltb_ordered x y Hlt) as [Hx Hy].
  destruct (y <? x)%float eqn:Hyx; [|done].
  apply ltb_rank in Hlt, Hyx; try done.
  unfold rank_lt in *. lia.
Qed.

(** A number that is not a NaN lies on one side of any strict inequality. *)
Lemma ltb_split x y z :
  (x <? z)%float = true → ordered y →
  (x <? y)%float = true ∨ (y <? z)%float = true.
Proof.
  intros Hlt Hy. destruct (ltb_ordered x z Hlt) as [Hx Hz].
  apply ltb_rank in Hlt; try done.
  rewrite !ltb_rank by done. unfold rank_lt in *. lia.
Qed.

(** Negation reverses the order. *)
Lemma ltb_opp x y : (- x <? - y)%float = (y <? x)%float.
Proof.
  rewrite !FloatAxioms.ltb_spec, !FloatAxioms.opp_spec. unfold SFltb.
  destruct (Prim2SF x) as [[]|[]| |[] m1 e1], (Prim2SF y) as [[]|[]| |[] m2 e2];
    simpl; try done;
    change (Pos.compare_cont Eq ?a ?b) with (Pos.compare a b);
    rewrite (Z.compare_antisym e1 e2), (Pos.compare_antisym m1 m2);
    destruct (e1 ?= e2); simpl; try done; destruct (m1 ?= m2)%positive; done.
Qed.

Lemma ordered_opp x : ordered (- x) ↔ ordered x.
Proof.
  unfold ordered. rewrite !FloatAxioms.eqb_spec, !FloatAxioms.opp_spec.
  unfold SFeqb.
  destruct (Prim2SF x) as [[]|[]| |[] m e]; simpl; try done;
    rewrite ?Z.compare_refl; simpl;
    change (Pos.compare_cont Eq ?a ?b) with (Pos.compare a b);
    rewrite ?Pos.compare_refl; done.
Qed.

(** A number and its negation are zero together. *)
Lemma truthy_opp x : truthy (- x) = truthy x.
Proof.
  unfold truthy. rewrite !FloatAxioms.eqb_spec, FloatAxioms.opp_spec.
  f_equal. unfold SFeqb.
  replace (Prim2SF 0) with (S754_zero false) by (vm_compute; reflexivity).
  destruct (Prim2SF x) as [[]|[]| |[] m e]; done.
Qed.
(** ** Proofs: the stable sort *)

Section stable_sort.
Context {A : Type} (lt : A → A → bool) (pos : A → nat).

Lemma insert_by_Permutation x l : insert_by lt x l ≡ₚ x :: l.
Proof.
  induction l as [|y l IH]; simpl; [done|].
  destruct (lt y x); [|done]. rewrite IH. apply perm_swap.
Qed.

Lemma sorted_Permutation l : sorted lt l ≡ₚ l.
Proof.
  induction l as [|x l IH]; simpl; [done|].
  rewrite insert_by_Permutation. by constructor.
Qed.

Lemma sorted_length l : length (sorted lt l) = length l.
Proof. apply Permutation_length, sorted_Permutation. Qed.

Lemma insert_by_sorted x l :
  (∀ a b, lt a b = true → lt b a = false) →
  (∀ a b c, b ∈ l → lt a c = true → lt a b = true ∨ lt b c = true) →
  StronglySorted (may_precede lt pos) l →
  Forall (λ y, pos x < pos y)%nat l →
  StronglySorted (may_precede lt pos) (insert_by lt x l).
Proof.
  intros Hasym Hsplit Hs Hx. induction Hs as [|y l Hs IH Hy]; simpl.
  - by repeat constructor.
  - apply Forall_cons in Hx as [Hxy Hx].
    destruct (lt y x) eqn:Hyx.
    + constructor.
      * apply IH; [|done]. intros a b c Hb. apply Hsplit. by right.
      * rewrite insert_by_Permutation. constructor; [|done].
        split; [by apply Hasym|]. by rewrite Hyx.
    + constructor; [by constructor|]. constructor; [by split|].
      rewrite Forall_forall in Hy, Hx. apply Forall_forall. intros z Hz.
      destruct (Hy z Hz) as [Hzy _]. split; [|intros _; by apply Hx].
      destruct (lt z x) eqn:Hzx; [|done].
      destruct (Hsplit z y x ltac:(left) Hzx) as [E|E]; congruence.
Qed.

(** Sorting a list whose elements come in increasing order of [pos] puts
    them in an order where every element may precede all that follow it. *)
Lemma sorted_stable l :
  (∀ a b, lt a b = true → lt b a = false) →
  (∀ a b c, b ∈ l → lt a c = true → lt a b = true ∨ lt b c = true) →
  StronglySorted (λ a b, pos a < pos b)%nat l →
  StronglySorted (may_precede lt pos) (sorted lt l).
Proof.
  intros Hasym Hsplit Hl. induction Hl as [|x l Hl IH Hx]; simpl.
  - constructor.
  - apply insert_by_sorted; [done| | |].
    + intros a b c Hb. apply Hsplit. right. by rewrite <- sorted_Permutation.
    + apply IH. intros a b c Hb. apply Hsplit. by right.
    + by rewrite sorted_Permutation.
Qed.

End stable_sort.

Lemma insert_by_fmap {A B} (f : A → B) (lt : B → B → bool) x l :
  insert_by lt (f x) (f <$> l) = f <$> insert_by (λ a b, lt (f a) (f b)) x l.
Proof.
  induction l as [|y l IH]; csimpl; [done|].
  destruct (lt (f y) (f x)); csimpl; [|done]. by rewrite IH.
Qed.

Lemma sorted_fmap {A B} (f : A → B) (lt : B → B → bool) l :
  sorted lt (f <$> l) = f <$> sorted (λ a b, lt (f a) (f b)) l.
Proof.
  induction l as [|x l IH]; [done|].
  change (insert_by lt (f x) (sorted lt (f <$> l))
          = f <$> insert_by (λ a b, lt (f a) (f b)) x
                            (sorted (λ a b, lt (f a) (f b)) l)).
  by rewrite IH, insert_by_fmap.
Qed.

Lemma StronglySorted_lookup {A} (R : A → A → Prop) l i j x y :
  StronglySorted R l → (i < j)%nat → l !! i = Some x → l !! j = Some y → R x y.
Proof.
  intros Hs. revert i j. induction Hs as [|z l Hs IH Hz]; intros i j Hij Hi Hj;
    [done|].
  destruct j as [|j]; [lia|]. simpl in Hj. destruct i as [|i].
  - simpl in Hi. injection Hi as ->. rewrite Forall_forall in Hz.
    apply Hz. eapply list_elem_of_lookup_2, Hj.
  - simpl in Hi. apply (IH i j); [lia|done..].
Qed.

Lemma imap_index_sorted {A} (l : list A) c :
  StronglySorted (λ a b : nat * A, a.1 < b.1)%nat
                 (imap (λ i x, ((c + i)%nat, x)) l).
Proof.
  revert c. induction l as [|x l IH]; intros c; [constructor|].
  rewrite imap_cons. constructor.
  - erewrite imap_ext; [apply (IH (S c))|]. intros; simpl. f_equal. lia.
  - apply Forall_forall. intros [i y] Hin.
    apply list_elem_of_lookup in Hin as [k Hk].
    rewrite list_lookup_imap in Hk.
    destruct (l !! k); [|done]. simpl in *. injection Hk as <- <-. lia.
Qed.

(** ** Proofs: ordered mappings *)

Section ordered_dict.
Context {K V : Type} `{EqDecision K}.

Lemma od_set_keys (k : K) (v : V) d :
  (od_set k v d).*1 = if decide (k ∈ d.*1) then d.*1 else d.*1 ++ [k].
Proof.
  induction d as [|[k' v'] d IH]; csimpl.
  - destruct (decide (k ∈ [])) as [Hin|_]; [|done]. by apply elem_of_nil in Hin.
  - destruct (decide (k = k')) as [->|Hne]; csimpl.
    + destruct (decide (k' ∈ k' :: d.*1)) as [_|Hn]; [done|].
      exfalso. apply Hn. left.
    + rewrite IH. destruct (decide (k ∈ d.*1)) as [Hin|Hn].
      * destruct (decide (k ∈ k' :: d.*1)) as [_|Hn']; [done|].
        exfalso. apply Hn'. by right.
      * destruct (decide (k ∈ k' :: d.*1)) as [Hin'|_]; [|done].
        apply elem_of_cons in Hin' as [?|?]; done.
Qed.

Lemma od_set_elem (k : K) (v : V) d kv :
  kv ∈ od_set k v d → kv = (k, v) ∨ kv ∈ d.
Proof.
  induction d as [|[k' v'] d IH]; csimpl.
  - intros Hin. apply list_elem_of_singleton in Hin. by left.
  - destruct (decide (k = k')) as [->|Hne].
    + intros Hin. apply elem_of_cons in Hin as [->|Hin]; [by left|].
      right. by right.
    + intros Hin. apply elem_of_cons in Hin as [->|Hin]; [right; left|].
      destruct (IH Hin) as [->|?]; [by left|]. right. by right.
Qed.

Lemma OrderedDict_keys_from (pairs d : list (K * V)) :
  (foldl (λ d kv, od_set kv.1 kv.2 d) d pairs).*1
  = foldl (λ acc k, if decide (k ∈ acc) then acc else acc ++ [k]) d.*1 pairs.*1.
Proof.
  revert d. induction pairs as [|[k v] pairs IH]; intros d; csimpl; [done|].
  by rewrite IH, od_set_keys.
Qed.

(** The keys of an ordered mapping are the keys of its pairs, each once, in
    the order of their first occurrence. *)
Lemma OrderedDict_keys (pairs : list (K * V)) :
  (OrderedDict pairs).*1 = first_occurrences pairs.*1.
Proof. apply OrderedDict_keys_from. Qed.

Lemma first_occurrences_from (l acc : list K) :
  NoDup acc →
  NoDup (foldl (λ acc k, if decide (k ∈ acc) then acc else acc ++ [k]) acc l)
  ∧ (∀ k, k ∈ foldl (λ acc k, if decide (k ∈ acc) then acc else acc ++ [k]) acc l
          ↔ k ∈ acc ∨ k ∈ l)
  ∧ (length (foldl (λ acc k, if decide (k ∈ acc) then acc else acc ++ [k]) acc l)
     ≤ length acc + length l)%nat.
Proof.
  revert acc. induction l as [|x l IH]; intros acc Hacc; csimpl.
  - split; [done|]. split; [|lia]. intros k. rewrite elem_of_nil. tauto.
  - destruct (decide (x ∈ acc)) as [Hin|Hn].
    + destruct (IH acc Hacc) as (Hnd & Hel & Hlen).
      split; [done|]. split; [|lia]. intros k. rewrite Hel, elem_of_cons.
      split; [tauto|]. intros [?|[->|?]]; tauto.
    + destruct (IH (acc ++ [x])) as (Hnd & Hel & Hlen).
      { apply NoDup_app. split; [done|]. split; [|apply NoDup_singleton].
        intros y Hy Hy'. apply list_elem_of_singleton in Hy' as ->. done. }
      split; [done|]. split.
      * intros k. rewrite Hel, elem_of_app, list_elem_of_singleton, elem_of_cons.
        tauto.
      * rewrite length_app in Hlen. csimpl in Hlen. lia.
Qed.

Lemma first_occurrences_NoDup (l : list K) : NoDup (first_occurrences l).
Proof. apply (first_occurrences_from l []), NoDup_nil_2. Qed.

Lemma first_occurrences_elem (l : list K) k : k ∈ first_occurrences l ↔ k ∈ l.
Proof.
  unfold first_occurrences.
  destruct (first_occurrences_from l [] (NoDup_nil_2)) as (_ & Hel & _).
  rewrite Hel, elem_of_nil. tauto.
Qed.

Lemma first_occurrences_length (l : list K) :
  (length (first_occurrences l) ≤ length l)%nat.
Proof.
  destruct (first_occurrences_from l [] (NoDup_nil_2)) as (_ & _ & Hlen).
  csimpl in Hlen. done.
Qed.

Lemma OrderedDict_elem (pairs : list (K * V)) kv :
  kv ∈ OrderedDict pairs → kv ∈ pairs.
Proof.
  unfold OrderedDict.
  assert (∀ d, kv ∈ foldl (λ d kv, od_set kv.1 kv.2 d) d pairs →
               kv ∈ d ∨ kv ∈ pairs) as Hgen.
  { induction pairs as [|[k v] pairs IH]; intros d; csimpl; [by left|].
    intros Hin. destruct (IH _ Hin) as [Hd|Hp]; [|right; by right].
    destruct (od_set_elem _ _ _ _ Hd) as [->|?]; [right; left|by left]. }
  intros Hin. destruct (Hgen [] Hin) as [Hd|?]; [|done].
  by apply elem_of_nil in Hd.
Qed.

Lemma OrderedDict_length (pairs : list (K * V)) :
  (length (OrderedDict pairs) ≤ length pairs)%nat.
Proof.
  rewrite <- (length_fmap fst (OrderedDict pairs)), OrderedDict_keys.
  rewrite <- (length_fmap fst pairs). apply first_occurrences_length.
Qed.

End ordered_dict.
(** ** Proofs: ranking, for any scorer *)

Lemma traverse_Done {A B} (f : A → outcome B) l r :
  traverse f l = Done r → Forall2 (λ x y, f x = Done y) l r.
Proof.
  revert r. induction l as [|x l IH]; intros r; simpl.
  - intros [= <-]. constructor.
  - destruct (f x) as [y| |] eqn:Hx; simpl; try done.
    destruct (traverse f l) as [ys| |]; simpl; try done.
    intros [= <-]. constructor; [done|]. by apply IH.
Qed.

Lemma truncate_subseteq limit (l : list entry) : truncate limit l ⊆ l.
Proof.
  destruct limit as [k|]; simpl; [|done]. unfold py_del_from.
  apply subseteq_take.
Qed.

Lemma truncate_nonneg k (l : list entry) :
  0 ≤ k → truncate (Some k) l = take (Z.to_nat k) l.
Proof.
  intros Hk. simpl. unfold py_del_from.
  by destruct (Z.leb_spec 0 k); [|lia].
Qed.

Lemma to_mapping_keys (l : list entry) :
  (to_mapping l).*1 = first_occurrences (entry_item <$> nonzero l).
Proof.
  unfold to_mapping. rewrite OrderedDict_keys. f_equal.
  rewrite <- list_fmap_compose. done.
Qed.

Lemma to_mapping_NoDup (l : list entry) : NoDup (to_mapping l).*1.
Proof. rewrite to_mapping_keys. apply first_occurrences_NoDup. Qed.

Lemma to_mapping_key (l : list entry) item :
  item ∈ (to_mapping l).*1 ↔ ∃ e, e ∈ l ∧ truthy e.1.1 = true ∧ e.1.2 = item.
Proof.
  rewrite to_mapping_keys, first_occurrences_elem, list_elem_of_fmap.
  unfold nonzero. split.
  - intros (e & -> & He). apply list_elem_of_filter in He as [Ht He]. eauto.
  - intros (e & He & Ht & <-). exists e. split; [done|].
    apply list_elem_of_filter. done.
Qed.

Lemma to_mapping_elem (l : list entry) item ps :
  (item, ps) ∈ to_mapping l →
  ∃ key, (key, item, ps) ∈ l ∧ truthy key = true.
Proof.
  unfold to_mapping. intros Hin. apply OrderedDict_elem in Hin.
  apply list_elem_of_fmap in Hin as ([[key item'] ps'] & [= -> ->] & He).
  apply list_elem_of_filter in He as [Ht He]. eauto.
Qed.

Lemma to_mapping_length (l : list entry) :
  (length (to_mapping l) ≤ length (nonzero l))%nat.
Proof.
  unfold to_mapping. etrans; [apply OrderedDict_length|].
  by rewrite length_fmap.
Qed.

Section ranking.
Context {E : Externals} {Sc : Type} {SC : Scorer Sc}.

(** A call that returns a mapping has sorted one entry per candidate and
    built the mapping from the sorted list; the cut at [limit] is the only
    place where [limit] is used, and the sort keys are cached. *)
Lemma Matcher_call_Done (self : Matcher Sc) pool arrival query limit m self'
    pool' :
  Matcher_call self pool arrival query limit = (Done m, self', pool') →
  ∃ scores positions l,
    sorted_entries (m_items self) scores positions = Done l
    ∧ m = to_mapping (truncate limit l)
    ∧ is_Some (sort_keys self')
    ∧ ∀ limit', (Matcher_call self pool arrival query limit').1.1
                = Done (to_mapping (truncate limit' l)).
Proof.
  unfold Matcher_call.
  destruct (collect _ _ _ _ ∅ ∅ None) as [[r scs] queue].
  destruct r as [[[scores positions] [x|]]| |]; simpl; try done.
  unfold rank.
  destruct (sorted_entries (m_items self) scores positions) as [l| |] eqn:Hl;
    simpl; try done.
  intros [= <- <- <-]. exists scores, positions, l.
  split; [done|]. split; [done|]. split; [|done].
  simpl. destruct (sort_keys self); eauto.
Qed.

Lemma sorted_entries_Done its scores positions l :
  sorted_entries its scores positions = Done l →
  ∃ ents,
    l = sorted key_lt ents
    ∧ Forall2 (λ '(i, item) e, ∃ sc ps,
          scores !! i = Some sc ∧ positions !! i = Some ps
          ∧ e = ((- sc)%float, item, ps))
        (imap (λ i item, (i, item)) its) ents.
Proof.
  unfold sorted_entries.
  destruct (traverse _ _) as [ents| |] eqn:Ht; simpl; try done.
  intros [= <-]. exists ents. split; [done|].
  apply traverse_Done in Ht. eapply Forall2_impl; [exact Ht|].
  intros [i item] e. simpl. unfold py_getitem.
  destruct (scores !! i) as [sc|]; simpl; [|done].
  destruct (positions !! i) as [ps|]; simpl; [|done].
  intros [= <-]. eauto.
Qed.

Lemma sorted_entries_items its scores positions l :
  sorted_entries its scores positions = Done l →
  entry_item <$> l ≡ₚ its ∧ length l = length its.
Proof.
  intros Hl. destruct (sorted_entries_Done _ _ _ _ Hl) as (ents & -> & Hents).
  assert (entry_item <$> ents = its) as Hits.
  { clear Hl.
    assert (∀ (g : nat → nat) ents,
      Forall2 (λ '(i, item) e, ∃ sc ps,
          scores !! i = Some sc ∧ positions !! i = Some ps
          ∧ e = ((- sc)%float, item, ps))
        (imap (λ i item, (g i, item)) its) ents →
      entry_item <$> ents = its) as Hgen.
    { clear. induction its as [|item its IH]; intros g ents Hents.
      - inversion Hents. done.
      - rewrite imap_cons in Hents.
        inversion Hents as [|? e ? ents' He Hrest]; subst.
        destruct He as (sc & ps & _ & _ & ->). csimpl. f_equal.
        apply (IH (g ∘ S) ents'). exact Hrest. }
    apply (Hgen id). exact Hents. }
  split.
  - rewrite sorted_Permutation. by rewrite Hits.
  - rewrite sorted_length, <- Hits, length_fmap. done.
Qed.

End ranking.

Lemma NoDup_fst_functional {K V} (l : list (K * V)) k v1 v2 :
  NoDup l.*1 → (k, v1) ∈ l → (k, v2) ∈ l → v1 = v2.
Proof.
  induction l as [|[k' v'] l IH]; csimpl; intros Hnd H1 H2.
  - by apply elem_of_nil in H1.
  - apply NoDup_cons in Hnd as [Hk Hnd].
    apply elem_of_cons in H1 as [E1|H1]; apply elem_of_cons in H2 as [E2|H2];
      simplify_eq; try done.
    + exfalso. apply Hk. apply list_elem_of_fmap. by exists (k', v2).
    + exfalso. apply Hk. apply list_elem_of_fmap. by exists (k', v1).
    + by apply IH.
Qed.


(** C9: every occurrence of a candidate string has its own slot in the
    score-sorted list, and so in the list cut at [limit]; the mapping is
    keyed by the string, so it holds at most one entry for a string, exactly
    one for a string that has a non-zero entry in the cut list.  So the
    mapping can have fewer entries than there are candidates with a non-zero
    score ("a", "a", "ab" on the query "a": two entries for three), and the
    occurrences of one string use up the limit while giving one entry (with
    [limit = 2] the two "a" leave no slot for "ab"). *)
Theorem duplicates_share_one_entry :
  (∀ (E : Externals) (Sc : Type) (SC : Scorer Sc) (self : Matcher Sc) pool
     arrival query limit m self' pool',
     Matcher_call self pool arrival query limit = (Done m, self', pool') →
     ∃ scores positions l,
       sorted_entries (m_items self) scores positions = Done l
       ∧ length l = length (m_items self)
       ∧ entry_item <$> l ≡ₚ m_items self
       ∧ m = to_mapping (truncate limit l)
       ∧ NoDup m.*1
       ∧ (∀ item ps1 ps2, (item, ps1) ∈ m → (item, ps2) ∈ m → ps1 = ps2)
       ∧ (∀ e, e ∈ truncate limit l → truthy e.1.1 = true →
               ∃ ps, (e.1.2, ps) ∈ m)
       ∧ (length m ≤ length (nonzero (truncate limit l)))%nat)
  ∧ (let E := ascii_externals in
     ∃ self pool m m2,
       Matcher_init 1 empty_pool [s "a"; s "a"; s "ab"] = (Done self, pool)
       ∧ Forall (λ item, ∃ sc ps, score_item item (s "a") = Done (sc, ps)
                                  ∧ truthy sc = true) (m_items self)
       ∧ (Matcher_call self pool [0%nat] (s "a") None).1.1 = Done m
       ∧ m.*1 = [s "a"; s "ab"]
       ∧ (length m < length (m_items self))%nat
       ∧ (Matcher_call self pool [0%nat] (s "a") (Some 2)).1.1 = Done m2
       ∧ m2.*1 = [s "a"]).
Proof.
  split.
  - intros E Sc SC self pool arrival query limit m self' pool' Hcall.
    destruct (Matcher_call_Done _ _ _ _ _ _ _ _ Hcall)
      as (scores & positions & l & Hl & Hm & _ & _).
    destruct (sorted_entries_items _ _ _ _ Hl) as [Hperm Hlen].
    exists scores, positions, l. split; [done|]. split; [done|].
    split; [done|]. split; [done|].
    assert (NoDup m.*1) as Hnd by (subst m; apply to_mapping_NoDup).
    split; [done|]. split; [|split].
    + intros item ps1 ps2. by apply NoDup_fst_functional.
    + intros e He Ht.
      assert (e.1.2 ∈ m.*1) as Hin by (subst m; apply to_mapping_key; eauto).
      apply list_elem_of_fmap in Hin as ([item ps] & Hi & Hin).
      simpl in Hi. subst item. eauto.
    + subst m. apply to_mapping_length.
  - intros E. eexists _, _, _, _. split; [vm_compute; reflexivity|].
    split; [|split; [vm_compute; reflexivity|]].
    + repeat constructor; eexists _, _; (split; [vm_compute; reflexivity|]);
        vm_compute; reflexivity.
    + split; [vm_compute; reflexivity|].
      split; [simpl; lia|].
      split; vm_compute; reflexivity.
Qed.

Section ranking_witnesses.
#[local] Existing Instance ascii_externals.


Lemma duplicates_share_one_entry_witness :
  ∃ m, (Matcher_call demo_matcher demo_pool [0; 1]%nat (s "one") None).1.1
       = Done m
       ∧ NoDup m.*1.
Proof.
  destruct (Matcher_call demo_matcher demo_pool [0; 1]%nat (s "one") None)
    as [[r self'] pool'] eqn:Hcall.
  assert (∃ m, r = Done m) as [m ->].
  { apply (f_equal (λ x, x.1.1)) in Hcall. vm_compute in Hcall.
    eexists. symmetry. exact Hcall. }
  exists m. split; [done|].
  destruct (proj1 duplicates_share_one_entry _ _ _ demo_matcher demo_pool
              [0; 1]%nat (s "one") None m self' pool' Hcall)
    as (_ & _ & _ & _ & _ & _ & _ & Hnd & _).
  exact Hnd.
Defined.

End ranking_witnesses.
(** ** Proofs: the order of the ranking *)

Lemma Matcher_call_sort_key (E : Externals) (Sc : Type) (SC : Scorer Sc) f
    (self : Matcher Sc) pool arrival query limit :
  (@Matcher_call (with_sort_key E f) Sc SC self pool arrival query limit).1.1
  = (@Matcher_call E Sc SC self pool arrival query limit).1.1.
Proof.
  unfold Matcher_call. simpl.
  change (@normalize_nfc (with_sort_key E f)) with (@normalize_nfc E).
  change (@Worker_run (with_sort_key E f) Sc SC) with (@Worker_run E Sc SC).
  destruct (collect _ _ _ _ ∅ ∅ None) as [[r scs] queue]. done.
Qed.

(** The reference scorer does not look at the sort key either. *)
Lemma PyScorer_sort_key (E : Externals) f :
  @PyScorer_Scorer (with_sort_key E f) = @PyScorer_Scorer E.
Proof. reflexivity. Qed.

Lemma imap_pairs_fst {A} (l : list A) :
  (imap (λ i x, (i, x)) l).*1 = seq 0 (length l).
Proof. rewrite <- (imap_pair_fst 0 l). f_equal. Qed.

Lemma imap_pairs_snd {A} (l : list A) : (imap (λ i x, (i, x)) l).*2 = l.
Proof. apply (imap_pair_snd id). Qed.

Lemma imap_pairs_sorted {A} (l : list A) :
  StronglySorted (λ a b : nat * A, a.1 < b.1)%nat (imap (λ i x, (i, x)) l).
Proof. apply (imap_index_sorted l 0). Qed.

Lemma imap_pairs_elem {A} (l : list A) i x :
  (i, x) ∈ imap (λ i x, (i, x)) l ↔ l !! i = Some x.
Proof.
  rewrite list_elem_of_lookup. split.
  - intros [k Hk]. rewrite list_lookup_imap in Hk.
    destruct (l !! k) eqn:E; [|done]. simpl in Hk. by simplify_eq.
  - intros Hi. exists i. by rewrite list_lookup_imap, Hi.
Qed.


Section order_witness.
#[local] Existing Instance ascii_externals.


End order_witness.
(** ** Proofs: candidates that score 0 are left out *)

Section zero_score.
Context `{Externals}.

Lemma score_item_unplaceable item needle :
  item ≠ [] → needle ≠ [] → is_subsequence needle item = false →
  ∃ ps, score_item item needle = Done (0%float, ps).
Proof.
  intros Hi Hn Hsub. unfold score_item.
  destruct (item_max_score_nonempty item needle Hi Hn) as [m ->]. simpl.
  destruct (process_item_unplaceable true
              (with_memory (PyScorer_init []) m (Some ∅)) item needle
              eq_refl Hsub) as (ps & ctx' & Hrun).
  unfold process_item. rewrite Hrun. simpl. eauto.
Qed.

Lemma reference_entries_elem its needle l e :
  reference_entries its needle = Done l → e ∈ l →
  ∃ sc, score_item e.1.2 needle = Done (sc, e.2) ∧ e.1.1 = (- sc)%float
        ∧ e.1.2 ∈ its.
Proof.
  unfold reference_entries.
  destruct (traverse _ its) as [ents| |] eqn:Ht; simpl; try done.
  intros [= <-] He. rewrite sorted_Permutation in He.
  apply traverse_Done in Ht.
  apply list_elem_of_lookup in He as [k Hk].
  destruct (Forall2_lookup_r _ _ _ _ _ Ht Hk) as (item & Hitem & Hrun).
  destruct (score_item item needle) as [[sc ps]| |] eqn:Hs; simpl in Hrun;
    try done.
  injection Hrun as <-. simpl. exists sc. split; [done|]. split; [done|].
  eapply list_elem_of_lookup_2, Hitem.
Qed.

End zero_score.


Section zero_witness.
#[local] Existing Instance ascii_externals.


End zero_witness.
(** ** Proofs: the order of collection does not matter *)

Section collect_any.
Context {E : Externals} {Sc : Type} {SC : Scorer Sc}.

Lemma consume_consumable (tm : gmap nat nat) :
  ∀ (g : gen Sc (float * list Z)) i scores positions x,
    (consume tm i g scores positions).1 = Done x → consumable tm i g.
Proof.
  induction g as [r st|[sc ps] st rest IH]; intros i scores positions x; simpl.
  - destruct r as [[]| |]; done.
  - destruct (tm !! i) as [item|] eqn:Hi; [|done].
    intros Hrun. split; [eauto|]. eapply IH, Hrun.
Qed.

(** Iterating a generator for the partition that starts at the global index
    [base] writes its [j]-th value at [base + j] and nothing else. *)
Lemma consume_lookup (tm : gmap nat nat) base :
  (∀ j g, tm !! j = Some g → g = (base + j)%nat) →
  ∀ (g : gen Sc (float * list Z)) i scores positions,
    consumable tm i g →
    ∃ scores' positions',
      consume tm i g scores positions = (Done (scores', positions'), gen_final g)
      ∧ ∀ k,
          scores' !! k
          = (if decide (base + i ≤ k < base + i + length (gen_values g))%nat
             then fst <$> gen_values g !! (k - (base + i))%nat
             else scores !! k)
          ∧ positions' !! k
            = (if decide (base + i ≤ k < base + i + length (gen_values g))%nat
               then snd <$> gen_values g !! (k - (base + i))%nat
               else positions !! k).
Proof.
  intros Htm. induction g as [r st|[sc ps] st rest IH];
    intros i scores positions Hc; simpl in *.
  - subst r. exists scores, positions. split; [done|]. intros k.
    destruct (decide _); [lia|done].
  - destruct Hc as [[item Hi] Hc]. rewrite Hi.
    pose proof (Htm _ _ Hi) as ->.
    destruct (IH (S i) (<[(base + i)%nat := sc]> scores)
                 (<[(base + i)%nat := ps]> positions) Hc)
      as (scores' & positions' & -> & Hlook).
    exists scores', positions'. split; [done|]. intros k.
    destruct (Hlook k) as [Hs Hp]. rewrite Hs, Hp. clear Hs Hp Hlook.
    destruct (decide (base + S i ≤ k < base + S i + length (gen_values rest))%nat)
      as [Hin|Hout].
    + destruct (decide (base + i ≤ k < base + i + S (length (gen_values rest)))%nat);
        [|lia].
      replace (k - (base + i))%nat with (S (k - (base + S i))) by lia. done.
    + destruct (decide (k = (base + i)%nat)) as [->|Hne].
      * rewrite !lookup_insert_eq.
        destruct (decide _); [|lia].
        replace (base + i - (base + i))%nat with 0%nat by lia. done.
      * rewrite !lookup_insert_ne by done.
        destruct (decide _); [lia|done].
Qed.

Lemma consumable_length {A} (p : list (nat * A)) :
  ∀ (g : gen Sc (float * list Z)) i,
    consumable (task_map_of p) i g →
    (length (gen_values g) = 0 ∨ i + length (gen_values g) ≤ length p)%nat.
Proof.
  induction g as [r st|v st rest IH]; intros i Hc; simpl in *; [by left|].
  destruct Hc as [[item Hi] Hc]. right.
  rewrite task_map_of_lookup in Hi.
  destruct (p !! i) eqn:Hp; [|done]. apply lookup_lt_Some in Hp.
  destruct (IH (S i) Hc); lia.
Qed.

(** A call that collects without an error has read one success entry per
    partition, each with a generator that could be iterated to its end. *)
Lemma collect_Done_inv maps :
  ∀ num queue scs scores positions error scores' positions' scs' queue',
    collect num queue maps scs scores positions error
      = (Done (scores', positions', None), scs', queue') →
    error = None
    ∧ ∃ used, queue = used ++ queue' ∧ length used = num
        ∧ Forall (λ r, ∃ t (g : gen Sc (float * list Z)) tm,
                    r = Success t g ∧ maps !! t = Some tm
                    ∧ consumable tm 0 g) used.
Proof.
  induction num as [|num IH];
    intros queue scs scores positions error scores' positions' scs' queue';
    simpl.
  - intros [= <- <- <- <- <-]. split; [done|]. exists []. done.
  - destruct queue as [|[t g|x] queue]; [done| |].
    + destruct (maps !! t) as [tm|] eqn:Hm; [|done].
      destruct (consume tm 0 g scores positions) as [[[sc1 ps1]| |] st] eqn:Hc;
        try done.
      intros Hrun. destruct (IH _ _ _ _ _ _ _ _ _ Hrun)
        as (-> & used & -> & Hlen & Hused).
      split; [done|]. exists (Success t g :: used). simpl.
      split; [done|]. split; [by rewrite Hlen|]. constructor; [|done].
      exists t, g, tm. split; [done|]. split; [done|].
      eapply (consume_consumable tm g 0 scores positions). by rewrite Hc.
    + intros Hrun. by destruct (IH _ _ _ _ _ _ _ _ _ Hrun) as (? & _).
Qed.

End collect_any.
Section order_independence.
Context {E : Externals} {Sc : Type} {SC : Scorer Sc}.

Lemma collected_step (its : list pystr) W tasks (entries : list (wresult Sc))
    T t vals p scores positions scores' positions' :
  (1 ≤ W)%nat → split its W = Done tasks →
  entries !! t = Some (Success t vals) → tasks !! t = Some p →
  consumable (task_map_of p) 0 vals →
  collected (ceil_div (length its) W) entries T scores positions →
  (∀ k,
     scores' !! k
     = (if decide (t * ceil_div (length its) W + 0 ≤ k
                   < t * ceil_div (length its) W + 0 + length (gen_values vals))%nat
        then fst <$> gen_values vals
                       !! (k - (t * ceil_div (length its) W + 0))%nat
        else scores !! k)
     ∧ positions' !! k
       = (if decide (t * ceil_div (length its) W + 0 ≤ k
                     < t * ceil_div (length its) W + 0 + length (gen_values vals))%nat
          then snd <$> gen_values vals
                         !! (k - (t * ceil_div (length its) W + 0))%nat
          else positions !! k)) →
  collected (ceil_div (length its) W) entries (t :: T) scores' positions'.
Proof.
  intros HW Hs Hent Hp Hc Hcol Hlook.
  set (delta := ceil_div (length its) W) in *.
  destruct (split_partitions its W HW) as (parts & Hs' & _ & _ & _ & Hparts).
  rewrite Hs in Hs'. injection Hs' as <-.
  destruct (Hparts t p Hp) as (Hlen & _). fold delta in Hlen.
  pose proof (consumable_length p vals 0 Hc) as Hn.
  assert (∀ k, (k / delta)%nat = t →
               expected delta entries k = gen_values vals !! (k mod delta)%nat)
    as Hexp.
  { intros k Hk. unfold expected. by rewrite Hk, Hent. }
  intros k. destruct (Hlook k) as [-> ->]. clear Hlook.
  destruct (Hcol k) as [Hsc Hps].
  destruct (decide (t * delta + 0 ≤ k < t * delta + 0 + length (gen_values vals))%nat)
    as [Hin|Hout].
  - assert ((k / delta)%nat = t ∧ (k mod delta)%nat = (k - (t * delta + 0))%nat)
      as [Hd Hm].
    { assert (k = delta * t + (k - (t * delta + 0)))%nat as Hk by lia.
      split; symmetry.
      - apply (Nat.div_unique k delta t (k - (t * delta + 0))); lia.
      - apply (Nat.mod_unique k delta t (k - (t * delta + 0))); lia. }
    rewrite (Hexp k Hd), Hm.
    destruct (decide ((k / delta)%nat ∈ t :: T)) as [_|Hn']; [done|].
    exfalso. apply Hn'. rewrite Hd. left.
  - rewrite Hsc, Hps.
    destruct (decide ((k / delta)%nat = t)) as [Hd|Hd].
    + assert (gen_values vals !! (k mod delta)%nat = None) as Hnone.
      { apply lookup_ge_None.
        pose proof (Nat.div_mod k delta ltac:(lia)) as Hdm.
        rewrite Hd in Hdm. lia. }
      rewrite (Hexp k Hd), Hnone.
      destruct (decide (_ ∈ T)); destruct (decide (_ ∈ t :: T)); done.
    + destruct (decide ((k / delta)%nat ∈ T)) as [HT|HT];
        destruct (decide ((k / delta)%nat ∈ t :: T)) as [HT'|HT']; try done.
      * exfalso. apply HT'. by right.
      * exfalso. apply elem_of_cons in HT' as [?|?]; done.
Qed.

(** A queue of good entries is collected to the end, and the tables then
    hold what the partitions of the queue, and those collected before,
    have yielded. *)
Lemma collect_any_ok (its : list pystr) W tasks (entries : list (wresult Sc)) :
  (1 ≤ W)%nat → split its W = Done tasks →
  ∀ queue T scs scores positions,
    Forall (entry_good tasks entries) queue →
    collected (ceil_div (length its) W) entries T scores positions →
    ∃ scores' positions' scs',
      collect (length queue) queue (task_map_of <$> tasks) scs scores positions
              None
        = (Done (scores', positions', None), scs', [])
      ∧ collected (ceil_div (length its) W) entries
                  (reverse (omap entry_task queue) ++ T) scores' positions'.
Proof.
  intros HW Hs. induction queue as [|r queue IH];
    intros T scs scores positions Hq Hcol.
  - exists scores, positions, scs. done.
  - apply Forall_cons in Hq as [(t & vals & p & -> & Hent & Hp & Hc) Hq].
    simpl. rewrite list_lookup_fmap, Hp. simpl.
    assert (∀ j g, task_map_of p !! j = Some g
                   → g = (t * ceil_div (length its) W + j)%nat) as Hshape.
    { intros j g Hj.
      destruct (split_partitions its W HW) as (parts & Hs' & _ & _ & _ & Hparts).
      rewrite Hs in Hs'. injection Hs' as <-.
      destruct (Hparts t p Hp) as (_ & _ & _ & _ & Hmap).
      apply Hmap in Hj. tauto. }
    destruct (consume_lookup (Sc := Sc) (task_map_of p) _ Hshape vals 0%nat
                scores positions Hc)
      as (scores1 & positions1 & -> & Hlook).
    destruct (IH (t :: T) (<[t := gen_final vals]> scs) scores1 positions1 Hq)
      as (scores' & positions' & scs' & Hrun & Hcol').
    { eapply collected_step; eauto. }
    exists scores', positions', scs'. split; [done|].
    rewrite reverse_cons, <- app_assoc. done.
Qed.

Lemma Worker_run_index (t : nat) (sc : Sc) query i vals :
  Worker_run (t, sc, query) = Success i vals → i = t.
Proof.
  unfold Worker_run. destruct (scorer_call sc query); [done|].
  by intros [= -> _].
Qed.

Lemma omap_length_le {A B} (f : A → option B) l :
  (length (omap f l) ≤ length l)%nat.
Proof.
  induction l as [|x l IH]; csimpl; [done|].
  destruct (f x); csimpl; lia.
Qed.

Lemma omap_full {A B} (f : A → option B) l :
  length (omap f l) = length l → Forall (λ x, is_Some (f x)) l.
Proof.
  induction l as [|x l IH]; csimpl; [constructor|].
  destruct (f x) as [y|] eqn:Hx; csimpl.
  - intros [= Hlen]. constructor; [by rewrite Hx|]. by apply IH.
  - intros Hlen. pose proof (omap_length_le f l) as Hle. lia.
Qed.

End order_independence.

Section any_order.
Context {E : Externals} {Sc : Type} {SC : Scorer Sc}.

Lemma queue_good tasks (entries : list (wresult Sc)) (a : list nat) :
  (∀ t, t ∈ a → ∃ vals p, entries !! t = Some (Success t vals)
                          ∧ tasks !! t = Some p
                          ∧ consumable (task_map_of p) 0 vals) →
  Forall (entry_good tasks entries) (omap (λ t, entries !! t) a)
  ∧ length (omap (λ t, entries !! t) a) = length a
  ∧ ∀ t, t ∈ omap entry_task (omap (λ t, entries !! t) a) ↔ t ∈ a.
Proof.
  induction a as [|t a IH]; intros Ha; csimpl.
  - split; [constructor|]. split; [done|]. intros t. done.
  - destruct (Ha t) as (vals & p & Hent & Hp & Hc); [left|].
    destruct IH as (Hgood & Hlen & Hmem).
    { intros t' Ht'. apply Ha. by right. }
    rewrite Hent. csimpl. split; [|split].
    + constructor; [|done]. exists t, vals, p. done.
    + by rewrite Hlen.
    + intros t'. rewrite !elem_of_cons, Hmem. done.
Qed.

Lemma collected_empty delta (entries : list (wresult Sc)) :
  collected delta entries [] ∅ ∅.
Proof.
  intros g. rewrite !lookup_empty.
  destruct (decide (_ ∈ [])) as [Hin|_]; [|done]. by apply elem_of_nil in Hin.
Qed.

Lemma collected_agree delta (entries : list (wresult Sc)) T1 T2
    scores1 positions1 scores2 positions2 :
  (∀ t, t ∈ T1 ↔ t ∈ T2) →
  collected delta entries T1 scores1 positions1 →
  collected delta entries T2 scores2 positions2 →
  scores1 = scores2 ∧ positions1 = positions2.
Proof.
  intros HT H1 H2.
  assert (∀ g, scores1 !! g = scores2 !! g ∧ positions1 !! g = positions2 !! g)
    as Hall.
  { intros g. destruct (H1 g) as [E1 E1']. destruct (H2 g) as [E2 E2'].
    rewrite E1, E1', E2, E2'.
    destruct (decide (_ ∈ T1)) as [Hin|Hn];
      destruct (decide (_ ∈ T2)) as [Hin'|Hn']; try done; exfalso.
    - apply Hn'. by apply HT.
    - apply Hn. by apply HT. }
  split; apply map_eq; intros g; apply Hall.
Qed.

(** For any scorer: when the partitions of a well-partitioned matcher report
    in one order and the call returns a mapping, it returns the same mapping
    when they report in any other order. *)
Lemma Matcher_call_any_order W tasks (self : Matcher Sc) pool
    (a1 a2 : list nat) query limit m self1 pool1 :
  (1 ≤ W)%nat → split (m_items self) W = Done tasks →
  task_maps self = task_map_of <$> tasks → results pool = [] →
  a1 ≡ₚ seq 0 (length (task_maps self)) →
  a2 ≡ₚ seq 0 (length (task_maps self)) →
  Matcher_call self pool a1 query limit = (Done m, self1, pool1) →
  (Matcher_call self pool a2 query limit).1.1 = Done m.
Proof.
  intros HW Hs Hmaps Hq Ha1 Ha2 Hcall.
  unfold Matcher_call in *. rewrite Hq in *. simpl app in *.
  set (requests := imap (λ i scorer, (i, scorer, normalize_nfc query))
                        (scorers self)) in *.
  set (entries := Worker_run <$> requests).
  assert (Hf : ∀ a : list nat,
    omap (λ t, Worker_run <$> requests !! t) a = omap (λ t, entries !! t) a).
  { intros a. apply list_omap_ext, Forall_Forall2_diag, Forall_forall.
    intros t _. unfold entries. by rewrite list_lookup_fmap. }
  rewrite !Hf in *. rewrite Hmaps in *. rewrite length_fmap in *.
  set (maps := task_map_of <$> tasks) in *.
  set (delta := ceil_div (length (m_items self)) W).
  destruct (collect (length tasks) (omap (λ t, entries !! t) a1) maps
              (scorers self) ∅ ∅ None) as [[r scs1] q1] eqn:Hc1.
  destruct r as [[[scores1 positions1] [x|]]| |]; simpl in Hcall; try done.
  destruct (collect_Done_inv _ _ _ _ _ _ _ _ _ _ _ Hc1)
    as (_ & used & Hused & Hlen & Hgood).
  pose proof (omap_length_le (λ t, entries !! t) a1) as Hle.
  pose proof (Permutation_length Ha1) as Hl1. rewrite length_seq in Hl1.
  pose proof (Permutation_length Ha2) as Hl2. rewrite length_seq in Hl2.
  assert (q1 = [] ∧ length (omap (λ t, entries !! t) a1) = length a1)
    as [-> Hfull].
  { rewrite Hused, length_app in Hle |- *. destruct q1; simpl in *; [|lia].
    split; [done|]. lia. }
  rewrite app_nil_r in Hused. subst used.
  apply omap_full in Hfull.
  pose proof (proj1 (Forall_forall _ _) Hfull) as Hfull'.
  pose proof (proj1 (Forall_forall _ _) Hgood) as Hgood'.
  clear Hfull Hgood.
  assert (Hall : ∀ t, (t < length tasks)%nat →
    ∃ vals p, entries !! t = Some (Success t vals) ∧ tasks !! t = Some p
              ∧ consumable (task_map_of p) 0 vals).
  { intros t Ht.
    assert (t ∈ a1) as Hin by (rewrite Ha1; apply elem_of_seq; lia).
    destruct (Hfull' t Hin) as [r Hr].
    destruct (Hgood' r) as (t' & vals & tm & -> & Hm & Hc).
    { apply list_elem_of_omap. eauto. }
    assert (t' = t) as ->.
    { unfold entries, requests in Hr.
      rewrite list_lookup_fmap, list_lookup_imap in Hr.
      destruct (scorers self !! t) as [sc|]; [|done]. simpl in Hr.
      injection Hr as Hr. by apply Worker_run_index in Hr. }
    destruct (lookup_lt_is_Some_2 tasks t Ht) as [p Hp].
    unfold maps in Hm. rewrite list_lookup_fmap, Hp in Hm.
    injection Hm as <-. eauto. }
  assert (Hin : ∀ a : list nat, a ≡ₚ seq 0 (length tasks) →
    ∀ t, t ∈ a → ∃ vals p, entries !! t = Some (Success t vals)
                           ∧ tasks !! t = Some p
                           ∧ consumable (task_map_of p) 0 vals).
  { intros a Ha t Ht. apply Hall. rewrite Ha in Ht.
    apply elem_of_seq in Ht. lia. }
  destruct (queue_good tasks entries a1 (Hin a1 Ha1)) as (Hg1 & Hlen1 & Hmem1).
  destruct (queue_good tasks entries a2 (Hin a2 Ha2)) as (Hg2 & Hlen2 & Hmem2).
  destruct (collect_any_ok (m_items self) W tasks entries HW Hs _ []
              (scorers self) ∅ ∅ Hg1 (collected_empty _ _))
    as (s1 & p1 & scs1' & Hrun1 & Hcol1).
  destruct (collect_any_ok (m_items self) W tasks entries HW Hs _ []
              (scorers self) ∅ ∅ Hg2 (collected_empty _ _))
    as (s2 & p2 & scs2' & Hrun2 & Hcol2).
  rewrite Hlen1, Hl1 in Hrun1. rewrite Hlen2, Hl2 in Hrun2.
  fold maps in Hrun1, Hrun2. rewrite Hc1 in Hrun1.
  injection Hrun1 as <- <- <-. rewrite Hrun2. simpl.
  assert (∀ t,
    t ∈ reverse (omap entry_task (omap (λ t, entries !! t) a1)) ++ []
    ↔ t ∈ reverse (omap entry_task (omap (λ t, entries !! t) a2)) ++ [])
    as Hsame.
  { intros t.
    rewrite !app_nil_r, !elem_of_reverse, Hmem1, Hmem2, Ha1, Ha2. done. }
  destruct (collected_agree delta entries _ _ _ _ _ _ Hsame Hcol1 Hcol2)
    as [-> ->].
  by injection Hcall as ->.
Qed.

End any_order.

(** [Matcher.__init__] partitions the candidates whatever the scorer. *)
Lemma Matcher_init_partitioned {E : Externals} {Sc : Type} {SC : Scorer Sc}
    cpu_count (pool : Pool Sc) its :
  ∃ (self : Matcher Sc) pool' tasks,
    Matcher_init cpu_count pool its = (Done self, pool')
    ∧ (1 ≤ workers pool')%nat
    ∧ split (m_items self) (workers pool') = Done tasks
    ∧ task_maps self = task_map_of <$> tasks
    ∧ results pool' = results pool.
Proof.
  unfold Matcher_init.
  assert (1 ≤ workers (start_workers cpu_count pool)
          ∧ results (start_workers cpu_count pool) = results pool)%nat
    as [HW Hres].
  { unfold start_workers. destruct (decide (workers pool = 0%nat)); simpl.
    - split; [lia|done].
    - split; [lia|done]. }
  set (pool' := start_workers cpu_count pool) in *.
  set (its' := map normalize_nfc (filter (λ x, x ≠ []) its)).
  destruct (split_partitions its' (workers pool') HW) as (tasks & Hs & _).
  rewrite Hs. simpl. eexists _, pool', tasks. split; [done|]. done.
Qed.


Section determinism_witness.
#[local] Existing Instance ascii_externals.


End determinism_witness.
(** ** Proofs: the search without the memo table visits every placement *)

Section exhaustive.
Context `{Externals}.

Lemma valid_placement_fits haystack needle from ps :
  valid_placement haystack needle from ps = true →
  needle = [] ∨ from + len needle ≤ len haystack.
Proof.
  revert from ps. induction needle as [|n needle IH]; intros from ps;
    [by left|].
  destruct ps as [|p ps]; simpl; [done|]. intros Hv. right.
  apply andb_prop in Hv as [Hv Hrest]. apply andb_prop in Hv as [Hv _].
  apply andb_prop in Hv as [Hfrom Hlt].
  apply Z.leb_le in Hfrom. apply Z.ltb_lt in Hlt.
  destruct (IH _ _ Hrest) as [->|Hle]; unfold len in *; simpl in *; lia.
Qed.

Lemma find_from_none n hay i c :
  find_from n hay i = -1 → 0 ≤ i → c ∈ hay → primary_eq n c = false.
Proof.
  revert i. induction hay as [|c' hay IH]; intros i Hf Hi Hc;
    [by apply elem_of_nil in Hc|].
  simpl in Hf. destruct (primary_eq n c') eqn:Hn; [lia|].
  apply elem_of_cons in Hc as [->|Hc]; [done|]. apply (IH (i + 1)); [done|lia|done].
Qed.

Lemma find_from_first n hay i j c :
  0 ≤ i → find_from n hay i ≠ -1 →
  (j < Z.to_nat (find_from n hay i - i))%nat → hay !! j = Some c →
  primary_eq n c = false.
Proof.
  revert i j. induction hay as [|c' hay IH]; intros i j Hi Hf Hj Hc; [done|].
  simpl in *. destruct (primary_eq n c') eqn:Hn.
  - rewrite Z.sub_diag in Hj. simpl in Hj. lia.
  - destruct j as [|j]; simpl in Hc; [by injection Hc as <-|].
    apply (IH (i + 1) j); [lia|done| |done].
    destruct (find_from_range n hay (i + 1)) as [|Hr]; [done|]. lia.
Qed.

Lemma take_S_insert {A} (l : list A) i x :
  (i < length l)%nat → take (S i) (<[i:=x]> l) = take i l ++ [x].
Proof.
  revert i. induction l as [|y l IH]; intros i Hi; simpl in Hi; [lia|].
  destruct i as [|i]; simpl; [done|]. f_equal. apply IH. lia.
Qed.

(** The placements of the entry being run are the one the [for] loop builds,
    when it runs to the end, and those of the entries it pushes. *)
Lemma for_loop_placements ctx haystack needle :
  ∀ ns i hidx last_idx score positions stack,
    ns = drop i needle →
    0 ≤ hidx ≤ len haystack → 0 ≤ last_idx →
    length positions = length needle →
    ∃ score' positions' new (completed : bool),
      for_loop ctx haystack (len needle) ns i hidx last_idx score positions stack
        = Done (score', positions', new ++ stack)
      ∧ (completed = false → score' = 0%float)
      ∧ ∀ full v,
          completes ctx haystack needle (hidx, i, last_idx, score, positions)
                    full v
          ↔ (completed = true ∧ full = positions' ∧ v = score')
            ∨ ∃ f, f ∈ new ∧ completes ctx haystack needle f full v.
Proof.
  induction ns as [|n ns IH]; intros i hidx last_idx score positions stack
    Hns Hh Hl Hp.
  - exists score, positions, [], true. simpl. split; [done|]. split; [done|].
    intros full v. unfold completes. simpl. rewrite <- Hns.
    assert (length needle ≤ i)%nat as Hi.
    { destruct (decide (length needle ≤ i)%nat) as [|Hlt]; [done|].
      assert (is_Some (needle !! i)) as [c Hc]
        by (apply lookup_lt_is_Some; lia).
      apply (f_equal (λ l, l !! 0%nat)) in Hns.
      rewrite lookup_drop, Nat.add_0_r, Hc in Hns. done. }
    split.
    + intros (rest & -> & Hv & Hs). destruct rest; [|done].
      simpl in Hs. injection Hs as <-. left.
      rewrite app_nil_r, take_ge by lia. done.
    + intros [(_ & -> & ->)|(f & Hf & _)]; [|by apply elem_of_nil in Hf].
      exists []. rewrite app_nil_r, take_ge by lia. done.
  - assert (Hi : (i < length needle)%nat).
    { destruct (decide (i < length needle)%nat) as [|Hge]; [done|].
      rewrite drop_ge in Hns by lia. done. }
    assert (Hns' : ns = drop (S i) needle).
    { replace (S i) with (i + 1)%nat by lia. rewrite <- drop_drop, <- Hns. done. }
    simpl.
    destruct (Z.ltb_spec (len haystack - hidx) (len needle - Z.of_nat i))
      as [Hcut|Hcut].
    { exists 0%float, positions, [], false. simpl.
      split; [done|]. split; [done|]. intros full v. split.
      - intros (rest & _ & Hv & _). simpl in Hv. rewrite <- Hns in Hv.
        destruct (valid_placement_fits _ _ _ _ Hv) as [|Hfit]; [done|].
        exfalso. assert (len (n :: ns) = len needle - Z.of_nat i); [|lia].
        rewrite Hns. unfold len. rewrite length_drop. lia.
      - intros [(? & _)|(f & Hf & _)]; [done|by apply elem_of_nil in Hf]. }
    destruct (len_slice_from haystack hidx Hh) as [Esl Elen].
    destruct (Z.eqb_spec (find_from n (py_slice_from haystack hidx) 0) (-1))
      as [Hnf|Hfound].
    { exists 0%float, positions, [], false. simpl.
      split; [done|]. split; [done|]. intros full v. split.
      - intros (rest & _ & Hv & _). simpl in Hv. rewrite <- Hns in Hv.
        destruct rest as [|p rest]; simpl in Hv; [done|].
        apply andb_prop in Hv as [Hv _]. apply andb_prop in Hv as [Hv Hm].
        apply andb_prop in Hv as [Hfrom Hlt].
        apply Z.leb_le in Hfrom. apply Z.ltb_lt in Hlt.
        destruct (haystack !! Z.to_nat p) as [c|] eqn:Hc; [|done].
        rewrite (find_from_none n _ 0 c Hnf) in Hm; [done|lia|].
        rewrite Esl. apply list_elem_of_lookup.
        exists (Z.to_nat p - Z.to_nat hidx)%nat. rewrite lookup_drop.
        rewrite <- Hc. f_equal. lia.
      - intros [(? & _)|(f & Hf & _)]; [done|by apply elem_of_nil in Hf]. }
    destruct (find_from_match n _ 0 Hfound ltac:(lia)) as (c & Hc & Hn).
    destruct (find_from_range n (py_slice_from haystack hidx) 0) as [|Hr];
      [done|].
    pose proof (find_from_first n (py_slice_from haystack hidx) 0) as Hfirst.
    set (p := find_from n (py_slice_from haystack hidx) 0) in *.
    rewrite Elen in Hr. rewrite Z.sub_0_r, Esl, lookup_drop in Hc.
    replace (Z.to_nat hidx + Z.to_nat p)%nat with (Z.to_nat (p + hidx)) in Hc
      by lia.
    destruct (score_for_char_Done ctx haystack (p + hidx) last_idx)
      as [sc Hsc]; [lia|lia|].
    rewrite Hsc. simpl. unfold py_setitem.
    destruct (decide (i < length positions)%nat) as [_|Hge]; [|lia]. simpl.
    destruct (IH (S i) (p + hidx + 1) (p + hidx) (score + sc)%float
                 (<[i:=p + hidx]> positions)
                 ((p + hidx + 1, i, last_idx, score, positions) :: stack))
      as (score' & positions' & new & completed & Hrun & Hzero & Hiff);
      [done|lia|lia|by rewrite length_insert|].
    exists score', positions',
      (new ++ [(p + hidx + 1, i, last_idx, score, positions)]), completed.
    split; [by rewrite Hrun, <- app_assoc|]. split; [done|].
    intros full v.
    assert (completes ctx haystack needle (hidx, i, last_idx, score, positions)
                      full v
            ↔ completes ctx haystack needle
                (p + hidx + 1, S i, p + hidx, (score + sc)%float,
                 <[i:=p + hidx]> positions) full v
              ∨ completes ctx haystack needle
                  (p + hidx + 1, i, last_idx, score, positions) full v)
      as Hstep.
    { unfold completes. simpl. rewrite <- Hns, <- Hns'. split.
      - intros (rest & -> & Hv & Hs).
        destruct rest as [|p0 rest]; simpl in Hv; [done|].
        apply andb_prop in Hv as [Hv Hrest]. apply andb_prop in Hv as [Hv Hm].
        apply andb_prop in Hv as [Hfrom Hlt].
        apply Z.leb_le in Hfrom. apply Z.ltb_lt in Hlt.
        destruct (haystack !! Z.to_nat p0) as [c0|] eqn:Hc0; [|done].
        assert (p + hidx ≤ p0) as Hge.
        { destruct (Z.le_gt_cases (p + hidx) p0) as [|Hlt0]; [done|].
          exfalso.
          rewrite (Hfirst (Z.to_nat (p0 - hidx)) c0) in Hm; [done|lia|done| |].
          - lia.
          - rewrite Esl, lookup_drop. rewrite <- Hc0. f_equal. lia. }
        destruct (decide (p0 = p + hidx)) as [->|Hne].
        + left. exists rest. rewrite take_S_insert by lia.
          rewrite <- app_assoc. split; [done|]. split; [done|].
          simpl in Hs. rewrite Hsc in Hs. done.
        + right. exists (p0 :: rest). split; [done|]. split; [|done].
          simpl. rewrite Hc0, Hm, Hrest.
          destruct (Z.leb_spec (p + hidx + 1) p0); [|lia].
          destruct (Z.ltb_spec p0 (len haystack)); [done|lia].
      - intros [(rest & -> & Hv & Hs)|(rest & -> & Hv & Hs)].
        + exists (p + hidx :: rest). rewrite take_S_insert by lia.
          rewrite <- app_assoc. split; [done|]. split.
          * simpl. rewrite Hc, Hn, Hv.
            destruct (Z.leb_spec hidx (p + hidx)); [|lia].
            destruct (Z.ltb_spec (p + hidx) (len haystack)); [done|lia].
          * simpl. rewrite Hsc. done.
        + exists rest. split; [done|]. split; [|done].
          destruct rest as [|p0 rest]; simpl in *; [done|].
          apply andb_prop in Hv as [Hv Hrest]. apply andb_prop in Hv as [Hv Hm].
          apply andb_prop in Hv as [Hfrom Hlt].
          apply Z.leb_le in Hfrom.
          rewrite Hlt, Hm, Hrest.
          destruct (Z.leb_spec hidx p0); [done|lia]. }
    rewrite Hstep, Hiff. split.
    + intros [[?|(f & Hf & Hcf)]|Hpush]; [by left| |].
      * right. exists f. split; [|done]. apply elem_of_app. by left.
      * right. eexists. split; [|exact Hpush].
        apply elem_of_app. right. apply list_elem_of_singleton. done.
    + intros [?|(f & Hf & Hcf)]; [left; by left|].
      apply elem_of_app in Hf as [Hf|Hf]; [left; right; eauto|].
      apply list_elem_of_singleton in Hf as ->. by right.
Qed.


(** The exhaustive [while] loop compares [final_score] with the score of
    every placement the stack stands for, in the order it meets them: [seen]
    lists the scores and offsets it compared, and the result is the running
    maximum over that list. *)
Lemma while_loop_placements ctx haystack needle :
  ∀ fuel stack mem final_score final_positions alias,
    Forall (frame_ok haystack needle) stack →
    (stack_weight haystack stack ≤ fuel)%nat →
    ∃ (seen : list (float * list Z)) score positions,
      while_loop false fuel ctx haystack needle stack mem
                 final_score final_positions alias
        = Done (score, positions, mem)
      ∧ score = foldl keep_larger final_score seen.*1
      ∧ ((score, positions) ∈ seen
         ∨ (score = final_score ∧ (alias = false → positions = final_positions)))
      ∧ (∀ v ps, (v, ps) ∈ seen →
           v = 0%float
           ∨ ∃ f, f ∈ stack ∧ completes ctx haystack needle f ps v)
      ∧ (∀ f ps v, f ∈ stack → completes ctx haystack needle f ps v →
           (v, ps) ∈ seen).
Proof.
  induction fuel as [|fuel IH];
    intros stack mem final_score final_positions alias Hok Hw.
  - destruct stack as [|f stack].
    + exists [], final_score, final_positions. simpl.
      split; [done|]. split; [done|]. split; [by right|].
      split; [by intros v ps Hin; apply elem_of_nil in Hin|].
      by intros f ps v Hin; apply elem_of_nil in Hin.
    + exfalso. unfold stack_weight in Hw. simpl in Hw.
      pose proof (pow2_pos (Z.to_nat (len haystack - f.1.1.1.1))).
      unfold weight in Hw. lia.
  - destruct stack as [|[[[[hidx nidx] last_idx] score] positions] stack].
    { exists [], final_score, final_positions. simpl.
      split; [done|]. split; [done|]. split; [by right|].
      split; [by intros v ps Hin; apply elem_of_nil in Hin|].
      by intros f ps v Hin; apply elem_of_nil in Hin. }
    apply Forall_cons in Hok as [(Hh & Hl & Hp) Hok]. simpl in Hh, Hl, Hp.
    assert (Hw' : (weight haystack (hidx, nidx, last_idx, score, positions)
                   + stack_weight haystack stack ≤ S fuel)%nat) by done.
    unfold weight in Hw'. simpl in Hw'.
    destruct (for_loop_total ctx haystack needle (drop nidx needle) nidx hidx
                last_idx score positions stack eq_refl Hh Hl Hp)
      as (score1 & positions1 & new1 & Hrun1 & _ & Hnew & Hwn).
    destruct (for_loop_placements ctx haystack needle (drop nidx needle) nidx
                hidx last_idx score positions stack eq_refl Hh Hl Hp)
      as (score' & positions' & new & completed & Hrun & Hzero & Hiff).
    rewrite Hrun in Hrun1. injection Hrun1 as <- <- Hnew1.
    apply app_inv_tail in Hnew1 as <-.
    assert (Forall (frame_ok haystack needle) (new ++ stack)) as Hok'
      by (apply Forall_app; done).
    assert (stack_weight haystack (new ++ stack) ≤ fuel)%nat as Hwf
      by (rewrite stack_weight_app; lia).
    simpl. rewrite Hrun. simpl.
    set (final' := if (final_score <? score')%float
                   then (score', positions')
                   else (final_score,
                         if alias then positions' else final_positions)).
    destruct (IH (new ++ stack) mem final'.1 final'.2 false Hok' Hwf)
      as (seen & sc & ps & Hwhile & Hfold & Hres & Hsound & Hcomplete).
    exists ((score', positions') :: seen), sc, ps.
    split.
    { subst final'. destruct (final_score <? score')%float; exact Hwhile. }
    split.
    { rewrite Hfold. csimpl.
      replace final'.1 with (keep_larger final_score score'); [done|].
      unfold keep_larger. subst final'.
      destruct (final_score <? score')%float; done. }
    split.
    { destruct Hres as [Hin|[Hsc Hps]]; [left; by apply elem_of_cons; right|].
      specialize (Hps eq_refl). subst final'.
      destruct (final_score <? score')%float; simpl in *.
      - left. apply elem_of_cons. left. by rewrite Hsc, Hps.
      - right. split; [done|]. intros ->. done. }
    split.
    + intros v qs Hin. apply elem_of_cons in Hin as [Heq|Hin].
      * injection Heq as -> ->. destruct completed.
        -- right. eexists. split; [apply elem_of_cons; by left|].
          apply Hiff. by left.
        -- left. by apply Hzero.
      * destruct (Hsound v qs Hin) as [|(f & Hf & Hc)]; [by left|]. right.
        apply elem_of_app in Hf as [Hf|Hf].
        -- eexists. split; [apply elem_of_cons; by left|].
          apply Hiff. right. eauto.
        -- exists f. split; [apply elem_of_cons; by right|done].
    + intros f qs v Hf Hc. apply elem_of_cons in Hf as [->|Hf].
      * apply Hiff in Hc as [(_ & -> & ->)|(f' & Hf' & Hc')].
        -- apply elem_of_cons. by left.
        -- apply elem_of_cons. right. apply (Hcomplete f'); [|done].
          apply elem_of_app. by left.
      * apply elem_of_cons. right. apply (Hcomplete f); [|done].
        apply elem_of_app. by right.
Qed.

(** The search without the memo table compares [final_score], which starts
    at 0, with the score of every valid placement and with nothing else but
    zeros: its result is the running maximum over the scores [seen]. *)
Theorem exhaustive_search_visits_every_placement ctx haystack needle mem :
  memory ctx = Some mem →
  ∃ (seen : list (float * list Z)) score positions ctx',
    process_item_exhaustive ctx haystack needle = Done (score, positions, ctx')
    ∧ score = foldl keep_larger 0%float seen.*1
    ∧ ((score, positions) ∈ seen ∨ score = 0%float)
    ∧ (∀ v ps, (v, ps) ∈ seen →
         v = 0%float
         ∨ (valid_placement haystack needle 0 ps = true
            ∧ placement_score ctx haystack 0 ps 0%float = Done v))
    ∧ (∀ ps v, valid_placement haystack needle 0 ps = true →
         placement_score ctx haystack 0 ps 0%float = Done v →
         (v, ps) ∈ seen).
Proof.
  intros Hmem. unfold process_item_exhaustive, process_item_with. rewrite Hmem.
  destruct (while_loop_placements ctx haystack needle (budget haystack)
              [(0, 0%nat, 0, 0%float, replicate (length needle) (-1))] mem
              0%float (replicate (length needle) (-1)) true)
    as (seen & sc & ps & -> & Hfold & Hres & Hsound & Hcomplete).
  - constructor; [|constructor]. unfold frame_ok. simpl.
    rewrite length_replicate. unfold len. lia.
  - unfold stack_weight, weight, budget. simpl.
    replace (Z.to_nat (len haystack - 0)) with (length haystack)
      by (unfold len; lia). lia.
  - exists seen, sc, ps. simpl. eexists. split; [done|]. split; [done|].
    split; [destruct Hres as [|[? _]]; auto|]. split.
    + intros v qs Hin. destruct (Hsound v qs Hin) as [|(f & Hf & Hc)]; [by left|].
      right. apply list_elem_of_singleton in Hf as ->.
      destruct Hc as (rest & -> & Hv & Hs). simpl in *. done.
    + intros qs v Hv Hs. apply (Hcomplete _ qs v (list_elem_of_here _ _)).
      exists qs. simpl. done.
Qed.

(** The running maximum of scores none of which is a NaN is below none of
    them. *)
Lemma keep_larger_bound (l : list float) :
  ∀ start, ordered start → Forall ordered l →
    (foldl keep_larger start l <? start)%float = false
    ∧ ordered (foldl keep_larger start l)
    ∧ ∀ x, x ∈ l → (foldl keep_larger start l <? x)%float = false.
Proof.
  induction l as [|y l IH]; intros start Hs Hl; simpl.
  - split; [|split; [done|by intros x Hx; apply elem_of_nil in Hx]].
    destruct (start <? start)%float eqn:E; [|done].
    by rewrite (ltb_asym _ _ E) in E.
  - apply Forall_cons in Hl as [Hy Hl].
    assert (ordered (keep_larger start y)) as Hk
      by (unfold keep_larger; destruct (start <? y)%float; done).
    destruct (IH _ Hk Hl) as (Hge & Hord & Hall).
    assert (∀ x, (keep_larger start y <? x)%float = false →
                 (foldl keep_larger (keep_larger start y) l <? x)%float = false)
      as Htrans.
    { intros x Hx.
      destruct (foldl keep_larger (keep_larger start y) l <? x)%float eqn:E;
        [|done].
      destruct (ltb_split _ (keep_larger start y) _ E Hk) as [E'|E'];
        congruence. }
    split; [|split; [done|]].
    + apply Htrans. unfold keep_larger.
      destruct (start <? y)%float eqn:E; [by apply ltb_asym|].
      destruct (start <? start)%float eqn:E'; [|done].
      by rewrite (ltb_asym _ _ E') in E'.
    + intros x Hx. apply elem_of_cons in Hx as [->|Hx]; [|by apply Hall].
      apply Htrans. unfold keep_larger.
      destruct (start <? y)%float eqn:E; [|done].
      destruct (y <? y)%float eqn:E'; [|done].
      by rewrite (ltb_asym _ _ E') in E'.
Qed.

(** The yardstick of the memo table.  When no placement has a NaN for score,
    the stack search of [process_item] with the lookup and the store of
    [ctx.memory] left out returns a score that no valid placement exceeds,
    and that is 0 or the score of the valid placement it returns. *)
Lemma exhaustive_search_is_maximal ctx haystack needle mem :
  memory ctx = Some mem →
  (∀ ps v, valid_placement haystack needle 0 ps = true →
     placement_score ctx haystack 0 ps 0%float = Done v → ordered v) →
  ∃ score positions ctx',
    process_item_exhaustive ctx haystack needle = Done (score, positions, ctx')
    ∧ (score = 0%float
       ∨ (valid_placement haystack needle 0 positions = true
          ∧ placement_score ctx haystack 0 positions 0%float = Done score))
    ∧ ∀ ps v, valid_placement haystack needle 0 ps = true →
        placement_score ctx haystack 0 ps 0%float = Done v →
        (score <? v)%float = false.
Proof.
  intros Hmem Hord.
  destruct (exhaustive_search_visits_every_placement ctx haystack needle mem
              Hmem)
    as (seen & sc & ps & ctx' & Hrun & Hfold & Hres & Hsound & Hcomplete).
  exists sc, ps, ctx'. split; [done|]. split.
  - destruct Hres as [Hin|]; [|by left].
    destruct (Hsound _ _ Hin); [by left|by right].
  - intros qs v Hv Hs.
    assert (Forall ordered seen.*1) as Hall.
    { apply Forall_forall. intros x Hx.
      apply list_elem_of_fmap in Hx as ([v' qs'] & -> & Hin). simpl.
      destruct (Hsound _ _ Hin) as [->|[Hv' Hs']]; [done|]. eauto. }
    destruct (keep_larger_bound seen.*1 0%float eq_refl Hall) as (_ & _ & Hb).
    rewrite Hfold. apply Hb. apply list_elem_of_fmap.
    exists (v, qs). split; [done|]. by apply Hcomplete.
Qed.

Lemma valid_placement_cons haystack n needle from p ps :
  valid_placement haystack (n :: needle) from (p :: ps) = true →
  from ≤ p < len haystack
  ∧ (∃ c, haystack !! Z.to_nat p = Some c ∧ primary_eq n c = true)
  ∧ valid_placement haystack needle (p + 1) ps = true.
Proof.
  simpl. intros Hv.
  apply andb_prop in Hv as [Hv Hrest]. apply andb_prop in Hv as [Hv Hm].
  apply andb_prop in Hv as [Hfrom Hlt].
  apply Z.leb_le in Hfrom. apply Z.ltb_lt in Hlt.
  destruct (haystack !! Z.to_nat p) as [c|]; [|done].
  split; [lia|]. split; [eauto|done].
Qed.

End exhaustive.

Section exhaustive_example.
#[local] Existing Instance ascii_externals.

(** On the haystack "aabxc/c" and the needle "abc", where the memo table
    loses the best placement, the search without it returns [1; 2; 6] and no
    valid placement scores more. *)
Example exhaustive_search_on_aabxc_c :
  let haystack := s "aabxc/c" in
  let needle := s "abc" in
  ∃ m score ctx',
    item_max_score haystack needle = Done m
    ∧ process_item_exhaustive (with_memory (PyScorer_init [haystack]) m (Some ∅))
                              haystack needle = Done (score, [1; 2; 6], ctx')
    ∧ ∀ ps v, valid_placement haystack needle 0 ps = true →
        placement_score (with_memory (PyScorer_init [haystack]) m (Some ∅))
                        haystack 0 ps 0%float = Done v →
        (score <? v)%float = false.
Proof.
  intros haystack needle.
  destruct (item_max_score haystack needle) as [m| |] eqn:Hm;
    vm_compute in Hm; try done.
  injection Hm as Hm. exists m. subst m.
  match goal with |- context [with_memory ?c ?m ?mem] =>
    set (ctx := with_memory c m mem) end.
  destruct (exhaustive_search_is_maximal ctx haystack needle ∅ eq_refl)
    as (score & positions & ctx' & Hrun & _ & Hmax).
  - intros ps v Hv Hs.
    destruct ps as [|p ps]; [by vm_compute in Hv|].
    apply valid_placement_cons in Hv as (Hp & (cp & Hcp & Hmp) & Hv).
    destruct ps as [|q ps]; [by simpl in Hv|].
    apply valid_placement_cons in Hv as (Hq & (cq & Hcq & Hmq) & Hv).
    destruct ps as [|r ps]; [by simpl in Hv|].
    apply valid_placement_cons in Hv as (Hr & (cr & Hcr & Hmr) & Hv).
    destruct ps as [|? ?]; [clear Hv|by simpl in Hv].
    change (len haystack) with 7 in *.
    assert (p = 0 ∨ p = 1 ∨ p = 2 ∨ p = 3 ∨ p = 4) as Hp' by lia.
    assert (q = 1 ∨ q = 2 ∨ q = 3 ∨ q = 4 ∨ q = 5) as Hq' by lia.
    assert (r = 2 ∨ r = 3 ∨ r = 4 ∨ r = 5 ∨ r = 6) as Hr' by lia.
    destruct Hp' as [->|[->|[->|[->| ->]]]];
      vm_compute in Hcp; injection Hcp as <-; vm_compute in Hmp; try done;
      (destruct Hq' as [->|[->|[->|[->| ->]]]];
       vm_compute in Hcq; injection Hcq as <-; vm_compute in Hmq; try done);
      (destruct Hr' as [->|[->|[->|[->| ->]]]];
       vm_compute in Hcr; injection Hcr as <-; vm_compute in Hmr; try done);
      vm_compute in Hs; injection Hs as <-; reflexivity.
  - assert (process_item_exhaustive ctx haystack needle
            = Done (score, positions, ctx')) as Hrun' by exact Hrun.
    vm_compute in Hrun'. injection Hrun' as <- <- <-.
    eexists _, _. split; [done|]. split; [vm_compute; reflexivity|].
    exact Hmax.
Qed.

End exhaustive_example.
(** ** Further properties of the scorer and of the matcher *)

Section further.
Context `{Externals}.

(** [process_item] returns a score and a list of offsets on every haystack
    and needle once [ctx.memory] has been assigned: the [while] loop ends
    within [2 ^ len(haystack)] iterations. *)
Lemma process_item_returns ctx haystack needle mem :
  memory ctx = Some mem →
  ∃ score positions ctx',
    process_item ctx haystack needle = Done (score, positions, ctx').
Proof.
  intros Hmem. unfold process_item, process_item_with. rewrite Hmem.
  destruct (while_loop_total true ctx haystack needle (budget haystack)
              [(0, 0%nat, 0, 0%float, replicate (length needle) (-1))] mem
              0%float (replicate (length needle) (-1)) true)
    as [[[sc ps] mem'] ->].
  - constructor; [|constructor]. unfold frame_ok. simpl.
    rewrite length_replicate. unfold len. lia.
  - unfold stack_weight, weight, budget. simpl.
    replace (Z.to_nat (len haystack - 0)) with (length haystack)
      by (unfold len; lia). lia.
  - simpl. eauto.
Qed.


End further.

Section further_examples.
#[local] Existing Instance ascii_externals.

Lemma process_item_returns_witness :
  ∃ score positions ctx',
    process_item (with_memory (PyScorer_init [s "ab"]) 0.75 (Some ∅))
                 (s "ab") (s "b") = Done (score, positions, ctx').
Proof.
  apply (process_item_returns
           (with_memory (PyScorer_init [s "ab"]) 0.75 (Some ∅)) _ _ ∅).
  reflexivity.
Defined.

(** A call whose scoring error escapes leaves the results of the other
    partitions on the shared result queue, and later calls read them first.
    With two workers and the candidates "a" and "b": the empty query raises
    and leaves one result behind; the query "a" then meets that result and
    raises too, leaving its own two results; the query "b" then returns the
    answer to "a".  A fresh matcher answers "b" with "b". *)
Example failed_call_poisons_later_calls :
  ∃ self pool0 self1 pool1 self2 pool2 self3 pool3,
    Matcher_init 2 empty_pool [s "a"; s "b"] = (Done self, pool0)
    ∧ length (task_maps self) = 2%nat
    ∧ Matcher_call self pool0 [0; 1]%nat [] None
      = (Raised ZeroDivisionError, self1, pool1)
    ∧ length (results pool1) = 1%nat
    ∧ Matcher_call self1 pool1 [0; 1]%nat (s "a") None
      = (Raised ZeroDivisionError, self2, pool2)
    ∧ length (results pool2) = 2%nat
    ∧ Matcher_call self2 pool2 [0; 1]%nat (s "b") None
      = (Done [(s "a", [0])], self3, pool3)
    ∧ (Matcher_call self pool0 [0; 1]%nat (s "b") None).1.1
      = Done [(s "b", [0])].
Proof.
  eexists _, _, _, _, _, _, _, _.
  split; [vm_compute; reflexivity|].
  split; [vm_compute; reflexivity|].
  split; [vm_compute; reflexivity|].
  split; [vm_compute; reflexivity|].
  split; [vm_compute; reflexivity|].
  split; [vm_compute; reflexivity|].
  split; vm_compute; reflexivity.
Qed.

End further_examples.
(** ** Proofs: the offsets [process_item] returns are a placement *)

Section search_sound.
Context `{Externals}.

Lemma while_loop_sound memo ctx haystack needle :
  ∀ fuel stack mem final_score final_positions alias score positions mem',
    Forall (frame_ok haystack needle) stack →
    Forall (frame_sound ctx haystack needle) stack →
    map_Forall (λ _ e, result_sound ctx haystack needle e.1 e.2) mem →
    result_sound ctx haystack needle final_score final_positions →
    (alias = true → final_score = 0%float) →
    while_loop memo fuel ctx haystack needle stack mem
               final_score final_positions alias
      = Done (score, positions, mem') →
    result_sound ctx haystack needle score positions
    ∧ map_Forall (λ _ e, result_sound ctx haystack needle e.1 e.2) mem'.
Proof.
  induction fuel as [|fuel IH];
    intros stack mem final_score final_positions alias sc ps mem'
      Hok Hsound Hmem Hfinal Halias Hrun.
  - destruct stack as [|[[[[hidx nidx] last_idx] score] positions] stack];
      simpl in Hrun; [|done]. injection Hrun as <- <- <-. by split.
  - destruct stack as [|[[[[hidx nidx] last_idx] score] positions] stack];
      simpl in Hrun; [injection Hrun as <- <- <-; by split|].
    apply Forall_cons in Hok as [(Hh & Hl & Hp) Hok]. simpl in Hh, Hl, Hp.
    apply Forall_cons in Hsound as [Hf Hsound].
    destruct (if memo then mem !! (hidx, nidx, last_idx) else None)
      as [[score' positions']|] eqn:Hhit.
    + assert (mem !! (hidx, nidx, last_idx) = Some (score', positions'))
        as Hlook by (destruct memo; done).
      pose proof (Hmem _ _ Hlook) as Hentry. simpl in Hentry, Hrun.
      destruct (final_score <? score')%float eqn:Hlt.
      * by refine (IH _ _ _ _ false _ _ _ Hok Hsound Hmem Hentry _ Hrun).
      * apply (IH _ _ _ _ _ _ _ _ Hok Hsound Hmem) in Hrun; [done| |done].
        destruct alias; [|done]. rewrite (Halias eq_refl).
        split; [done|by left].
    + destruct (for_loop_total ctx haystack needle (drop nidx needle) nidx hidx
                  last_idx score positions stack eq_refl Hh Hl Hp)
        as (score1 & positions1 & new1 & Hrun1 & Hlen & Hnew & _).
      destruct (for_loop_placements ctx haystack needle (drop nidx needle) nidx
                  hidx last_idx score positions stack eq_refl Hh Hl Hp)
        as (score' & positions' & new & completed & Hfor & Hzero & Hiff).
      rewrite Hfor in Hrun1. injection Hrun1 as <- <- Hnew1.
      apply app_inv_tail in Hnew1 as <-.
      rewrite Hfor in Hrun. simpl in Hrun.
      assert (result_sound ctx haystack needle score' positions') as Hres.
      { split; [done|]. destruct completed; [|left; by apply Hzero].
        right. apply Hf, Hiff. by left. }
      assert (Forall (frame_ok haystack needle) (new ++ stack)) as Hok'
        by (apply Forall_app; done).
      assert (Forall (frame_sound ctx haystack needle) (new ++ stack))
        as Hsound'.
      { apply Forall_app. split; [|done]. apply Forall_forall.
        intros f' Hf' full v Hc. apply Hf, Hiff. right. eauto. }
      assert (map_Forall (λ _ e, result_sound ctx haystack needle e.1 e.2)
                (if memo then <[(hidx, nidx, last_idx) := (score', positions')]> mem
                 else mem)) as Hmem'.
      { destruct memo; [|done]. by apply map_Forall_insert_2. }
      destruct (final_score <? score')%float eqn:Hlt.
      * by refine (IH _ _ _ _ false _ _ _ Hok' Hsound' Hmem' Hres _ Hrun).
      * apply (IH _ _ _ _ _ _ _ _ Hok' Hsound' Hmem') in Hrun; [done| |done].
        destruct alias; [|done]. rewrite (Halias eq_refl).
        split; [done|by left].
Qed.

(** What [process_item] returns is a result in the sense above. *)
Lemma process_item_result_sound ctx haystack needle score positions ctx' :
  memory ctx = Some ∅ →
  process_item ctx haystack needle = Done (score, positions, ctx') →
  result_sound ctx haystack needle score positions.
Proof.
  intros Hmem Hrun.
  unfold process_item, process_item_with in Hrun. rewrite Hmem in Hrun.
  destruct (while_loop true (budget haystack) ctx haystack needle
              [(0, 0%nat, 0, 0%float, replicate (length needle) (-1))] ∅
              0%float (replicate (length needle) (-1)) true)
    as [[[sc ps] mem']| |] eqn:Hwhile; simpl in Hrun; [|done|done].
  injection Hrun as <- <- _.
  apply while_loop_sound in Hwhile as [Hres _]; try done.
  - constructor; [|constructor]. unfold frame_ok. simpl.
    rewrite length_replicate. unfold len. lia.
  - constructor; [|constructor].
    intros full v (rest & -> & Hv & Hs). simpl in *. done.
  - split; [by rewrite length_replicate|by left].
Qed.

(** X1: [process_item], memo table included, returns on every haystack and
    needle, with one offset per needle character and a score that is 0 or
    the score of the valid placement those offsets give: it never reports
    an offset where the characters do not match. *)
Theorem process_item_sound ctx haystack needle :
  memory ctx = Some ∅ →
  ∃ score positions ctx',
    process_item ctx haystack needle = Done (score, positions, ctx')
    ∧ length positions = length needle
    ∧ (score = 0%float
       ∨ (valid_placement haystack needle 0 positions = true
          ∧ placement_score ctx haystack 0 positions 0%float = Done score)).
Proof.
  intros Hmem.
  destruct (process_item_with_total true ctx haystack needle ∅ Hmem)
    as (score & positions & ctx' & Hrun).
  destruct (process_item_result_sound ctx haystack needle score positions
              ctx' Hmem Hrun) as [Hlen Hres].
  exists score, positions, ctx'.
  split; [exact Hrun|]. split; [exact Hlen|].
  destruct Hres as [Hz|[Hv Hs]]; [by left|by right].
Qed.

End search_sound.

Section search_sound_example.
#[local] Existing Instance ascii_externals.

Lemma process_item_sound_witness :
  ∃ score positions ctx',
    process_item (with_memory (PyScorer_init [s "aabxc/c"]) 0.25 (Some ∅))
                 (s "aabxc/c") (s "abc") = Done (score, positions, ctx')
    ∧ length positions = length (s "abc")
    ∧ (score = 0%float
       ∨ (valid_placement (s "aabxc/c") (s "abc") 0 positions = true
          ∧ placement_score
              (with_memory (PyScorer_init [s "aabxc/c"]) 0.25 (Some ∅))
              (s "aabxc/c") 0 positions 0%float = Done score)).
Proof.
  apply (process_item_sound
           (with_memory (PyScorer_init [s "aabxc/c"]) 0.25 (Some ∅))).
  reflexivity.
Defined.

End search_sound_example.
(** ** Proofs: the offsets the matcher returns *)

Section matcher_placements.
Context `{Externals}.

(** For a matcher built on the reference scorer, every entry of the returned
    mapping is one of the candidates, with offsets that place the normalised
    query in it. *)
Lemma reference_result_placements W (self : Matcher PyScorer) pool
    arrival query limit m self' pool' :
  matcher_ok W self → results pool = [] →
  arrival ≡ₚ seq 0 (length (task_maps self)) →
  Matcher_call self pool arrival query limit = (Done m, self', pool') →
  ∀ item ps, (item, ps) ∈ m →
    item ∈ m_items self
    ∧ valid_placement item (normalize_nfc query) 0 ps = true.
Proof.
  intros Hok Hq Harr Hcall item ps Hin.
  destruct (decide (normalize_nfc query = [])) as [Hempty|Hne].
  - destruct (decide (m_items self = [])) as [Hnone|Hsome].
    + apply Matcher_call_Done in Hcall as (scores & positions & l & Hl & -> & _).
      apply sorted_entries_items in Hl as [_ Hlen].
      rewrite Hnone in Hlen. destruct l; [|done].
      apply to_mapping_elem in Hin as (key & Hin & _).
      apply truncate_subseteq in Hin. by apply elem_of_nil in Hin.
    + pose proof (Matcher_call_empty_query W self pool arrival query limit
                    Hok Hsome Hq Harr Hempty) as Hraise.
      rewrite Hcall in Hraise. done.
  - destruct (Matcher_call_reference W self pool arrival query limit
                Hok Hq Harr Hne) as (self1 & Hcall' & _).
    rewrite Hcall in Hcall'. injection Hcall' as Href _ _.
    unfold reference_call in Href.
    destruct (reference_entries (m_items self) (normalize_nfc query))
      as [l| |] eqn:Hl; [|done|done].
    simpl in Href. injection Href as ->.
    apply to_mapping_elem in Hin as (key & Hin & Htrue).
    apply truncate_subseteq in Hin.
    destruct (reference_entries_elem _ _ _ _ Hl Hin) as (sc & Hsc & Hkey & Hitem).
    simpl in Hsc, Hkey, Hitem. split; [done|].
    rewrite Hkey, truthy_opp in Htrue.
    unfold score_item in Hsc.
    destruct (item_max_score item (normalize_nfc query)) as [m0| |];
      [|done|done].
    simpl in Hsc.
    destruct (process_item (with_memory (PyScorer_init []) m0 (Some ∅))
                item (normalize_nfc query))
      as [[[sc' ps'] ctx']| |] eqn:Hrun; simpl in Hsc; [|done|done].
    injection Hsc as -> ->.
    destruct (process_item_result_sound
                (with_memory (PyScorer_init []) m0 (Some ∅)) _ _ _ _ _
                eq_refl Hrun)
      as [_ [->|[Hv _]]]; [|done].
    vm_compute in Htrue. done.
Qed.

End matcher_placements.

(** ** Proofs: the display loop of [main] *)

Lemma py_slice_in_range {A} (l : list A) (i j : Z) :
  0 ≤ i → 0 ≤ j ≤ len l →
  py_slice l i j = take (Z.to_nat j - Z.to_nat i) (drop (Z.to_nat i) l).
Proof.
  intros Hi Hj. unfold py_slice, len in *.
  destruct (Z.leb_spec 0 i); [|lia]. destruct (Z.leb_spec 0 j); [|lia].
  rewrite (Z.min_r _ j) by lia.
  destruct (Z.le_gt_cases i j).
  - rewrite Z.min_r by lia. rewrite take_drop_commute.
    by replace (Z.to_nat i + (Z.to_nat j - Z.to_nat i))%nat with (Z.to_nat j)
      by lia.
  - replace (Z.to_nat j - Z.to_nat i)%nat with 0%nat by lia.
    rewrite take_0. apply drop_ge. rewrite length_take. lia.
Qed.

Lemma slice_step {A} (l : list A) (a b c : nat) x :
  (a ≤ b)%nat → (b < c)%nat → l !! b = Some x →
  take (b - a) (drop a l) ++ x :: take (c - S b) (drop (S b) l)
  = take (c - a) (drop a l).
Proof.
  intros Hab Hbc Hx.
  replace (c - a)%nat with ((b - a) + S (c - S b))%nat by lia.
  rewrite <- take_take_drop. f_equal.
  rewrite drop_drop. replace (a + (b - a))%nat with b by lia.
  rewrite (drop_S _ _ _ Hx). done.
Qed.

Lemma emphasise_spec (path : pystr) :
  ∀ positions p,
    0 ≤ p ≤ len path →
    StronglySorted Z.lt (filter (λ q, q ≠ -1) positions) →
    Forall (λ q, p ≤ q < len path) (filter (λ q, q ≠ -1) positions) →
    ∃ out p',
      emphasise path positions p = (out, Done p')
      ∧ p ≤ p' ≤ len path
      ∧ mjoin (piece_text <$> out)
        = take (Z.to_nat p' - Z.to_nat p) (drop (Z.to_nat p) path)
      ∧ mjoin (emphasised_text <$> out)
        = omap (λ q, path !! Z.to_nat q) (filter (λ q, q ≠ -1) positions).
Proof.
  induction positions as [|pos positions IH]; intros p Hp Hs Hr.
  - exists [], p. simpl. rewrite Nat.sub_diag.
    split; [done|]. split; [lia|]. done.
  - simpl. destruct (Z.eqb_spec pos (-1)) as [->|Hne].
    + rewrite filter_cons_False in Hs, Hr by (intros ?; done).
      rewrite filter_cons_False by (intros ?; done). by apply IH.
    + rewrite filter_cons_True in Hs, Hr by done.
      rewrite filter_cons_True by done.
      apply StronglySorted_inv in Hs as [Hs Hlt].
      apply Forall_cons in Hr as [Hpos Hr].
      destruct (py_index_Done path pos) as (c & Hidx & Hc); [lia|].
      unfold get_char. rewrite Hidx.
      simpl. change (len [c]) with 1.
      destruct (IH (pos + 1)) as (out & p' & -> & Hp' & Htext & Hemph).
      * unfold len in *. lia.
      * done.
      * apply Forall_forall. intros q Hq.
        pose proof (proj1 (Forall_forall _ _) Hlt q Hq).
        pose proof (proj1 (Forall_forall _ _) Hr q Hq). simpl in *. lia.
      * exists (Plain (py_slice path p pos) :: Emphasised [c] :: out), p'.
        split; [done|]. split; [lia|]. split.
        -- csimpl. rewrite Htext, py_slice_in_range by lia.
           replace (Z.to_nat (pos + 1)) with (S (Z.to_nat pos)) by lia.
           apply slice_step; [lia|lia|done].
        -- csimpl. rewrite Hc, Hemph. done.
Qed.

(** One candidate: when the offsets other than -1 are strictly increasing and
    inside the path, the loop ends without an exception, what it writes is
    the path followed by a newline, and what it writes emphasised is exactly
    the characters at those offsets. *)
Lemma show_entry_spec (path : pystr) (positions : list Z) :
  StronglySorted Z.lt (filter (λ q, q ≠ -1) positions) →
  Forall (λ q, 0 ≤ q < len path) (filter (λ q, q ≠ -1) positions) →
  ∃ out,
    show_entry path positions = (out, Done ())
    ∧ mjoin (piece_text <$> out) = path ++ newline
    ∧ mjoin (emphasised_text <$> out)
      = omap (λ q, path !! Z.to_nat q) (filter (λ q, q ≠ -1) positions).
Proof.
  intros Hs Hr. unfold show_entry.
  destruct (emphasise_spec path positions 0) as (out & p' & -> & Hp' & Ht & He);
    [unfold len; lia|done|done|].
  eexists. split; [done|]. rewrite !fmap_app, !join_app. csimpl.
  rewrite Ht, He, !app_nil_r. split; [|done].
  unfold py_slice_from. destruct (Z.leb_spec 0 p'); [|lia].
  rewrite Nat.sub_0_r, drop_0, app_assoc, take_drop. done.
Qed.

Lemma show_entries_spec (entries : list (pystr * list Z)) :
  Forall (λ e, StronglySorted Z.lt (filter (λ q, q ≠ -1) e.2)
               ∧ Forall (λ q, 0 ≤ q < len e.1) (filter (λ q, q ≠ -1) e.2))
         entries →
  ∃ out,
    show_entries entries = (out, Done ())
    ∧ mjoin (piece_text <$> out) = mjoin ((λ e, e.1 ++ newline) <$> entries)
    ∧ mjoin (emphasised_text <$> out)
      = mjoin ((λ e, omap (λ q, e.1 !! Z.to_nat q) (filter (λ q, q ≠ -1) e.2))
                 <$> entries).
Proof.
  induction 1 as [|[path positions] entries [Hs Hr] _ (out' & Hrun & Ht & He)].
  - by exists [].
  - destruct (show_entry_spec path positions Hs Hr)
      as (out & Hshow & Ht1 & He1).
    exists (out ++ out'). simpl. rewrite Hshow, Hrun.
    split; [done|]. rewrite !fmap_app, !join_app, Ht, He, Ht1, He1. done.
Qed.

Section placements_shown.
Context `{Externals}.

Lemma valid_placement_offsets haystack needle :
  ∀ from ps,
    valid_placement haystack needle from ps = true →
    length ps = length needle
    ∧ StronglySorted Z.lt ps
    ∧ Forall (λ q, from ≤ q < len haystack) ps.
Proof.
  induction needle as [|n needle IH]; intros from [|p ps] Hv; try done.
  - split; [done|]. split; constructor.
  - apply valid_placement_cons in Hv as (Hp & _ & Hv).
    destruct (IH _ _ Hv) as (Hlen & Hs & Hr).
    split; [simpl; by rewrite Hlen|]. split.
    + constructor; [done|]. eapply Forall_impl; [exact Hr|].
      simpl. intros q Hq. lia.
    + constructor; [done|]. eapply Forall_impl; [exact Hr|].
      simpl. intros q Hq. lia.
Qed.


End placements_shown.

Section placements_shown_example.
#[local] Existing Instance ascii_externals.


End placements_shown_example.
(** ** Proofs: results already on the queue *)

Section stale_results.
Context {E : Externals} {Sc : Type} {SC : Scorer Sc}.

Lemma collect_app maps :
  ∀ num (q1 q2 : list (wresult Sc)) scs scores positions error,
    (num ≤ length q1)%nat →
    collect num (q1 ++ q2) maps scs scores positions error
    = ((collect num q1 maps scs scores positions error).1.1,
       (collect num q1 maps scs scores positions error).1.2,
       (collect num q1 maps scs scores positions error).2 ++ q2).
Proof.
  induction num as [|num IH]; intros q1 q2 scs scores positions error Hlen;
    [done|].
  destruct q1 as [|[t vals|x] q1]; simpl in Hlen; [lia| |].
  - simpl. destruct (maps !! t) as [tm|]; [|done].
    destruct (consume tm 0 vals scores positions) as [[[sc ps]|e|] st]; try done.
    apply IH. lia.
  - simpl. apply IH. lia.
Qed.

(** X13: the collecting loop of [Matcher.__call__] reads the oldest results of
    the shared queue, whichever call they were put for.  When the queue
    already holds as many results as the matcher has partitions, the
    outcome of the call depends neither on the query nor on the results of
    its own requests, which all stay on the queue for the next call. *)
Theorem stale_results_are_read_first (self : Matcher Sc) (pool : Pool Sc)
    (arrival1 arrival2 : list nat) (query1 query2 : pystr) limit :
  (length (task_maps self) ≤ length (results pool))%nat →
  (Matcher_call self pool arrival1 query1 limit).1.1
  = (Matcher_call self pool arrival2 query2 limit).1.1
  ∧ ∃ rest,
      results (Matcher_call self pool arrival1 query1 limit).2
      = rest
        ++ omap (λ t, Worker_run
                        <$> imap (λ i scorer, (i, scorer, normalize_nfc query1))
                                 (scorers self) !! t) arrival1.
Proof.
  intros Hlen. unfold Matcher_call. cbv zeta.
  rewrite !(collect_app _ _ (results pool)) by done.
  destruct (collect (length (task_maps self)) (results pool) (task_maps self)
              (scorers self) ∅ ∅ None) as [[r scs] rest].
  simpl. split; [done|]. by exists rest.
Qed.

End stale_results.

Section stale_results_example.
#[local] Existing Instance ascii_externals.

Lemma stale_results_are_read_first_witness :
  (Matcher_call demo_after_failures.1 demo_after_failures.2 [0; 1]%nat
                (s "two") None).1.1
  = (Matcher_call demo_after_failures.1 demo_after_failures.2 [1; 0]%nat
                  (s "one") None).1.1
  ∧ ∃ rest,
      results (Matcher_call demo_after_failures.1 demo_after_failures.2
                            [0; 1]%nat (s "two") None).2
      = rest
        ++ omap (λ t, Worker_run
                        <$> imap (λ i scorer,
                                    (i, scorer, normalize_nfc (s "two")))
                                 (scorers demo_after_failures.1) !! t)
                [0; 1]%nat.
Proof.
  apply (stale_results_are_read_first demo_after_failures.1
           demo_after_failures.2 [0; 1]%nat [1; 0]%nat (s "two") (s "one") None).
  vm_compute. lia.
Defined.

(** On [demo_matcher], after the two calls that failed, the query "two" is
    answered with the candidates that match "one". *)
Example stale_answer_on_demo_matcher :
  (Matcher_call demo_after_failures.1 demo_after_failures.2 [0; 1]%nat
                (s "two") None).1.1
  = Done [(s "im/one.gif", [3; 4; 5]); (s "text/one.html", [5; 6; 7])]
  ∧ (Matcher_call demo_matcher demo_pool [0; 1]%nat (s "two") None).1.1
    = Done [(s "im/two.gif", [3; 4; 5])].
Proof. split; vm_compute; reflexivity. Qed.

End stale_results_example.
(** ** Proofs: a scorer that fails in the worker *)

Section reported_failure.
Context {E : Externals} {Sc : Type} {SC : Scorer Sc}.

Lemma consume_readable (tm : gmap nat nat) :
  ∀ (g : gen Sc (float * list Z)) i scores positions,
    consumable tm i g →
    ∃ x st, consume tm i g scores positions = (Done x, st).
Proof.
  induction g as [r st|[score pos] st rest IH]; intros i scores positions Hc;
    simpl in *.
  - rewrite Hc. simpl. eauto.
  - destruct Hc as [[item ->] Hc]. by apply IH.
Qed.

Lemma collect_readable maps :
  ∀ (queue : list (wresult Sc)) scs scores positions error,
    Forall (entry_readable maps) queue →
    ∃ scores' positions' scs',
      collect (length queue) queue maps scs scores positions error
      = (Done (scores', positions', last_failure error queue), scs', []).
Proof.
  induction queue as [|[t vals|x] queue IH];
    intros scs scores positions error Hq.
  - simpl. eauto.
  - apply Forall_cons in Hq as [(tm & Htm & Hc) Hq]. simpl. rewrite Htm.
    destruct (consume_readable tm vals 0 scores positions Hc)
      as ([sc ps] & st & ->).
    apply IH. done.
  - apply Forall_cons in Hq as [_ Hq]. simpl. by apply IH.
Qed.

Lemma last_failure_snoc (error : option pystr) (queue : list (wresult Sc)) r :
  last_failure error (queue ++ [r])
  = match r with
    | Failure x => Some x
    | Success _ _ => last_failure error queue
    end.
Proof. unfold last_failure. rewrite foldl_app. done. Qed.

Lemma last_failure_spec (queue : list (wresult Sc)) :
  (∃ x, Failure x ∈ queue) →
  ∃ q1 x q2,
    queue = q1 ++ Failure x :: q2
    ∧ Forall (λ r, ∃ t vals, r = Success t vals) q2
    ∧ last_failure None queue = Some x.
Proof.
  induction queue as [|r queue IH] using rev_ind; intros [x Hx].
  - by apply elem_of_nil in Hx.
  - rewrite last_failure_snoc. destruct r as [t vals|y].
    + apply elem_of_app in Hx as [Hx|Hx];
        [|apply list_elem_of_singleton in Hx; done].
      destruct IH as (q1 & x' & q2 & -> & Hq2 & Hlast); [eauto|].
      exists q1, x', (q2 ++ [Success t vals]).
      split; [by rewrite <- app_assoc|]. split; [|done].
      apply Forall_app. split; [done|]. constructor; [eauto|constructor].
    + exists queue, y, []. split; [done|]. split; [constructor|done].
Qed.

(** X15: when the scorer of some partition raises in the worker's call, and
    the values of the other partitions can be iterated, [Matcher.__call__]
    reads every result, leaves the queue empty and raises
    [Exception('Failed to score items: ...')] with the error of the failing
    partition that reported last. *)
Theorem scorer_failure_is_reported (self : Matcher Sc) (pool : Pool Sc)
    (arrival : list nat) (query : pystr) limit :
  results pool = [] →
  arrival ≡ₚ seq 0 (length (task_maps self)) →
  length (scorers self) = length (task_maps self) →
  (∀ t sc vals, scorers self !! t = Some sc →
     scorer_call sc (normalize_nfc query) = inr vals →
     ∃ tm, task_maps self !! t = Some tm ∧ consumable tm 0 vals) →
  (∃ t sc e, scorers self !! t = Some sc
             ∧ scorer_call sc (normalize_nfc query) = inl e) →
  ∃ a1 t a2 sc e self',
    arrival = a1 ++ t :: a2
    ∧ scorers self !! t = Some sc
    ∧ scorer_call sc (normalize_nfc query) = inl e
    ∧ Forall (λ u, ∃ sc' vals, scorers self !! u = Some sc'
                 ∧ scorer_call sc' (normalize_nfc query) = inr vals) a2
    ∧ Matcher_call self pool arrival query limit
      = (Raised (Exception (failed_message (as_unicode e))), self',
         {| workers := workers pool; results := [] |}).
Proof.
  intros Hq Harr Hlen Hgood (t0 & sc0 & e0 & Hsc0 & He0).
  set (requests := imap (λ i scorer, (i, scorer, normalize_nfc query))
                        (scorers self)).
  assert (∀ t, t ∈ arrival → ∃ sc, scorers self !! t = Some sc
            ∧ requests !! t = Some (t, sc, normalize_nfc query)) as Hreq.
  { intros t Ht. rewrite Harr in Ht. apply elem_of_seq in Ht.
    destruct (lookup_lt_is_Some_2 (scorers self) t) as [sc Hsc]; [lia|].
    exists sc. split; [done|]. unfold requests.
    rewrite list_lookup_imap, Hsc. done. }
  set (run := λ t, Worker_run <$> requests !! t).
  assert (∃ queue, omap run arrival = queue ∧ length queue = length arrival
            ∧ Forall2 (λ u r, ∃ sc, scorers self !! u = Some sc
                         ∧ r = Worker_run (u, sc, normalize_nfc query))
                      arrival queue) as (queue & Hqueue & Hqlen & Hrel).
  { clear -Hreq. induction arrival as [|u arrival IH].
    - exists []. repeat split. constructor.
    - destruct IH as (queue & Hqueue & Hqlen & Hrel).
      { intros t Ht. apply Hreq. by apply elem_of_cons; right. }
      destruct (Hreq u) as (sc & Hsc & Hu); [apply elem_of_cons; by left|].
      exists (Worker_run (u, sc, normalize_nfc query) :: queue).
      split; [|split; [simpl; by rewrite Hqlen|constructor; eauto]].
      csimpl. unfold run at 1. rewrite Hu. csimpl. by rewrite Hqueue. }
  assert (Forall (entry_readable (task_maps self)) queue) as Hread.
  { apply Forall_forall. intros r Hr.
    apply list_elem_of_lookup in Hr as [i Hi].
    destruct (Forall2_lookup_r _ _ _ _ _ Hrel Hi) as (u & Hu & sc & Hsc & ->).
    simpl. destruct (scorer_call sc (normalize_nfc query)) as [e|vals] eqn:Hcall;
      [done|]. simpl. by apply (Hgood u sc). }
  assert (∃ x, Failure x ∈ queue) as Hfail.
  { assert (t0 ∈ arrival) as Ht0.
    { rewrite Harr. apply elem_of_seq.
      apply lookup_lt_Some in Hsc0. lia. }
    apply list_elem_of_lookup in Ht0 as [i Hi].
    destruct (Forall2_lookup_l _ _ _ _ _ Hrel Hi) as (r & Hr & sc & Hsc & ->).
    rewrite Hsc0 in Hsc. injection Hsc as <-.
    exists (as_unicode e0). apply list_elem_of_lookup. exists i.
    rewrite Hr. simpl. by rewrite He0. }
  destruct (last_failure_spec queue Hfail) as (q1 & x & q2 & Hsplit & Hq2 & Hlast).
  destruct (collect_readable (task_maps self) queue (scorers self) ∅ ∅ None
              Hread) as (scores' & positions' & scs' & Hcollect).
  rewrite Hsplit in Hrel.
  apply Forall2_app_inv_r in Hrel as (a1 & a2' & Hrel1 & Hrel2 & Harrival).
  apply Forall2_cons_inv_r in Hrel2 as (t & a2 & (sc & Hsc & Hrun) & Hrel2 & ->).
  simpl in Hrun.
  destruct (scorer_call sc (normalize_nfc query)) as [e|vals] eqn:Hcall;
    [|done].
  injection Hrun as ->.
  exists a1, t, a2, sc, e. eexists.
  split; [done|]. split; [done|]. split; [done|]. split.
  - apply Forall_forall. intros u Hu.
    apply list_elem_of_lookup in Hu as [i Hi].
    destruct (Forall2_lookup_l _ _ _ _ _ Hrel2 Hi) as (r & Hr & sc' & Hsc' & ->).
    apply list_elem_of_lookup_2 in Hr.
    destruct (proj1 (Forall_forall _ _) Hq2 _ Hr) as (t' & vals & Heq).
    simpl in Heq.
    destruct (scorer_call sc' (normalize_nfc query)) as [e'|vals'] eqn:Hcall';
      [done|]. eauto.
  - unfold Matcher_call. cbv zeta. fold requests. fold run.
    rewrite Hq. simpl. rewrite Hqueue.
    assert (length (task_maps self) = length queue) as ->.
    { rewrite Hqlen, Harr, length_seq. done. }
    rewrite Hcollect, Hlast. simpl. done.
Qed.

End reported_failure.

Section reported_failure_example.
#[local] Existing Instance ascii_externals.

Lemma scorer_failure_is_reported_witness :
  ∃ a1 t a2 sc e self',
    [1; 0]%nat = a1 ++ t :: a2
    ∧ scorers demo_matcher !! t = Some sc
    ∧ ListScorer_call sc (normalize_nfc []) = inl e
    ∧ Forall (λ u, ∃ sc' vals, scorers demo_matcher !! u = Some sc'
                 ∧ ListScorer_call sc' (normalize_nfc []) = inr vals) a2
    ∧ Matcher_call (H0 := ListScorer) demo_matcher demo_pool [1; 0]%nat [] None
      = (Raised (Exception (failed_message (as_unicode e))), self',
         {| workers := workers demo_pool; results := [] |}).
Proof.
  apply (scorer_failure_is_reported (SC := ListScorer) demo_matcher demo_pool
           [1; 0]%nat [] None).
  - reflexivity.
  - apply perm_swap.
  - reflexivity.
  - intros [|[|t]] sc vals Hsc Hcall; simpl in Hsc; [| |done];
      injection Hsc as <-; vm_compute in Hcall; done.
  - exists 0%nat. eexists _, _. split; [reflexivity|].
    vm_compute. reflexivity.
Defined.

End reported_failure_example.
(** ** Proofs: the limit, and a matcher without candidates *)

Section limit_prefix.
Context {E : Externals} {Sc : Type} {SC : Scorer Sc}.

Lemma first_occurrences_prefix {K} `{EqDecision K} (l1 l2 : list K) :
  first_occurrences l1 `prefix_of` first_occurrences (l1 ++ l2).
Proof.
  unfold first_occurrences. rewrite foldl_app.
  generalize (foldl (λ acc k, if decide (k ∈ acc) then acc else acc ++ [k])
                    [] l1).
  induction l2 as [|k l2 IH]; intros acc; simpl; [done|].
  destruct (decide (k ∈ acc)); [apply IH|].
  etrans; [|apply IH]. by apply prefix_app_r.
Qed.

Lemma to_mapping_take_prefix (l : list entry) j :
  (to_mapping (take j l)).*1 `prefix_of` (to_mapping l).*1.
Proof.
  rewrite !to_mapping_keys. rewrite <- (take_drop j l) at 2.
  unfold nonzero. rewrite filter_app, fmap_app.
  apply first_occurrences_prefix.
Qed.

(** X11: the limit only cuts the ranking.  The strings returned under any
    limit are the first strings returned without one, in the same order; a
    limit at or above the number of candidates changes nothing; and a
    negative limit [-j] is the limit [len(items) - j], or 0 when that is
    negative. *)
Theorem limit_keeps_the_head_of_the_ranking (self : Matcher Sc) pool arrival
    query m self' pool' :
  Matcher_call self pool arrival query None = (Done m, self', pool') →
  ∀ k, ∃ mk,
    (Matcher_call self pool arrival query (Some k)).1.1 = Done mk
    ∧ mk.*1 `prefix_of` m.*1
    ∧ (len (m_items self) ≤ k → mk = m)
    ∧ (k < 0 →
       (Matcher_call self pool arrival query
                     (Some (Z.max 0 (len (m_items self) + k)))).1.1 = Done mk).
Proof.
  intros Hcall k.
  apply Matcher_call_Done in Hcall as (scores & positions & l & Hl & -> & _ & Hany).
  apply sorted_entries_items in Hl as [_ Hlen].
  exists (to_mapping (truncate (Some k) l)). split; [apply Hany|].
  simpl. unfold py_del_from. split; [apply to_mapping_take_prefix|]. split.
  - intros Hk. destruct (Z.leb_spec 0 k); [|unfold len in *; lia].
    rewrite take_ge; [done|]. unfold len in *. lia.
  - intros Hk. rewrite Hany. simpl. unfold py_del_from.
    destruct (Z.leb_spec 0 k); [lia|].
    destruct (Z.leb_spec 0 (Z.max 0 (len (m_items self) + k))); [|lia].
    unfold len. rewrite Hlen. done.
Qed.

Lemma omap_none {A B} (f : A → option B) (l : list A) :
  (∀ x, f x = None) → omap f l = [].
Proof. intros Hf. induction l as [|x l IH]; csimpl; [done|]. by rewrite Hf. Qed.

(** X7: a matcher none of whose candidates is a non-empty string has no
    partition and no scorer; every query, the empty one included, is
    answered with the empty mapping, without reading the result queue. *)
Theorem no_candidate_no_scoring cpu_count (pool : Pool Sc) its :
  Forall (λ x, x = []) its →
  ∃ self pool',
    Matcher_init cpu_count pool its = (Done self, pool')
    ∧ m_items self = [] ∧ task_maps self = [] ∧ scorers self = []
    ∧ ∀ arrival query limit,
        (Matcher_call self pool' arrival query limit).1.1 = Done []
        ∧ results (Matcher_call self pool' arrival query limit).2
          = results pool'.
Proof.
  intros Hall. unfold Matcher_init.
  assert (filter (λ x : pystr, x ≠ []) its = []) as ->.
  { induction Hall as [|x l -> _ IH]; [done|].
    by rewrite filter_cons_False by (intros Hx; done). }
  set (pool' := start_workers cpu_count pool).
  assert (workers pool' ≠ 0%nat) as HW.
  { unfold pool', start_workers.
    destruct (decide (workers pool = 0%nat)); simpl; lia. }
  unfold split. destruct (decide (workers pool' = 0%nat)); [done|].
  simpl. eexists _, pool'. split; [done|]. simpl.
  split; [done|]. split; [done|]. split; [done|].
  intros arrival query limit. unfold Matcher_call. simpl.
  rewrite omap_none by done. rewrite app_nil_r. simpl.
  split; [|done]. unfold rank, sorted_entries. simpl.
  destruct limit; [|done]. unfold truncate, py_del_from.
  by rewrite take_nil.
Qed.

End limit_prefix.

Section limit_prefix_example.
#[local] Existing Instance ascii_externals.

Lemma limit_keeps_the_head_of_the_ranking_witness :
  ∃ mk,
    (Matcher_call demo_matcher demo_pool [0; 1]%nat (s "one") (Some (-1))).1.1
    = Done mk
    ∧ mk.*1 `prefix_of`
        [(s "im/one.gif", [3; 4; 5]); (s "text/one.html", [5; 6; 7])].*1
    ∧ (len (m_items demo_matcher) ≤ -1 →
       mk = [(s "im/one.gif", [3; 4; 5]); (s "text/one.html", [5; 6; 7])])
    ∧ (-1 < 0 →
       (Matcher_call demo_matcher demo_pool [0; 1]%nat (s "one")
                     (Some (Z.max 0 (len (m_items demo_matcher) + -1)))).1.1
       = Done mk).
Proof.
  refine (limit_keeps_the_head_of_the_ranking demo_matcher demo_pool
            [0; 1]%nat (s "one") _ _ _ _ (-1)).
  vm_compute. reflexivity.
Defined.

Lemma no_candidate_no_scoring_witness :
  ∃ self pool',
    Matcher_init 4 empty_pool [[]; []] = (Done self, pool')
    ∧ m_items self = [] ∧ task_maps self = [] ∧ scorers self = []
    ∧ ∀ arrival query limit,
        (Matcher_call self pool' arrival query limit).1.1 = Done []
        ∧ results (Matcher_call self pool' arrival query limit).2
          = results pool'.
Proof.
  apply (no_candidate_no_scoring 4 empty_pool [[]; []]).
  repeat constructor.
Defined.

End limit_prefix_example.
(** ** Proofs: the number of workers does not show in the result *)

Section worker_count.
Context `{Externals}.

Lemma Matcher_call_no_items W (self : Matcher PyScorer) pool arrival query
    limit :
  matcher_ok W self → m_items self = [] →
  (Matcher_call self pool arrival query limit).1.1 = Done [].
Proof.
  intros (HW & _ & tasks & Hsplit & Hmaps & Hsc) Hnone.
  rewrite Hnone in Hsplit. unfold split in Hsplit.
  destruct (decide (W = 0%nat)); [lia|]. simpl in Hsplit.
  injection Hsplit as <-. apply Forall2_nil_inv_r in Hsc.
  unfold Matcher_call. rewrite Hmaps, Hsc, Hnone. simpl.
  unfold rank, sorted_entries. simpl.
  destruct limit; [unfold truncate, py_del_from; by rewrite take_nil|done].
Qed.


End worker_count.

Section worker_count_example.
#[local] Existing Instance ascii_externals.


End worker_count_example.
(** ** Proofs: a query that is the candidate itself *)

Section exact_match.
Context `{Externals}.
Hypothesis primary_eq_refl : ∀ c, primary_eq c c = true.

Lemma for_loop_exact ctx (item : pystr) :
  ∀ ns i last_idx score positions stack,
    ns = drop i item → 0 ≤ last_idx → length positions = length item →
    ∃ score' new,
      for_loop ctx item (len item) ns i (Z.of_nat i) last_idx score positions
               stack
      = Done (score',
              take i positions ++ (Z.of_nat <$> seq i (length ns)),
              new ++ stack)
      ∧ Forall (frame_short item) new.
Proof.
  induction ns as [|n ns IH]; intros i last_idx score positions stack
    Hns Hl Hp.
  - exists score, []. simpl. split; [|constructor].
    rewrite app_nil_r, take_ge; [done|].
    destruct (decide (length positions ≤ i)%nat) as [|Hlt]; [done|].
    assert (is_Some (item !! i)) as [c Hc] by (apply lookup_lt_is_Some; lia).
    apply (f_equal (λ l, l !! 0%nat)) in Hns.
    rewrite lookup_drop, Nat.add_0_r, Hc in Hns. done.
  - assert (Hi : (i < length item)%nat).
    { destruct (decide (i < length item)%nat) as [|Hge]; [done|].
      rewrite drop_ge in Hns by lia. done. }
    assert (Hns' : ns = drop (S i) item).
    { replace (S i) with (i + 1)%nat by lia. rewrite <- drop_drop, <- Hns. done. }
    simpl. destruct (Z.ltb_spec (len item - Z.of_nat i) (len item - Z.of_nat i));
      [lia|].
    destruct (len_slice_from item (Z.of_nat i)) as [-> _];
      [unfold len; lia|].
    rewrite Nat2Z.id, <- Hns. simpl. rewrite primary_eq_refl. simpl.
    rewrite !Z.add_0_l.
    destruct (score_for_char_Done ctx item (Z.of_nat i) last_idx) as [sc ->];
      [done|unfold len; lia|].
    simpl. unfold py_setitem.
    destruct (decide (i < length positions)%nat) as [_|Hge]; [|lia]. simpl.
    destruct (IH (S i) (Z.of_nat i) (score + sc)%float
                 (<[i:=Z.of_nat i]> positions)
                 ((Z.of_nat i + 1, i, last_idx, score, positions) :: stack))
      as (score' & new & Hrun & Hnew);
      [done|lia|by rewrite length_insert|].
    replace (Z.of_nat (S i)) with (Z.of_nat i + 1) in Hrun by lia.
    exists score', (new ++ [(Z.of_nat i + 1, i, last_idx, score, positions)]).
    split.
    + rewrite Hrun, <- app_assoc. csimpl.
      rewrite take_S_insert by lia. by rewrite <- app_assoc.
    + apply Forall_app. split; [done|]. constructor; [|constructor].
      unfold frame_short. simpl. lia.
Qed.

Lemma while_loop_short ctx (item : pystr) :
  ∀ fuel stack mem final_score final_positions score positions mem',
    Forall (frame_short item) stack →
    map_Forall (λ key e, e.1 = 0%float ∨ key.1.1 = 0) mem →
    (final_score <? 0)%float = false →
    while_loop true fuel ctx item item stack mem final_score final_positions
               false
      = Done (score, positions, mem') →
    score = final_score ∧ positions = final_positions.
Proof.
  induction fuel as [|fuel IH];
    intros stack mem final_score final_positions sc ps mem' Hshort Hmem Hfinal
      Hrun.
  - destruct stack as [|[[[[hidx nidx] last_idx] score] positions] stack];
      simpl in Hrun; [|done]. by injection Hrun as <- <- _.
  - destruct stack as [|[[[[hidx nidx] last_idx] score] positions] stack];
      simpl in Hrun; [by injection Hrun as <- <- _|].
    apply Forall_cons in Hshort as [(Hh & Hn & Hp) Hshort]. simpl in Hh, Hn, Hp.
    destruct (mem !! (hidx, nidx, last_idx)) as [[score' positions']|] eqn:Hhit.
    + destruct (Hmem _ _ Hhit) as [Hz|Hz]; simpl in Hz; [|lia]. subst score'.
      simpl in Hrun. rewrite Hfinal in Hrun. by apply IH in Hrun.
    + destruct (drop nidx item) as [|n ns] eqn:Hdrop.
      { apply (f_equal length) in Hdrop. rewrite length_drop in Hdrop.
        simpl in Hdrop. lia. }
      simpl in Hrun.
      destruct (Z.ltb_spec (len item - hidx) (len item - Z.of_nat nidx));
        [|lia].
      simpl in Hrun. rewrite Hfinal in Hrun. apply IH in Hrun; try done.
      apply map_Forall_insert_2; [by left|done].
Qed.

(** X4: when every character is equal to itself at primary strength, a
    query that is the candidate itself is matched at the offsets
    0, 1, ..., len - 1, whatever the score. *)
Theorem exact_match_positions ctx (item : pystr) :
  memory ctx = Some ∅ →
  ∃ score ctx',
    process_item ctx item item
    = Done (score, Z.of_nat <$> seq 0 (length item), ctx').
Proof.
  intros Hmem.
  destruct (process_item_with_total true ctx item item ∅ Hmem)
    as (score & positions & ctx' & Hrun).
  exists score, ctx'. unfold process_item. rewrite Hrun. do 3 f_equal.
  unfold process_item_with in Hrun. rewrite Hmem in Hrun.
  destruct (while_loop true (budget item) ctx item item
              [(0, 0%nat, 0, 0%float, replicate (length item) (-1))] ∅
              0%float (replicate (length item) (-1)) true)
    as [[[sc ps] mem']| |] eqn:Hwhile; simpl in Hrun; [|done|done].
  injection Hrun as <- <- _.
  unfold budget in Hwhile.
  pose proof (pow2_pos (length item)) as Hpow.
  destruct (2 ^ length item)%nat as [|fuel]; [lia|].
  simpl in Hwhile. rewrite lookup_empty in Hwhile.
  destruct (for_loop_exact ctx item (drop 0 item) 0 0 0%float
              (replicate (length item) (-1)) [])
    as (score' & new & Hfor & Hnew);
    [done|done|by rewrite length_replicate|].
  rewrite drop_0 in Hfor. simpl in Hfor. change (Z.of_nat 0) with 0 in Hfor.
  unfold frame in Hfor. rewrite drop_0, Hfor in Hwhile.
  simpl in Hwhile. rewrite app_nil_r in Hwhile.
  destruct (0 <? score')%float eqn:Hlt.
  - apply while_loop_short in Hwhile as [_ ->]; try done.
    + intros key e Hkey. apply lookup_insert_Some in Hkey as [[<- _]|[_ Hkey]];
        [by right|done].
    + by apply ltb_asym.
  - apply while_loop_short in Hwhile as [_ ->]; try done.
    intros key e Hkey. apply lookup_insert_Some in Hkey as [[<- _]|[_ Hkey]];
      [by right|done].
Qed.

End exact_match.

Section exact_match_example.
#[local] Existing Instance ascii_externals.

Lemma exact_match_positions_witness :
  ∃ score ctx',
    process_item (with_memory (PyScorer_init [s "a.B"]) 0.5 (Some ∅))
                 (s "a.B") (s "a.B")
    = Done (score, Z.of_nat <$> seq 0 (length (s "a.B")), ctx').
Proof.
  apply (exact_match_positions (H := ascii_externals)).
  - intros c. apply bool_decide_eq_true_2. reflexivity.
  - reflexivity.
Defined.

End exact_match_example.
(** ** Proofs: what the memo table can cost *)

Section memo_bound.
Context `{Externals}.

(** X3: when no placement has a NaN for score, the score [process_item]
    returns with its memo table is never above the score the same search
    finds without the table: the table can lose the best placement, it
    cannot invent a score. *)
Theorem memo_never_overestimates ctx haystack needle :
  memory ctx = Some ∅ →
  (∀ ps v, valid_placement haystack needle 0 ps = true →
     placement_score ctx haystack 0 ps 0%float = Done v → ordered v) →
  ∃ score positions ctx1 best best_positions ctx2,
    process_item ctx haystack needle = Done (score, positions, ctx1)
    ∧ process_item_exhaustive ctx haystack needle
      = Done (best, best_positions, ctx2)
    ∧ (best <? score)%float = false.
Proof.
  intros Hmem Hord.
  destruct (process_item_with_total true ctx haystack needle ∅ Hmem)
    as (score & positions & ctx1 & Hrun).
  destruct (process_item_result_sound ctx haystack needle score positions
              ctx1 Hmem Hrun) as [_ Hres].
  destruct (exhaustive_search_visits_every_placement ctx haystack needle ∅
              Hmem)
    as (seen & best & bps & ctx2 & Hex & Hfold & _ & Hsound & Hcomplete).
  exists score, positions, ctx1, best, bps, ctx2.
  split; [done|]. split; [done|].
  assert (Forall ordered seen.*1) as Hall.
  { apply Forall_forall. intros x Hx.
    apply list_elem_of_fmap in Hx as ([v' qs'] & -> & Hin). simpl.
    destruct (Hsound _ _ Hin) as [->|[Hv' Hs']]; [done|]. eauto. }
  destruct (keep_larger_bound seen.*1 0%float eq_refl Hall) as (Hzero & _ & Hb).
  rewrite Hfold. destruct Hres as [->|[Hv Hs]]; [done|].
  apply Hb. apply list_elem_of_fmap.
  exists (score, positions). split; [done|]. by apply Hcomplete.
Qed.

End memo_bound.

(** ** Proofs: a call that succeeds has read its own results *)

Section drained_queue.
Context {E : Externals} {Sc : Type} {SC : Scorer Sc}.

(** X12: a call that starts with an empty result queue and returns a mapping
    has read one result per partition, all of them successes whose values
    could be iterated to the end, and leaves the queue empty. *)
Theorem successful_call_drains_the_queue (self : Matcher Sc) (pool : Pool Sc)
    (arrival : list nat) query limit m self' pool' :
  results pool = [] →
  length arrival = length (task_maps self) →
  Matcher_call self pool arrival query limit = (Done m, self', pool') →
  results pool' = []
  ∧ m_items self' = m_items self ∧ task_maps self' = task_maps self
  ∧ is_Some (sort_keys self')
  ∧ Forall (λ t, ∃ sc vals tm,
              scorers self !! t = Some sc
              ∧ scorer_call sc (normalize_nfc query) = inr vals
              ∧ task_maps self !! t = Some tm
              ∧ consumable tm 0 vals) arrival.
Proof.
  intros Hq Harr Hcall. unfold Matcher_call in Hcall. cbv zeta in Hcall.
  rewrite Hq in Hcall. simpl in Hcall.
  set (requests := imap (λ i scorer, (i, scorer, normalize_nfc query))
                        (scorers self)) in *.
  set (run := λ t, Worker_run <$> requests !! t) in *.
  destruct (collect (length (task_maps self)) (omap run arrival)
              (task_maps self) (scorers self) ∅ ∅ None)
    as [[r scs] queue'] eqn:Hcollect.
  injection Hcall as Hr <- <-. simpl.
  destruct r as [[[scores positions] error]| |]; [|done|done].
  simpl in Hr. destruct error as [x|]; [done|].
  apply collect_Done_inv in Hcollect as (_ & used & Hused & Hlen & Hgood).
  pose proof (omap_length_le run arrival) as Hle.
  assert (queue' = []) as ->.
  { apply (f_equal length) in Hused. rewrite length_app in Hused.
    destruct queue'; [done|]. simpl in Hused. lia. }
  rewrite app_nil_r in Hused. subst used.
  split; [done|]. split; [done|]. split; [done|]. split.
  { destruct (sort_keys self); eauto. }
  assert (length (omap run arrival) = length arrival) as Hfull by lia.
  apply omap_full in Hfull.
  clear Hlen Hle Harr Hr.
  induction arrival as [|t arrival IH]; [constructor|].
  apply Forall_cons in Hfull as [[r Hrt] Hfull].
  csimpl in Hgood. rewrite Hrt in Hgood. csimpl in Hgood.
  apply Forall_cons in Hgood as [(t' & g & tm & -> & Htm & Hc) Hgood].
  constructor; [|by apply IH].
  unfold run, requests in Hrt. rewrite list_lookup_imap in Hrt.
  destruct (scorers self !! t) as [sc|] eqn:Hsc; [|done].
  simpl in Hrt. injection Hrt as Hrt.
  destruct (scorer_call sc (normalize_nfc query)) as [e|vals] eqn:Hcall;
    [done|].
  injection Hrt as <- <-. exists sc, vals, tm. done.
Qed.

End drained_queue.

Section more_examples.
#[local] Existing Instance ascii_externals.

Lemma successful_call_drains_the_queue_witness :
  results (Matcher_call demo_matcher demo_pool [1; 0]%nat (s "one") None).2 = []
  ∧ m_items (Matcher_call demo_matcher demo_pool [1; 0]%nat (s "one") None).1.2
    = m_items demo_matcher
  ∧ task_maps (Matcher_call demo_matcher demo_pool [1; 0]%nat (s "one") None).1.2
    = task_maps demo_matcher
  ∧ is_Some (sort_keys
               (Matcher_call demo_matcher demo_pool [1; 0]%nat (s "one")
                             None).1.2)
  ∧ Forall (λ t, ∃ sc vals tm,
              scorers demo_matcher !! t = Some sc
              ∧ scorer_call sc (normalize_nfc (s "one")) = inr vals
              ∧ task_maps demo_matcher !! t = Some tm
              ∧ consumable tm 0 vals) [1; 0]%nat.
Proof.
  refine (successful_call_drains_the_queue demo_matcher demo_pool [1; 0]%nat
            (s "one") None _ _ _ _ _ _).
  - reflexivity.
  - reflexivity.
  - vm_compute. reflexivity.
Defined.

End more_examples.

Section memo_bound_example.
#[local] Existing Instance ascii_externals.

Lemma placements_of_abc_ordered ps v :
  valid_placement (s "aabxc/c") (s "abc") 0 ps = true →
  placement_score (with_memory (PyScorer_init [s "aabxc/c"]) 0.25 (Some ∅))
                  (s "aabxc/c") 0 ps 0%float = Done v →
  ordered v.
Proof.
  intros Hv Hs.
  destruct ps as [|p ps]; [by vm_compute in Hv|].
  apply valid_placement_cons in Hv as (Hp & (cp & Hcp & Hmp) & Hv).
  destruct ps as [|q ps]; [by simpl in Hv|].
  apply valid_placement_cons in Hv as (Hq & (cq & Hcq & Hmq) & Hv).
  destruct ps as [|r ps]; [by simpl in Hv|].
  apply valid_placement_cons in Hv as (Hr & (cr & Hcr & Hmr) & Hv).
  destruct ps as [|? ?]; [clear Hv|by simpl in Hv].
  change (len (s "aabxc/c")) with 7 in *.
  assert (p = 0 ∨ p = 1 ∨ p = 2 ∨ p = 3 ∨ p = 4) as Hp' by lia.
  assert (q = 1 ∨ q = 2 ∨ q = 3 ∨ q = 4 ∨ q = 5) as Hq' by lia.
  assert (r = 2 ∨ r = 3 ∨ r = 4 ∨ r = 5 ∨ r = 6) as Hr' by lia.
  destruct Hp' as [->|[->|[->|[->| ->]]]];
    vm_compute in Hcp; injection Hcp as <-; vm_compute in Hmp; try done;
    (destruct Hq' as [->|[->|[->|[->| ->]]]];
     vm_compute in Hcq; injection Hcq as <-; vm_compute in Hmq; try done);
    (destruct Hr' as [->|[->|[->|[->| ->]]]];
     vm_compute in Hcr; injection Hcr as <-; vm_compute in Hmr; try done);
    vm_compute in Hs; injection Hs as <-; reflexivity.
Qed.

Lemma memo_never_overestimates_witness :
  ∃ score positions ctx1 best best_positions ctx2,
    process_item (with_memory (PyScorer_init [s "aabxc/c"]) 0.25 (Some ∅))
                 (s "aabxc/c") (s "abc") = Done (score, positions, ctx1)
    ∧ process_item_exhaustive
        (with_memory (PyScorer_init [s "aabxc/c"]) 0.25 (Some ∅))
        (s "aabxc/c") (s "abc") = Done (best, best_positions, ctx2)
    ∧ (best <? score)%float = false.
Proof.
  apply (memo_never_overestimates
           (with_memory (PyScorer_init [s "aabxc/c"]) 0.25 (Some ∅))).
  - reflexivity.
  - exact placements_of_abc_ordered.
Defined.

End memo_bound_example.
(** ** Proofs: the values of [PyScorer.__call__] *)

Section pyscorer_values.
Context `{Externals}.

Lemma process_item_keeps_config ctx haystack needle score positions ctx' :
  process_item ctx haystack needle = Done (score, positions, ctx') →
  same_config ctx ctx'.
Proof.
  unfold process_item, process_item_with.
  destruct (memory ctx) as [mem|]; [|done].
  destruct (while_loop _ _ _ _ _ _ _ _ _ _) as [[[sc ps] mem']| |];
    simpl; [|done|done].
  intros [= <- <- <-]. done.
Qed.

Lemma PyScorer_iter_values (self : PyScorer) needle post :
  needle ≠ [] →
  match post with [] => True | x :: _ => x = [] end →
  ∀ pre (self' : PyScorer),
    Forall (λ x, x ≠ []) pre → same_config self self' →
    Forall2 (λ v item, fresh_score self item needle = Done v)
            (gen_values (PyScorer_iter self' (pre ++ post) needle)) pre
    ∧ gen_end (PyScorer_iter self' (pre ++ post) needle)
      = match post with [] => Done () | _ :: _ => Raised ZeroDivisionError end
    ∧ same_config self (gen_final (PyScorer_iter self' (pre ++ post) needle)).
Proof.
  intros Hn Hpost. induction pre as [|item pre IH]; intros self' Hpre Hcfg.
  - destruct post as [|x post]; simpl.
    { split; [constructor|]. split; done. }
    subst x. unfold item_max_score. simpl.
    split; [constructor|]. split; done.
  - apply Forall_cons in Hpre as [Hitem Hpre]. simpl.
    destruct (item_max_score_nonempty item needle Hitem Hn) as [m Hm].
    rewrite Hm.
    rewrite <- (same_config_with_memory self self') by done.
    destruct (process_item_with_total true (with_memory self m (Some ∅)) item
                needle ∅ eq_refl) as (sc & ps & ctx' & Hrun).
    fold process_item in Hrun. rewrite Hrun. simpl.
    assert (same_config self ctx') as Hcfg'.
    { apply process_item_keeps_config in Hrun.
      destruct Hrun as (? & ? & ? & ?). repeat split; done. }
    destruct (IH ctx' Hpre Hcfg') as (Hvals & Hend & Hfinal).
    split; [|done]. constructor; [|done].
    unfold fresh_score. rewrite Hm. simpl. rewrite Hrun. done.
Qed.

(** X5: [PyScorer.__call__] with a non-empty query yields one pair per
    item, in order, and each pair is what scoring that item alone gives:
    nothing is carried from one item, or one call, to the next.  It stops at
    the first empty item, where it raises [ZeroDivisionError] after having
    yielded the pairs of the items before it. *)
Theorem PyScorer_call_values (self : PyScorer) needle pre post :
  needle ≠ [] → items self = pre ++ post →
  Forall (λ x, x ≠ []) pre →
  match post with [] => True | x :: _ => x = [] end →
  Forall2 (λ v item, fresh_score self item needle = Done v)
          (gen_values (PyScorer_call self needle)) pre
  ∧ gen_end (PyScorer_call self needle)
    = match post with [] => Done () | _ :: _ => Raised ZeroDivisionError end
  ∧ same_config self (gen_final (PyScorer_call self needle)).
Proof.
  intros Hn Hitems Hpre Hpost. unfold PyScorer_call. rewrite Hitems.
  by apply PyScorer_iter_values.
Qed.

End pyscorer_values.

Section pyscorer_values_example.
#[local] Existing Instance ascii_externals.

Lemma PyScorer_call_values_witness :
  Forall2 (λ v item,
             fresh_score (PyScorer_init [s "ab"; []; s "b"]) item (s "b")
             = Done v)
          (gen_values (PyScorer_call (PyScorer_init [s "ab"; []; s "b"])
                                     (s "b")))
          [s "ab"]
  ∧ gen_end (PyScorer_call (PyScorer_init [s "ab"; []; s "b"]) (s "b"))
    = Raised ZeroDivisionError
  ∧ same_config (PyScorer_init [s "ab"; []; s "b"])
      (gen_final (PyScorer_call (PyScorer_init [s "ab"; []; s "b"]) (s "b"))).
Proof.
  apply (PyScorer_call_values (PyScorer_init [s "ab"; []; s "b"]) (s "b")
           [s "ab"] [[]; s "b"]).
  - done.
  - reflexivity.
  - repeat constructor. done.
  - reflexivity.
Defined.

End pyscorer_values_example.
(** ** Proofs: an error raised while the values are iterated *)

Section iteration_error.
Context {E : Externals} {Sc : Type} {SC : Scorer Sc}.

Lemma consume_raises (tm : gmap nat nat) e :
  ∀ (g : gen Sc (float * list Z)) i scores positions,
    raises_at tm i g e →
    ∃ st, consume tm i g scores positions = (Raised e, st).
Proof.
  induction g as [r st|[score pos] st rest IH]; intros i scores positions Hr;
    simpl in *.
  - rewrite Hr. simpl. eauto.
  - destruct Hr as [[item ->] Hr]. by apply IH.
Qed.

Lemma collect_prefix maps (q : list (wresult Sc)) n :
  ∀ (q1 : list (wresult Sc)) scs scores positions error,
    Forall (entry_readable maps) q1 →
    ∃ scs' scores' positions',
      collect (length q1 + n) (q1 ++ q) maps scs scores positions error
      = collect n q maps scs' scores' positions' (last_failure error q1).
Proof.
  induction q1 as [|[t vals|x] q1 IH]; intros scs scores positions error Hq.
  - simpl. eauto.
  - apply Forall_cons in Hq as [(tm & Htm & Hc) Hq]. simpl. rewrite Htm.
    destruct (consume_readable tm vals 0 scores positions Hc)
      as ([sc ps] & st & ->).
    by apply IH.
  - apply Forall_cons in Hq as [_ Hq]. simpl. by apply IH.
Qed.

(** X14: an exception raised while [Matcher.__call__] iterates the values of
    a partition leaves the call as it is, whatever the results read before
    it were, and the results that were not read yet stay on the shared
    queue. *)
Theorem iteration_error_escapes (self : Matcher Sc) (pool : Pool Sc)
    (arrival a1 a2 : list nat) (t : nat) query limit sc vals tm e :
  results pool = [] →
  arrival = a1 ++ t :: a2 →
  length arrival = length (task_maps self) →
  Forall (λ u, ∃ scu, scorers self !! u = Some scu
            ∧ ∀ valsu, scorer_call scu (normalize_nfc query) = inr valsu →
                ∃ tmu, task_maps self !! u = Some tmu ∧ consumable tmu 0 valsu)
         a1 →
  Forall (λ u, is_Some (scorers self !! u)) a2 →
  scorers self !! t = Some sc →
  scorer_call sc (normalize_nfc query) = inr vals →
  task_maps self !! t = Some tm →
  raises_at tm 0 vals e →
  ∃ self' left,
    Matcher_call self pool arrival query limit
    = (Raised e, self', {| workers := workers pool; results := left |})
    ∧ length left = length a2.
Proof.
  intros Hq -> Hlen Ha1 Ha2 Hsc Hcall Htm Hraise.
  set (requests := imap (λ i scorer, (i, scorer, normalize_nfc query))
                        (scorers self)).
  set (run := λ u, Worker_run <$> requests !! u).
  assert (∀ u scu, scorers self !! u = Some scu →
            run u = Some (Worker_run (u, scu, normalize_nfc query))) as Hrun.
  { intros u scu Hu. unfold run, requests.
    by rewrite list_lookup_imap, Hu. }
  assert (∃ q1, omap run a1 = q1 ∧ length q1 = length a1
                ∧ Forall (entry_readable (task_maps self)) q1)
    as (q1 & Hq1 & Hlen1 & Hread).
  { clear -Ha1 Hrun. induction Ha1 as [|u a1 (scu & Hu & Hgood) _ IH].
    - exists []. repeat split. constructor.
    - destruct IH as (q1 & Hq1 & Hlen1 & Hread).
      exists (Worker_run (u, scu, normalize_nfc query) :: q1).
      split; [csimpl; by rewrite (Hrun u scu Hu), Hq1|].
      split; [simpl; by rewrite Hlen1|]. constructor; [|done].
      simpl. destruct (scorer_call scu (normalize_nfc query)) as [?|valsu];
        [done|]. simpl. by apply Hgood. }
  assert (∃ q2, omap run a2 = q2 ∧ length q2 = length a2)
    as (q2 & Hq2 & Hlen2).
  { clear -Ha2 Hrun. induction Ha2 as [|u a2 [scu Hu] _ IH].
    - by exists [].
    - destruct IH as (q2 & Hq2 & Hlen2).
      exists (Worker_run (u, scu, normalize_nfc query) :: q2).
      split; [csimpl; by rewrite (Hrun u scu Hu), Hq2|].
      simpl. by rewrite Hlen2. }
  unfold Matcher_call. cbv zeta. fold requests. fold run.
  rewrite Hq. simpl. rewrite omap_app. csimpl.
  rewrite (Hrun t sc Hsc), Hq1, Hq2. simpl. rewrite Hcall.
  rewrite <- Hlen, length_app. simpl.
  rewrite <- Hlen1.
  destruct (collect_prefix (task_maps self) (Success t vals :: q2)
              (S (length a2)) q1 (scorers self) ∅ ∅ None Hread)
    as (scs' & scores' & positions' & ->).
  simpl. rewrite Htm.
  destruct (consume_raises tm e vals 0 scores' positions' Hraise) as [st ->].
  simpl. eauto.
Qed.

End iteration_error.

Section iteration_error_example.
#[local] Existing Instance ascii_externals.

Lemma iteration_error_escapes_witness :
  ∃ self' left,
    Matcher_call demo_matcher demo_pool [1; 0]%nat [] None
    = (Raised ZeroDivisionError, self',
       {| workers := workers demo_pool; results := left |})
    ∧ length left = length [0%nat].
Proof.
  refine (iteration_error_escapes demo_matcher demo_pool [1; 0]%nat [] [0%nat]
            1%nat [] None _ _ _ ZeroDivisionError _ _ _ _ _ _ _ _ _).
  - reflexivity.
  - reflexivity.
  - reflexivity.
  - constructor.
  - repeat constructor. by eexists.
  - reflexivity.
  - reflexivity.
  - reflexivity.
  - vm_compute. reflexivity.
Defined.

End iteration_error_example.
(** ** Proofs: the matcher ranks what the scorers yield *)

Section assemble.
Context {E : Externals} {Sc : Type} {SC : Scorer Sc}.

Lemma consumable_by_length {A} (p : list (nat * A)) :
  ∀ (g : gen Sc (float * list Z)) i,
    gen_end g = Done () →
    (i + length (gen_values g) ≤ length p)%nat →
    consumable (task_map_of p) i g.
Proof.
  induction g as [r st|v st rest IH]; intros i Hend Hlen; simpl in *; [done|].
  split; [|apply IH; [done|lia]].
  rewrite task_map_of_lookup.
  destruct (lookup_lt_is_Some_2 p i) as [x ->]; [lia|]. by eexists.
Qed.

Lemma traverse_tables (scores : gmap nat float) (positions : gmap nat (list Z))
    (P : nat → float * list Z → Prop) :
  ∀ (l : list pystr) c,
    (∀ j, (j < length l)%nat →
       ∃ sc ps, scores !! (c + j)%nat = Some sc
                ∧ positions !! (c + j)%nat = Some ps ∧ P (c + j)%nat (sc, ps)) →
    ∃ ents,
      traverse (λ '(i, item),
          sc ← py_getitem scores i;
          ps ← py_getitem positions i;
          Done ((- sc)%float, item, ps))
        (imap (λ i item, ((c + i)%nat, item)) l)
      = Done ents
      ∧ Forall2 (λ '(g, item) e, ∃ sc ps, P g (sc, ps)
                                   ∧ e = ((- sc)%float, item, ps))
                (imap (λ i item, ((c + i)%nat, item)) l) ents.
Proof.
  induction l as [|item l IH]; intros c Hcov.
  - exists []. split; [done|constructor].
  - destruct (Hcov 0%nat) as (sc & ps & Hsc & Hps & HP); [simpl; lia|].
    destruct (IH (S c)) as (ents & Htr & Hall).
    { intros j Hj. replace (S c + j)%nat with (c + S j)%nat by lia.
      apply Hcov. simpl. lia. }
    assert (imap (λ i x, ((c + i)%nat, x)) (item :: l)
            = ((c + 0)%nat, item) :: imap (λ i x, ((S c + i)%nat, x)) l)
      as ->.
    { rewrite imap_cons. f_equal. apply imap_ext. intros j x _. simpl.
      f_equal. lia. }
    exists (((- sc)%float, item, ps) :: ents). split.
    + change (traverse ?f (?x :: ?l'))
        with (y ← f x; ys ← traverse f l'; Done (y :: ys)).
      rewrite Htr. cbv beta iota.
      rewrite (py_getitem_Some _ _ _ Hsc). simpl.
      rewrite (py_getitem_Some _ _ _ Hps). done.
    + constructor; [eauto|done].
Qed.

(** X8: for any scorer whose values, for every partition, end without an
    exception and are as many as the partition has candidates,
    [Matcher.__call__] returns the ranking of the candidates in which the
    candidate at the global index [g] carries value number [g mod delta] of
    the scorer of partition [g / delta], and leaves the queue empty. *)
Theorem matcher_ranks_partition_values W tasks (self : Matcher Sc)
    (pool : Pool Sc) (arrival : list nat) query limit :
  (1 ≤ W)%nat → split (m_items self) W = Done tasks →
  task_maps self = task_map_of <$> tasks → results pool = [] →
  arrival ≡ₚ seq 0 (length (task_maps self)) →
  Forall2 (λ sc p, ∃ vals,
             scorer_call sc (normalize_nfc query) = inr vals
             ∧ gen_end vals = Done ()
             ∧ length (gen_values vals) = length p)
          (scorers self) tasks →
  ∃ ents self',
    Matcher_call self pool arrival query limit
    = (Done (to_mapping (truncate limit (sorted key_lt ents))), self', pool)
    ∧ Forall2 (λ '(g, item) e, ∃ sc ps,
                 partition_value (scorers self) (normalize_nfc query)
                                 (ceil_div (length (m_items self)) W) g
                 = Some (sc, ps)
                 ∧ e = ((- sc)%float, item, ps))
              (imap (λ i item, (i, item)) (m_items self)) ents.
Proof.
  intros HW Hs Hmaps Hq Ha Hsc.
  unfold Matcher_call. rewrite Hq. simpl app.
  set (q := normalize_nfc query) in *.
  set (requests := imap (λ i scorer, (i, scorer, q)) (scorers self)).
  set (entries := Worker_run <$> requests).
  assert (Hf : omap (λ t, Worker_run <$> requests !! t) arrival
               = omap (λ t, entries !! t) arrival).
  { apply list_omap_ext, Forall_Forall2_diag, Forall_forall.
    intros t _. unfold entries. by rewrite list_lookup_fmap. }
  rewrite Hf, Hmaps, length_fmap. rewrite Hmaps, length_fmap in Ha.
  set (delta := ceil_div (length (m_items self)) W).
  assert (Hall : ∀ t p, tasks !! t = Some p →
    ∃ sc vals, scorers self !! t = Some sc ∧ scorer_call sc q = inr vals
               ∧ entries !! t = Some (Success t vals)
               ∧ gen_end vals = Done ()
               ∧ length (gen_values vals) = length p).
  { intros t p Hp.
    destruct (Forall2_lookup_r _ _ _ _ _ Hsc Hp)
      as (sc & Hsct & vals & Hcall & Hend & Hlen).
    exists sc, vals. repeat split; try done.
    unfold entries, requests.
    rewrite list_lookup_fmap, list_lookup_imap, Hsct. simpl.
    by rewrite Hcall. }
  assert (Hin : ∀ t, t ∈ arrival →
    ∃ vals p, entries !! t = Some (Success t vals) ∧ tasks !! t = Some p
              ∧ consumable (task_map_of p) 0 vals).
  { intros t Ht. rewrite Ha in Ht. apply elem_of_seq in Ht.
    destruct (lookup_lt_is_Some_2 tasks t) as [p Hp]; [lia|].
    destruct (Hall t p Hp) as (sc & vals & _ & _ & He & Hend & Hlen).
    exists vals, p. repeat split; try done.
    apply consumable_by_length; [done|lia]. }
  destruct (queue_good tasks entries arrival Hin) as (Hg & Hlen & Hmem).
  destruct (collect_any_ok (m_items self) W tasks entries HW Hs _ []
              (scorers self) ∅ ∅ Hg (collected_empty _ _))
    as (scores & positions & scs' & Hrun & Hcol).
  pose proof (Permutation_length Ha) as Hl. rewrite length_seq in Hl.
  rewrite Hlen, Hl in Hrun. rewrite Hrun. simpl.
  destruct (split_partitions (m_items self) W HW)
    as (parts & Hs' & _ & _ & _ & Hparts).
  rewrite Hs in Hs'. injection Hs' as <-.
  destruct (traverse_tables scores positions
              (λ g v, partition_value (scorers self) q delta g = Some v)
              (m_items self) 0) as (ents & Htr & Hents).
  { intros g Hg'. simpl.
    destruct (split_index_cover (m_items self) W tasks g HW Hs Hg')
      as (t & p & j & Hp & Hj & ->).
    fold delta.
    destruct (Hparts t p Hp) as ((_ & Hpd) & _). fold delta in Hpd.
    destruct (Hall t p Hp) as (sc & vals & Hsct & Hcall & He & Hend & Hvl).
    assert ((t * delta + j) / delta = t)%nat as Hdiv.
    { rewrite Nat.div_add_l by lia. rewrite Nat.div_small by lia. lia. }
    assert ((t * delta + j) mod delta = j)%nat as Hmod.
    { rewrite Nat.add_comm, Nat.Div0.mod_add. apply Nat.mod_small. lia. }
    destruct (lookup_lt_is_Some_2 (gen_values vals) j) as [[sc0 ps0] Hv];
      [lia|].
    destruct (Hcol (t * delta + j)%nat) as [Hscore Hpos].
    fold delta in Hscore, Hpos. rewrite Hdiv in Hscore, Hpos.
    destruct (decide (t ∈ _)) as [_|Hnot] in Hscore, Hpos.
    - unfold expected in Hscore, Hpos.
      rewrite Hdiv, He, Hmod, Hv in Hscore, Hpos. simpl in Hscore, Hpos.
      exists sc0, ps0. split; [done|]. split; [done|].
      unfold partition_value. rewrite Hdiv, Hsct. simpl.
      by rewrite Hcall, Hmod.
    - exfalso. apply Hnot. rewrite app_nil_r, elem_of_reverse, Hmem, Ha.
      apply elem_of_seq. apply lookup_lt_Some in Hp. lia. }
  exists ents. eexists. split.
  - unfold rank, sorted_entries.
    assert (imap (λ i item, ((0 + i)%nat, item)) (m_items self)
            = imap (λ i item, (i, item)) (m_items self)) as Himap
      by (apply imap_ext; done).
    rewrite Himap in Htr. rewrite Htr. simpl.
    destruct pool. simpl in *. by subst.
  - exact Hents.
Qed.

End assemble.

Section assemble_example.
#[local] Existing Instance ascii_externals.

Lemma matcher_ranks_partition_values_witness :
  ∃ ents self',
    Matcher_call demo_matcher demo_pool [1; 0]%nat (s "one") (Some 1)
    = (Done (to_mapping (truncate (Some 1) (sorted key_lt ents))), self',
       demo_pool)
    ∧ Forall2 (λ '(g, item) e, ∃ sc ps,
                 partition_value (scorers demo_matcher)
                                 (normalize_nfc (s "one"))
                                 (ceil_div (length (m_items demo_matcher)) 2) g
                 = Some (sc, ps)
                 ∧ e = ((- sc)%float, item, ps))
              (imap (λ i item, (i, item)) (m_items demo_matcher)) ents.
Proof.
  refine (matcher_ranks_partition_values 2
            [[(0%nat, s "im/one.gif"); (1%nat, s "im/two.gif")];
             [(2%nat, s "text/one.html")]]
            demo_matcher demo_pool [1; 0]%nat (s "one") (Some 1) _ _ _ _ _ _).
  - lia.
  - vm_compute. reflexivity.
  - reflexivity.
  - reflexivity.
  - apply perm_swap.
  - repeat constructor; eexists; (split; [reflexivity|]);
      split; vm_compute; reflexivity.
Defined.

End assemble_example.
(** ** Proofs: the offsets of the returned mapping, spelled out *)

Section matcher_offsets.
Context `{Externals}.

Lemma valid_placement_matches haystack needle :
  ∀ from ps,
    0 ≤ from → valid_placement haystack needle from ps = true →
    Forall2 (λ p n, 0 ≤ p < len haystack
                    ∧ ∃ c, haystack !! Z.to_nat p = Some c
                           ∧ primary_eq n c = true) ps needle.
Proof.
  induction needle as [|n needle IH]; intros from [|p ps] Hfrom Hv;
    try done; try constructor.
  - apply valid_placement_cons in Hv as (Hp & Hc & Hv). split; [lia|done].
  - apply valid_placement_cons in Hv as (Hp & Hc & Hv).
    apply (IH (p + 1)); [lia|done].
Qed.


End matcher_offsets.

Section matcher_offsets_example.
#[local] Existing Instance ascii_externals.


End matcher_offsets_example.

(** ** Proofs: what [main] writes for any mapping *)

(** X16: [main] shows at most the first ten entries of a mapping.  When the
    offsets of each of them, those equal to -1 left out, are strictly
    increasing and inside the candidate, it ends without an exception,
    writes each candidate in full followed by a newline, and emphasises
    exactly the characters at those offsets. *)
Theorem show_results_reproduces_paths (m : list (pystr * list Z)) :
  Forall (λ e, StronglySorted Z.lt (filter (λ q, q ≠ -1) e.2)
               ∧ Forall (λ q, 0 ≤ q < len e.1) (filter (λ q, q ≠ -1) e.2))
         (take 10 m) →
  ∃ out,
    show_results m = (out, Done ())
    ∧ mjoin (piece_text <$> out) = mjoin ((λ e, e.1 ++ newline) <$> take 10 m)
    ∧ mjoin (emphasised_text <$> out)
      = mjoin ((λ e, omap (λ q, e.1 !! Z.to_nat q) (filter (λ q, q ≠ -1) e.2))
                 <$> take 10 m)
    ∧ (length (take 10 m) ≤ 10)%nat.
Proof.
  intros Hall. unfold show_results.
  destruct (show_entries_spec (take 10 m) Hall) as (out & Hrun & Ht & He).
  exists out. split; [exact Hrun|]. split; [exact Ht|]. split; [exact He|].
  rewrite length_take. lia.
Qed.

Lemma show_results_reproduces_paths_witness :
  ∃ out,
    show_results [(s "text/one.html", [5; -1; 6; 7]); (s "ab", [1])]
    = (out, Done ())
    ∧ mjoin (piece_text <$> out)
      = mjoin ((λ e, e.1 ++ newline)
                 <$> take 10 [(s "text/one.html", [5; -1; 6; 7]);
                              (s "ab", [1])])
    ∧ mjoin (emphasised_text <$> out)
      = mjoin ((λ e, omap (λ q, e.1 !! Z.to_nat q)
                          (filter (λ q, q ≠ -1) e.2))
                 <$> take 10 [(s "text/one.html", [5; -1; 6; 7]);
                              (s "ab", [1])])
    ∧ (length (take 10 [(s "text/one.html", [5; -1; 6; 7]%Z);
                        (s "ab", [1]%Z)])
       ≤ 10)%nat.
Proof.
  apply show_results_reproduces_paths.
  repeat constructor; vm_compute; repeat constructor; discriminate.
Defined.
(** ** Proofs: a candidate that contains the query *)

Lemma ltb_zero_truthy x : (0 <? x)%float = true → truthy x = true.
Proof.
  unfold truthy. rewrite FloatAxioms.ltb_spec, FloatAxioms.eqb_spec.
  replace (Prim2SF 0) with (S754_zero false) by (vm_compute; reflexivity).
  unfold SFltb, SFeqb. by destruct (Prim2SF x) as [[]|[]| |[] m e].
Qed.

Lemma ltb_trans x y z :
  (x <? y)%float = true → (y <? z)%float = true → (x <? z)%float = true.
Proof.
  intros Hxy Hyz. destruct (ltb_ordered _ _ Hxy) as [Hx Hy].
  destruct (ltb_ordered _ _ Hyz) as [_ Hz].
  apply ltb_rank in Hxy, Hyz; try done. apply ltb_rank; try done.
  unfold rank_lt in *. lia.
Qed.

Section finds_subsequence.
Context `{Externals}.

Lemma is_subsequence_head n needle hay :
  is_subsequence (n :: needle) hay = true → is_subsequence needle hay = true.
Proof.
  induction hay as [|c hay IH]; [done|]. simpl. intros Hs.
  apply orb_prop in Hs as [Hs|Hs].
  - apply andb_prop in Hs as [_ Hs]. by apply is_subsequence_tail.
  - by apply is_subsequence_tail, IH.
Qed.

Lemma is_subsequence_length needle :
  ∀ hay, is_subsequence needle hay = true → (length needle ≤ length hay)%nat.
Proof.
  induction needle as [|n needle IH]; intros hay Hs; [simpl; lia|].
  induction hay as [|c hay IHhay]; [done|]. simpl in Hs.
  apply orb_prop in Hs as [Hs|Hs].
  - apply andb_prop in Hs as [_ Hs]. apply IH in Hs. simpl. lia.
  - apply IHhay in Hs. simpl in *. lia.
Qed.

Lemma find_from_subsequence n needle :
  ∀ hay i,
    is_subsequence (n :: needle) hay = true →
    ∃ p, find_from n hay i = i + Z.of_nat p ∧ (p < length hay)%nat
         ∧ is_subsequence needle (drop (S p) hay) = true.
Proof.
  induction hay as [|c hay IH]; intros i Hs; [done|]. simpl in Hs |- *.
  destruct (primary_eq n c) eqn:Hn.
  - exists 0%nat. split; [lia|]. split; [lia|]. rewrite drop_0.
    apply orb_prop in Hs as [Hs|Hs]; [done|]. by apply is_subsequence_head in Hs.
  - simpl in Hs. destruct (IH (i + 1) Hs) as (p & Hf & Hp & Hrest).
    exists (S p). split; [lia|]. split; [lia|done].
Qed.

(** When the rest of the needle fits in the rest of the haystack, the [for]
    loop runs to its end and what it builds completes the entry. *)
Lemma for_loop_greedy ctx haystack needle :
  ∀ ns i hidx last_idx score positions stack,
    ns = drop i needle →
    0 ≤ hidx ≤ len haystack → 0 ≤ last_idx →
    length positions = length needle →
    is_subsequence ns (drop (Z.to_nat hidx) haystack) = true →
    ∃ score' positions' new,
      for_loop ctx haystack (len needle) ns i hidx last_idx score positions stack
        = Done (score', positions', new ++ stack)
      ∧ completes ctx haystack needle (hidx, i, last_idx, score, positions)
                  positions' score'.
Proof.
  induction ns as [|n ns IH]; intros i hidx last_idx score positions stack
    Hns Hh Hl Hp Hsub.
  - exists score, positions, []. split; [done|].
    exists []. simpl. rewrite <- Hns.
    assert (length needle ≤ i)%nat as Hi.
    { destruct (decide (length needle ≤ i)%nat) as [|Hlt]; [done|].
      assert (is_Some (needle !! i)) as [c Hc]
        by (apply lookup_lt_is_Some; lia).
      apply (f_equal (λ l, l !! 0%nat)) in Hns.
      rewrite lookup_drop, Nat.add_0_r, Hc in Hns. done. }
    rewrite app_nil_r, take_ge by lia. done.
  - assert (Hi : (i < length needle)%nat).
    { destruct (decide (i < length needle)%nat) as [|Hge]; [done|].
      rewrite drop_ge in Hns by lia. done. }
    assert (Hns' : ns = drop (S i) needle).
    { replace (S i) with (i + 1)%nat by lia. rewrite <- drop_drop, <- Hns. done. }
    pose proof (is_subsequence_length _ _ Hsub) as Hfit.
    rewrite Hns, !length_drop in Hfit.
    simpl.
    destruct (Z.ltb_spec (len haystack - hidx) (len needle - Z.of_nat i));
      [unfold len in *; lia|].
    destruct (len_slice_from haystack hidx Hh) as [Esl Elen].
    rewrite Esl.
    destruct (find_from_subsequence n ns _ 0 Hsub) as (p & Hfind & Hplt & Hrest).
    rewrite length_drop in Hplt. rewrite Z.add_0_l in Hfind.
    rewrite Hfind. simpl.
    destruct (Z.eqb_spec (Z.of_nat p) (-1)); [lia|].
    assert (find_from n (drop (Z.to_nat hidx) haystack) 0 ≠ -1) as Hfound
      by (rewrite Hfind; lia).
    destruct (find_from_match n _ 0 Hfound ltac:(lia)) as (c & Hc & Hn).
    rewrite Hfind, Z.sub_0_r, Nat2Z.id, lookup_drop in Hc.
    replace (Z.to_nat hidx + p)%nat with (Z.to_nat (Z.of_nat p + hidx)) in Hc
      by lia.
    destruct (score_for_char_Done ctx haystack (Z.of_nat p + hidx) last_idx)
      as [sc Hsc]; [lia|unfold len in *; lia|].
    rewrite Hsc. simpl. unfold py_setitem.
    destruct (decide (i < length positions)%nat) as [_|Hge]; [|lia]. simpl.
    destruct (IH (S i) (Z.of_nat p + hidx + 1) (Z.of_nat p + hidx)
                 (score + sc)%float (<[i:=Z.of_nat p + hidx]> positions)
                 ((Z.of_nat p + hidx + 1, i, last_idx, score, positions)
                    :: stack))
      as (score' & positions' & new & Hrun & rest & Hfull & Hv & Hs);
      [done|unfold len in *; lia|lia|by rewrite length_insert| |].
    { rewrite drop_drop in Hrest.
      replace (Z.to_nat (Z.of_nat p + hidx + 1))
        with (Z.to_nat hidx + S p)%nat by lia. done. }
    simpl in Hfull, Hv, Hs.
    exists score', positions',
      (new ++ [(Z.of_nat p + hidx + 1, i, last_idx, score, positions)]).
    split; [by rewrite Hrun, <- app_assoc|].
    exists (Z.of_nat p + hidx :: rest). simpl. rewrite <- Hns.
    split; [|split].
    + rewrite Hfull, take_S_insert by lia. by rewrite <- app_assoc.
    + simpl. rewrite Hc, Hn. rewrite <- Hns' in Hv. rewrite Hv.
      destruct (Z.leb_spec hidx (Z.of_nat p + hidx)); [|lia].
      destruct (Z.ltb_spec (Z.of_nat p + hidx) (len haystack));
        [done|unfold len in *; lia].
    + simpl. rewrite Hsc. done.
Qed.

(** Once [final_score] is above 0 it stays above 0. *)
Lemma while_loop_positive memo ctx haystack needle :
  ∀ fuel stack mem final_score final_positions alias score positions mem',
    (0 <? final_score)%float = true →
    while_loop memo fuel ctx haystack needle stack mem final_score
               final_positions alias
      = Done (score, positions, mem') →
    (0 <? score)%float = true.
Proof.
  induction fuel as [|fuel IH];
    intros stack mem final_score final_positions alias sc ps mem' Hpos Hrun.
  - destruct stack as [|[[[[hidx nidx] last_idx] score] positions] stack];
      simpl in Hrun; [|done]. by injection Hrun as <- _ _.
  - destruct stack as [|[[[[hidx nidx] last_idx] score] positions] stack];
      simpl in Hrun; [by injection Hrun as <- _ _|].
    destruct (match (if memo then mem !! (hidx, nidx, last_idx) else None) with
              | Some (score0, positions') => _
              | None => _
              end) as [[[[[score' positions'] object] stack'] mem1]| |];
      simpl in Hrun; [|done|done].
    destruct (final_score <? score')%float eqn:Hlt.
    + apply IH in Hrun; [done|]. by apply (ltb_trans _ final_score).
    + by apply IH in Hrun.
Qed.

Lemma process_item_positive ctx haystack needle score positions ctx' :
  memory ctx = Some ∅ →
  is_subsequence needle haystack = true →
  (∀ ps v, valid_placement haystack needle 0 ps = true →
     placement_score ctx haystack 0 ps 0%float = Done v →
     (0 <? v)%float = true) →
  process_item ctx haystack needle = Done (score, positions, ctx') →
  (0 <? score)%float = true
  ∧ valid_placement haystack needle 0 positions = true
  ∧ placement_score ctx haystack 0 positions 0%float = Done score.
Proof.
  intros Hmem Hsub Hpos Hrun.
  assert ((0 <? score)%float = true) as Hscore.
  { unfold process_item, process_item_with in Hrun. rewrite Hmem in Hrun.
    destruct (while_loop true (budget haystack) ctx haystack needle
                [(0, 0%nat, 0, 0%float, replicate (length needle) (-1))] ∅
                0%float (replicate (length needle) (-1)) true)
      as [[[sc ps] mem']| |] eqn:Hwhile; simpl in Hrun; [|done|done].
    injection Hrun as <- _ _.
    unfold budget in Hwhile.
    pose proof (pow2_pos (length haystack)) as Hpow.
    destruct (2 ^ length haystack)%nat as [|fuel]; [lia|].
    simpl in Hwhile. rewrite lookup_empty in Hwhile.
    destruct (for_loop_greedy ctx haystack needle (drop 0 needle) 0 0 0
                0%float (replicate (length needle) (-1)) [])
      as (score' & positions' & new & Hfor & rest & Hfull & Hv & Hs);
      [done|unfold len; lia|done|by rewrite length_replicate|
       by rewrite !drop_0|].
    simpl in Hfull, Hv, Hs. subst positions'.
    unfold frame in Hfor. rewrite Hfor in Hwhile. simpl in Hwhile.
    rewrite (Hpos rest score' Hv Hs) in Hwhile.
    apply while_loop_positive in Hwhile; [done|]. by apply (Hpos rest). }
  split; [done|].
  destruct (process_item_result_sound ctx haystack needle score positions ctx'
              Hmem Hrun) as [_ [->|[Hv Hs]]]; [|done].
  by vm_compute in Hscore.
Qed.

(** X18: when every valid placement has a score above 0, [process_item]
    gives a needle that can be placed in the haystack a score above 0,
    that of the valid placement it returns. *)
Theorem process_item_finds_subsequence ctx haystack needle :
  memory ctx = Some ∅ →
  is_subsequence needle haystack = true →
  (∀ ps v, valid_placement haystack needle 0 ps = true →
     placement_score ctx haystack 0 ps 0%float = Done v →
     (0 <? v)%float = true) →
  ∃ score positions ctx',
    process_item ctx haystack needle = Done (score, positions, ctx')
    ∧ (0 <? score)%float = true
    ∧ valid_placement haystack needle 0 positions = true
    ∧ placement_score ctx haystack 0 positions 0%float = Done score.
Proof.
  intros Hmem Hsub Hpos.
  destruct (process_item_with_total true ctx haystack needle ∅ Hmem)
    as (score & positions & ctx' & Hrun).
  exists score, positions, ctx'. split; [exact Hrun|].
  exact (process_item_positive ctx haystack needle score positions ctx'
           Hmem Hsub Hpos Hrun).
Qed.

Lemma reference_entries_cover its needle l item :
  reference_entries its needle = Done l → item ∈ its →
  ∃ sc ps, score_item item needle = Done (sc, ps)
           ∧ ((- sc)%float, item, ps) ∈ l.
Proof.
  unfold reference_entries. intros Hl Hitem.
  destruct (traverse _ its) as [ents| |] eqn:Htr; [|done|done].
  simpl in Hl. injection Hl as <-.
  apply traverse_Done in Htr.
  apply list_elem_of_lookup in Hitem as [i Hi].
  destruct (Forall2_lookup_l _ _ _ _ _ Htr Hi) as (e & He & Hf).
  destruct (score_item item needle) as [[sc ps]| |]; [|done|done].
  simpl in Hf. injection Hf as <-. exists sc, ps. split; [done|].
  rewrite sorted_Permutation. by apply list_elem_of_lookup_2 in He.
Qed.


End finds_subsequence.

Section finds_subsequence_example.
#[local] Existing Instance ascii_externals.

Lemma placements_of_one_positive m0 ps v :
  item_max_score (s "im/one.gif") (s "one") = Done m0 →
  valid_placement (s "im/one.gif") (s "one") 0 ps = true →
  placement_score (with_memory (PyScorer_init []) m0 (Some ∅))
                  (s "im/one.gif") 0 ps 0%float = Done v →
  (0 <? v)%float = true.
Proof.
  intros Hm0 Hv Hs. vm_compute in Hm0. injection Hm0 as <-.
  destruct ps as [|p ps]; [by vm_compute in Hv|].
  apply valid_placement_cons in Hv as (Hp & (cp & Hcp & Hmp) & Hv).
  destruct ps as [|q ps]; [by simpl in Hv|].
  apply valid_placement_cons in Hv as (Hq & (cq & Hcq & Hmq) & Hv).
  destruct ps as [|r ps]; [by simpl in Hv|].
  apply valid_placement_cons in Hv as (Hr & (cr & Hcr & Hmr) & Hv).
  destruct ps as [|? ?]; [clear Hv|by simpl in Hv].
  change (len (s "im/one.gif")) with 10 in *.
  assert (p = 0 ∨ p = 1 ∨ p = 2 ∨ p = 3 ∨ p = 4 ∨ p = 5 ∨ p = 6 ∨ p = 7)
    as Hp' by lia.
  destruct Hp' as [->|[->|[->|[->|[->|[->|[->| ->]]]]]]];
    vm_compute in Hcp; injection Hcp as <-; vm_compute in Hmp; try done.
  assert (q = 4 ∨ q = 5 ∨ q = 6 ∨ q = 7 ∨ q = 8) as Hq' by lia.
  destruct Hq' as [->|[->|[->|[->| ->]]]];
    vm_compute in Hcq; injection Hcq as <-; vm_compute in Hmq; try done.
  assert (r = 5 ∨ r = 6 ∨ r = 7 ∨ r = 8 ∨ r = 9) as Hr' by lia.
  destruct Hr' as [->|[->|[->|[->| ->]]]];
    vm_compute in Hcr; injection Hcr as <-; vm_compute in Hmr; try done.
  vm_compute in Hs. injection Hs as <-. reflexivity.
Qed.

Lemma process_item_finds_subsequence_witness :
  ∃ score positions ctx',
    process_item (with_memory (PyScorer_init []) 0x1.bbbbbbbbbbbbcp-3
                              (Some ∅))
                 (s "im/one.gif") (s "one") = Done (score, positions, ctx')
    ∧ (0 <? score)%float = true
    ∧ valid_placement (s "im/one.gif") (s "one") 0 positions = true
    ∧ placement_score (with_memory (PyScorer_init []) 0x1.bbbbbbbbbbbbcp-3
                                   (Some ∅))
                      (s "im/one.gif") 0 positions 0%float = Done score.
Proof.
  apply (process_item_finds_subsequence
           (with_memory (PyScorer_init []) 0x1.bbbbbbbbbbbbcp-3 (Some ∅))).
  - reflexivity.
  - vm_compute. reflexivity.
  - intros ps v. apply placements_of_one_positive. vm_compute. reflexivity.
Defined.


End finds_subsequence_example.
(** ** Proofs: a scorer that yields the wrong number of values *)

Lemma split_part_length {A} (its : list A) W tasks t p :
  (1 ≤ W)%nat → split its W = Done tasks → tasks !! t = Some p →
  (length p ≤ ceil_div (length its) W)%nat.
Proof.
  intros HW Hs Hp. unfold split in Hs.
  destruct (decide (W = 0%nat)); [lia|].
  destruct its as [|x its].
  { simpl in Hs. injection Hs as <-. done. }
  assert (1 ≤ ceil_div (length (x :: its)) W)%nat as Hd
    by (apply ceil_div_pos; [simpl; lia|done]).
  destruct (split_loop_spec (ceil_div (length (x :: its)) W) Hd
              (length (x :: its)) (x :: its) 0 [] (le_n _))
    as (parts & Hrun & _ & Hall & _).
  rewrite Hs in Hrun. injection Hrun as ->.
  pose proof (proj1 (Forall_forall _ _) Hall p) as Hlen.
  apply list_elem_of_lookup_2 in Hp. specialize (Hlen Hp). simpl in *. lia.
Qed.

Section value_count.
Context {E : Externals} {Sc : Type} {SC : Scorer Sc}.

Lemma consume_too_many {A} (p : list (nat * A)) :
  ∀ (g : gen Sc (float * list Z)) i scores positions,
    gen_end g = Done () →
    (length p < i + length (gen_values g))%nat → (i ≤ length p)%nat →
    ∃ st, consume (task_map_of p) i g scores positions = (Raised KeyError, st).
Proof.
  induction g as [r st|[score pos] st rest IH]; intros i scores positions
    Hend Hlen Hi; simpl in *; [lia|].
  rewrite task_map_of_lookup.
  destruct (p !! i) as [[g x]|] eqn:Hp; simpl; [|eauto].
  apply IH; [done|lia|]. apply lookup_lt_Some in Hp. lia.
Qed.

Lemma first_exists {A} (P : A → Prop) `{∀ x, Decision (P x)} (l : list A) :
  Exists P l →
  ∃ l1 x l2, l = l1 ++ x :: l2 ∧ Forall (λ y, ¬ P y) l1 ∧ P x.
Proof.
  induction l as [|y l IH]; intros Hex; [by apply Exists_nil in Hex|].
  destruct (decide (P y)) as [Hy|Hy].
  - exists [], y, l. split; [done|]. split; [constructor|done].
  - apply Exists_cons in Hex as [?|Hex]; [done|].
    destruct (IH Hex) as (l1 & x & l2 & -> & Hl1 & Hx).
    exists (y :: l1), x, l2. split; [done|]. split; [by constructor|done].
Qed.

Lemma traverse_KeyError {A B} (f : A → outcome B) (l : list A) x :
  (∀ y, y ∈ l → (∃ b, f y = Done b) ∨ f y = Raised KeyError) →
  x ∈ l → f x = Raised KeyError →
  traverse f l = Raised KeyError.
Proof.
  induction l as [|y l IH]; intros Hall Hx Hfx; [by apply elem_of_nil in Hx|].
  simpl. destruct (Hall y) as [[b Hb]|Hb]; [apply elem_of_cons; by left| |].
  - rewrite Hb. simpl.
    apply elem_of_cons in Hx as [->|Hx]; [by rewrite Hfx in Hb|].
    rewrite IH; [done| |done|done].
    intros z Hz. apply Hall. apply elem_of_cons. by right.
  - by rewrite Hb.
Qed.

(** X20: a scorer whose values end without an exception but are not as many
    as the partition has candidates never yields a mapping: started on an
    empty queue, [Matcher.__call__] raises [KeyError], from the partition
    map when there are too many values and from the score table when there
    are too few. *)
Theorem value_count_mismatch_raises W tasks (self : Matcher Sc)
    (pool : Pool Sc) (arrival : list nat) query limit :
  (1 ≤ W)%nat → split (m_items self) W = Done tasks →
  task_maps self = task_map_of <$> tasks → results pool = [] →
  arrival ≡ₚ seq 0 (length (task_maps self)) →
  Forall2 (λ sc p, ∃ vals,
             scorer_call sc (normalize_nfc query) = inr vals
             ∧ gen_end vals = Done ())
          (scorers self) tasks →
  (∃ t sc p vals,
     scorers self !! t = Some sc ∧ tasks !! t = Some p
     ∧ scorer_call sc (normalize_nfc query) = inr vals
     ∧ length (gen_values vals) ≠ length p) →
  (Matcher_call self pool arrival query limit).1.1 = Raised KeyError.
Proof.
  intros HW Hs Hmaps Hq Ha Hsc (t0 & sc0 & p0 & vals0 & Hsc0 & Hp0 & Hcall0 & Hne).
  unfold Matcher_call. rewrite Hq. simpl app.
  set (q := normalize_nfc query) in *.
  set (requests := imap (λ i scorer, (i, scorer, q)) (scorers self)).
  set (entries := Worker_run <$> requests).
  assert (Hf : omap (λ t, Worker_run <$> requests !! t) arrival
               = omap (λ t, entries !! t) arrival).
  { apply list_omap_ext, Forall_Forall2_diag, Forall_forall.
    intros t _. unfold entries. by rewrite list_lookup_fmap. }
  rewrite Hf, Hmaps, length_fmap. rewrite Hmaps, length_fmap in Ha.
  set (delta := ceil_div (length (m_items self)) W).
  pose proof (Permutation_length Ha) as Hl. rewrite length_seq in Hl.
  assert (Hall : ∀ t, t ∈ arrival →
    ∃ sc vals p, scorers self !! t = Some sc ∧ scorer_call sc q = inr vals
               ∧ entries !! t = Some (Success t vals) ∧ tasks !! t = Some p
               ∧ gen_end vals = Done ()).
  { intros t Ht. rewrite Ha in Ht. apply elem_of_seq in Ht.
    destruct (lookup_lt_is_Some_2 tasks t) as [p Hp]; [lia|].
    destruct (Forall2_lookup_r _ _ _ _ _ Hsc Hp)
      as (sc & Hsct & vals & Hcall & Hend).
    exists sc, vals, p. repeat split; try done.
    unfold entries, requests.
    rewrite list_lookup_fmap, list_lookup_imap, Hsct. simpl.
    by rewrite Hcall. }
  set (too_many := λ t, ∃ vals p, entries !! t = Some (Success t vals)
                          ∧ tasks !! t = Some p
                          ∧ (length p < length (gen_values vals))%nat).
  assert (Hdec : ∀ t, Decision (too_many t)).
  { intros t. unfold too_many.
    destruct (entries !! t) as [[u vals|x]|] eqn:He;
      [|right; by intros (? & ? & ? & _)|right; by intros (? & ? & ? & _)].
    destruct (tasks !! t) as [p|] eqn:Hp;
      [|right; by intros (? & ? & _ & ? & _)].
    destruct (decide (u = t)) as [->|Hu];
      [|right; intros (? & ? & [= ? _] & _); done].
    destruct (decide (length p < length (gen_values vals))%nat) as [Hlt|Hge].
    - left. eauto.
    - right. intros (vals' & p' & [= <-] & [= <-] & ?). done. }
  destruct (decide (Exists too_many arrival)) as [Hex|Hnone].
  - destruct (first_exists too_many arrival Hex)
      as (a1 & u & a2 & Harr & Ha1 & vals & p & Heu & Hpu & Hlt).
    assert (∃ q1, omap (λ t, entries !! t) a1 = q1 ∧ length q1 = length a1
              ∧ Forall (entry_readable (task_map_of <$> tasks)) q1)
      as (q1 & Hq1 & Hlen1 & Hread).
    { assert (∀ t, t ∈ a1 → t ∈ arrival) as Hsub
        by (intros t Ht; rewrite Harr; apply elem_of_app; by left).
      clear Harr. induction a1 as [|t a1 IH].
      - exists []. repeat split. constructor.
      - apply Forall_cons in Ha1 as [Ht Ha1].
        destruct IH as (q1 & Hq1 & Hlen1 & Hread); [done| |].
        { intros t' Ht'. apply Hsub. apply elem_of_cons. by right. }
        destruct (Hall t) as (sc & vals' & p' & _ & _ & He & Hp & Hend);
          [apply Hsub, elem_of_cons; by left|].
        exists (Success t vals' :: q1). csimpl. rewrite He. csimpl.
        rewrite Hq1. split; [done|]. split; [by rewrite Hlen1|].
        constructor; [|done]. simpl. exists (task_map_of p').
        rewrite list_lookup_fmap, Hp. split; [done|].
        apply consumable_by_length; [done|].
        destruct (decide (length (gen_values vals') ≤ length p')%nat);
          [lia|]. exfalso. apply Ht. exists vals', p'. split; [done|].
        split; [done|lia]. }
    rewrite Harr, omap_app. csimpl. rewrite Heu, Hq1. csimpl.
    rewrite <- Hl, Harr, length_app. simpl. rewrite <- Hlen1.
    destruct (collect_prefix (task_map_of <$> tasks)
                (Success u vals :: omap (λ t, entries !! t) a2)
                (S (length a2)) q1 (scorers self) ∅ ∅ None Hread)
      as (scs' & scores' & positions' & ->).
    simpl. rewrite list_lookup_fmap, Hpu. simpl.
    destruct (Hall u) as (? & vals' & ? & _ & _ & He & _ & Hend).
    { rewrite Harr. apply elem_of_app. right. apply elem_of_cons. by left. }
    rewrite Heu in He. injection He as <-.
    destruct (consume_too_many p vals 0 scores' positions' Hend) as [st ->];
      [lia|lia|]. done.
  - assert (Hin : ∀ t, t ∈ arrival →
      ∃ vals p, entries !! t = Some (Success t vals) ∧ tasks !! t = Some p
                ∧ consumable (task_map_of p) 0 vals).
    { intros t Ht.
      destruct (Hall t Ht) as (sc & vals & p & _ & _ & He & Hp & Hend).
      exists vals, p. repeat split; try done.
      apply consumable_by_length; [done|].
      destruct (decide (length (gen_values vals) ≤ length p)%nat); [lia|].
      exfalso. apply Hnone. apply Exists_exists. exists t. split; [done|].
      exists vals, p. split; [done|]. split; [done|lia]. }
    destruct (queue_good tasks entries arrival Hin) as (Hg & Hlen & Hmem).
    destruct (collect_any_ok (m_items self) W tasks entries HW Hs _ []
                (scorers self) ∅ ∅ Hg (collected_empty _ _))
      as (scores & positions & scs' & Hrun & Hcol).
    rewrite Hlen, Hl in Hrun. rewrite Hrun. simpl.
    assert (t0 ∈ arrival) as Ht0.
    { rewrite Ha. apply elem_of_seq. apply lookup_lt_Some in Hp0. lia. }
    destruct (Hall t0 Ht0) as (sc & vals & p & Hsct & Hcall & He & Hp & Hend).
    rewrite Hsc0 in Hsct. injection Hsct as <-.
    rewrite Hp0 in Hp. injection Hp as <-.
    rewrite Hcall0 in Hcall. injection Hcall as <-.
    assert (length (gen_values vals0) < length p0)%nat as Hfew.
    { destruct (decide (length (gen_values vals0) < length p0)%nat); [done|].
      exfalso. apply Hnone. apply Exists_exists. exists t0. split; [done|].
      exists vals0, p0. split; [done|]. split; [done|lia]. }
    set (j0 := length (gen_values vals0)) in *.
    destruct (split_task_lookup (m_items self) W tasks t0 p0 j0 HW Hs Hp0 Hfew)
      as [_ Hitem]. fold delta in Hitem.
    destruct (lookup_lt_is_Some_2 p0.*2 j0) as [item Hj0];
      [by rewrite length_fmap|].
    rewrite Hj0 in Hitem.
    pose proof (split_part_length (m_items self) W tasks t0 p0 HW Hs Hp0)
      as Hpd. fold delta in Hpd.
    unfold rank, sorted_entries.
    rewrite (traverse_KeyError _ _ ((t0 * delta + j0)%nat, item)); [done| |..].
    + intros [i x] _. destruct (scores !! i) as [sc|] eqn:Hsi;
        [|right; unfold py_getitem; by rewrite Hsi].
      rewrite (py_getitem_Some _ _ _ Hsi). simpl.
      destruct (positions !! i) as [ps|] eqn:Hpi;
        [|right; unfold py_getitem; by rewrite Hpi].
      rewrite (py_getitem_Some _ _ _ Hpi). simpl. eauto.
    + apply list_elem_of_lookup. exists (t0 * delta + j0)%nat.
      rewrite list_lookup_imap, Hitem. done.
    + destruct (Hcol (t0 * delta + j0)%nat) as [Hscore _].
      fold delta in Hscore.
      assert ((t0 * delta + j0) / delta = t0)%nat as Hdiv.
      { rewrite Nat.div_add_l by lia. rewrite Nat.div_small by lia. lia. }
      assert ((t0 * delta + j0) mod delta = j0)%nat as Hmod.
      { rewrite Nat.add_comm, Nat.Div0.mod_add. apply Nat.mod_small. lia. }
      rewrite Hdiv in Hscore. unfold expected in Hscore.
      rewrite Hdiv, He, Hmod in Hscore.
      rewrite (lookup_ge_None_2 (gen_values vals0) j0) in Hscore
        by (unfold j0; lia).
      assert (scores !! (t0 * delta + j0)%nat = None) as Hnone'.
      { rewrite Hscore. by destruct (decide _). }
      unfold py_getitem. by rewrite Hnone'.
Qed.

End value_count.

Section value_count_example.
#[local] Existing Instance ascii_externals.

Lemma value_count_mismatch_raises_witness :
  (Matcher_call
     {| m_items := demo_items;
        task_maps := task_maps demo_matcher;
        scorers := [PyScorer_init [s "im/one.gif"];
                    PyScorer_init [s "text/one.html"]];
        sort_keys := None |}
     demo_pool [1; 0]%nat (s "one") None).1.1
  = Raised KeyError.
Proof.
  refine (value_count_mismatch_raises 2
            [[(0%nat, s "im/one.gif"); (1%nat, s "im/two.gif")];
             [(2%nat, s "text/one.html")]]
            _ demo_pool [1; 0]%nat (s "one") None _ _ _ _ _ _ _).
  - lia.
  - vm_compute. reflexivity.
  - reflexivity.
  - reflexivity.
  - apply perm_swap.
  - repeat constructor; eexists; (split; [reflexivity|]);
      vm_compute; reflexivity.
  - exists 0%nat. eexists _, _, _. split; [reflexivity|].
    split; [reflexivity|]. split; [reflexivity|]. vm_compute. lia.
Defined.

End value_count_example.
